(** * ziggy: ring buffer, vector index and conversation history

    A shallow embedding of the retrieval core of the repository:
    - [FiniteList] and [slice_to_indices]        (src/agent.py)
    - [TorchVectorIndex], current version        (src/ziggy/index.py)
    - [TorchVectorIndex], earlier version        (src/index.py)
    - [OrderedSet], [IndexDict], [next_power_of_2] (src/ziggy/utils.py)
    - [HistoryDatabase]                          (src/agent.py)
    - [cumsum], [cumul_bounds], [cumul_indices], [batch_indices],
      [batch_generator], [string_splitter], [groupby_dict], [Bundle]
                                                 (src/ziggy/utils.py)
    - the history side of [Conversation.turn]    (src/agent.py)
    - [save] of the earlier index                (src/index.py)

    Python integers are [Z]; Python exceptions are the [Raise] branch of
    [outcome]; a method that mutates [self] returns the outcome together
    with the object as the call leaves it, so that the state left behind
    by a raising call can be talked about.  The ages of the history are
    integers held in a float32 tensor ([f32_of_Z]); where rounding
    decides, in the exponential decay, the scores are reals rounded to
    float32 ([f32]). *)

From Stdlib Require Import ZArith Lia Reals Lra.
From stdpp Require Import base list sorting strings.

Open Scope Z_scope.

(** ** Python runtime: exceptions, ranges, list indexing and slicing *)

Inductive exn : Type :=
  | IndexError
  | ValueError
  | KeyError
  | TypeError
  | AssertionError
  | ZeroDivisionError
  | RuntimeError
  | StrictAddError.   (* Exception('Trying to add existing labels in strict mode.') *)

Inductive outcome (A : Type) : Type :=
  | Ok (a : A)
  | Raise (e : exn).
Arguments Ok {A} a.
Arguments Raise {A} e.

Definition obind {A B} (m : outcome A) (k : A -> outcome B) : outcome B :=
  match m with
  | Ok a => k a
  | Raise e => Raise e
  end.

Notation "'let!' x ':=' m 'in' k" := (obind m (fun x => k))
  (at level 10, x name, m at level 100, k at level 200).

Fixpoint omapM {A B} (f : A -> outcome B) (l : list A) : outcome (list B) :=
  match l with
  | [] => Ok []
  | x :: l' => let! y := f x in let! ys := omapM f l' in Ok (y :: ys)
  end.

Definition zlen {A} (l : list A) : Z := Z.of_nat (length l).

(** [list(range(start, stop, step))]; [range] raises ValueError on a zero
    step. *)
Definition py_range (start stop step : Z) : outcome (list Z) :=
  if step =? 0 then Raise ValueError
  else
    let count :=
      if 0 <? step then Z.max 0 ((stop - start + step - 1) / step)
      else Z.max 0 ((start - stop - step - 1) / (- step)) in
    Ok (map (fun i => start + Z.of_nat i * step) (seq 0 (Z.to_nat count))).

(** [l[i]] on a built-in list: negative [i] counts from the end. *)
Definition py_index {A} (l : list A) (i : Z) : outcome A :=
  let n := zlen l in
  let j := if i <? 0 then i + n else i in
  if (j <? 0) || (n <=? j) then Raise IndexError
  else match l !! Z.to_nat j with
       | Some x => Ok x
       | None => Raise IndexError
       end.

(** [l[i] = x] on a built-in list. *)
Definition py_setitem {A} (l : list A) (i : Z) (x : A) : outcome (list A) :=
  let n := zlen l in
  let j := if i <? 0 then i + n else i in
  if (j <? 0) || (n <=? j) then Raise IndexError
  else Ok (<[Z.to_nat j := x]> l).

(** One bound of a built-in slice, as the interpreter adjusts it. *)
Definition adjust_bound (n step v : Z) : Z :=
  if v <? 0 then
    (if v + n <? 0 then (if step <? 0 then -1 else 0) else v + n)
  else if n <=? v then (if step <? 0 then n - 1 else n)
  else v.

(** [l[start:stop:step]] on a built-in list, for a non-zero step. *)
Definition py_slice {A} (l : list A) (start stop : option Z) (step : Z) : list A :=
  let n := zlen l in
  let lo := match start with
            | Some s => adjust_bound n step s
            | None => if step <? 0 then n - 1 else 0
            end in
  let hi := match stop with
            | Some s => adjust_bound n step s
            | None => if step <? 0 then -1 else n
            end in
  match py_range lo hi step with
  | Ok idxs => omap (fun i => l !! Z.to_nat i) idxs
  | Raise _ => []
  end.

(** A [slice] object: every field may be [None]. *)
Record slice : Type := Slice {
  slice_start : option Z;
  slice_stop : option Z;
  slice_step : option Z
}.

(** ** Methods that mutate [self]

    A method is a function from the object before the call to the
    outcome and the object after it; an exception leaves the mutations
    made so far in place. *)

Definition M (St A : Type) : Type := St -> outcome A * St.

Definition ret {St A} (a : A) : M St A := fun s => (Ok a, s).
Definition raise {St A} (e : exn) : M St A := fun s => (Raise e, s).
Definition lift {St A} (o : outcome A) : M St A := fun s => (o, s).
Definition gets {St A} (f : St -> A) : M St A := fun s => (Ok (f s), s).
Definition modify {St} (f : St -> St) : M St unit := fun s => (Ok (), f s).
Definition bind {St A B} (m : M St A) (k : A -> M St B) : M St B :=
  fun s =>
    match m s with
    | (Ok a, s') => k a s'
    | (Raise e, s') => (Raise e, s')
    end.

Notation "x <- m ;; k" := (bind m (fun x => k))
  (at level 100, m at next level, right associativity).
Notation "m ;; k" := (bind m (fun _ => k))
  (at level 100, right associativity).

(** Reading from [self] with a computation that may raise. *)
Definition read {St A} (f : St -> outcome A) : M St A := fun s => (f s, s).

(** Running a method of a field of [self]. *)
Definition zoom {St Sub A} (proj : St -> Sub) (upd : Sub -> St -> St) (m : M Sub A)
    : M St A :=
  fun s => let '(r, x) := m (proj s) in (r, upd x s).

Definition assert_ {St} (b : bool) : M St unit :=
  if b then ret () else raise AssertionError.

Definition when {St} (b : bool) (m : M St unit) : M St unit :=
  if b then m else ret ().

(** A method that returns normally from a state in [P] ends in [Q]. *)
Definition hoare {St A} (P : St -> Prop) (m : M St A) (Q : A -> St -> Prop) : Prop :=
  forall s a s', P s -> m s = (Ok a, s') -> Q a s'.

(** Whatever the outcome, the state after is related to the state before. *)
Definition keeps {St A} (R : St -> St -> Prop) (m : M St A) : Prop :=
  forall s, R s (m s).2.

(** [for x in l: body x] *)
Fixpoint for_each {St A} (l : list A) (body : A -> M St unit) : M St unit :=
  match l with
  | [] => ret ()
  | x :: l' => body x ;; for_each l' body
  end.

(** ** src/agent.py: [slice_to_indices] *)

Definition slice_to_indices (slc : slice) (size : Z) : outcome (list Z) :=
  (* fill in default values *)
  let start := default 0 (slice_start slc) in
  let stop := default size (slice_stop slc) in
  let step := default 1 (slice_step slc) in
  (* handle negative indexing *)
  let start := if start <? 0 then start + size else start in
  let end_ := if stop <? 0 then stop + size else stop in
  (* clamp indices *)
  let start := Z.max 0 start in
  let end_ := Z.min size end_ in
  (* the range runs to [stop]; [end_] is computed and not used *)
  py_range start stop step.

(** ** src/agent.py: [FiniteList] *)

Module FiniteList.

Section Defs.
Context {A : Type}.

Record t : Type := Make {
  max : Z;
  pos : Z;
  data : list A
}.

Definition init (maxlen : Z) : t := {| max := maxlen; pos := 0; data := [] |}.

Definition len (self : t) : Z := zlen (data self).

Definition empty (self : t) : bool := len self =? 0.

Definition full (self : t) : bool := len self =? max self.

(** [self[idx]] for an integer [idx]. *)
Definition getitem_int (self : t) (idx : Z) : outcome A :=
  let size := len self in
  if (size <=? idx) || (idx <? - size) then Raise IndexError
  else
    let p := (pos self - 1 - idx) mod size in
    py_index (data self) p.

(** [self[idx]] for a list [idx]: [[self[i] for i in idx]]. *)
Definition getitem_list (self : t) (idx : list Z) : outcome (list A) :=
  omapM (getitem_int self) idx.

(** [self[idx]] for a slice [idx]. *)
Definition getitem_slice (self : t) (idx : slice) : outcome (list A) :=
  let! idxs := slice_to_indices idx (len self) in
  getitem_list self idxs.

Definition values (self : t) : list A :=
  if empty self then []
  else if full self then
    py_slice (data self) (Some (pos self - 1)) None (-1)
      ++ py_slice (data self) None (Some (pos self)) (-1)
  else py_slice (data self) (Some (pos self - 1)) None (-1).

(** [append] mutates [self]; the result is the outcome and the object
    as the call leaves it. *)
Definition append (item : A) : M t unit := fun self =>
  let r :=
    if len self <? max self then Ok (data self ++ [item])
    else py_setitem (data self) (pos self) item in
  match r with
  | Raise e => (Raise e, self)
  | Ok d =>
      let self1 := {| max := max self; pos := pos self; data := d |} in
      if max self =? 0 then (Raise ZeroDivisionError, self1)
      else (Ok (), {| max := max self; pos := (pos self + 1) mod max self; data := d |})
  end.

(** Appending a sequence of items, stopping at the first exception. *)
Fixpoint appends (self : t) (items : list A) : outcome unit * t :=
  match items with
  | [] => (Ok (), self)
  | x :: rest =>
      match append x self with
      | (Ok _, self') => appends self' rest
      | (Raise e, self') => (Raise e, self')
      end
  end.

(** What the backward addressing of [__getitem__] enumerates: logical
    indices [0 .. len-1]. *)
Definition items_by_index (self : t) : outcome (list A) :=
  getitem_list self (map Z.of_nat (seq 0 (length (data self)))).

(** The buffers that [init] and [append] produce for a positive
    capacity: the cursor is the number of items while the buffer fills
    and stays in range afterwards. *)
Definition wf (self : t) : Prop :=
  0 < max self
  /\ len self <= max self
  /\ 0 <= pos self < max self
  /\ (len self < max self -> pos self = len self).
End Defs.

Arguments t : clear implicits.

End FiniteList.

(** ** Numbers held by tensors

    Scores and vector entries are torch floating-point numbers.  The
    index only adds, multiplies and compares them, and selects the
    largest with [topk]; these operations form the interface [Numeric].
    It is instantiated below at [Z] (exact, executable: floats holding
    small integers behave the same way), at [R] with exact arithmetic,
    and at [R] with every result rounded to float32 (for the
    exponential decay, where rounding decides).  NaN and the infinities
    are outside the model. *)

Class Numeric (T : Type) : Type := {
  szero : T;
  sadd : T -> T -> T;
  smul : T -> T -> T;
  sleb : T -> T -> bool;
  (** [t.topk(k)] on a 1-D tensor: the pairs (index, value) of the [k]
      largest entries; raises when [k] is out of range. *)
  topk : list T -> Z -> outcome (list (nat * T))
}.

Definition sgtb `{Numeric T} (x y : T) : bool := negb (sleb x y).

Section TopK.
Context {T : Type} (leb : T -> T -> bool).

(** Descending insertion that keeps an earlier entry in front of a
    later one of equal value. *)
Fixpoint insert_desc (x : nat * T) (l : list (nat * T)) : list (nat * T) :=
  match l with
  | [] => [x]
  | y :: l' => if leb (snd y) (snd x) then x :: y :: l' else y :: insert_desc x l'
  end.

Definition sort_desc (l : list (nat * T)) : list (nat * T) :=
  foldr insert_desc [] l.

(** A model of [topk]: arrange the indexed entries, sort them in
    descending order and keep the first [k].  The library fixes the
    values it returns and leaves the order among equal values open;
    here that order is the one of the arrangement. *)
Definition topk_by (arrange : list (nat * T) -> list (nat * T))
    (xs : list T) (k : Z) : outcome (list (nat * T)) :=
  if (k <? 0) || (zlen xs <? k) then Raise RuntimeError
  else Ok (take (Z.to_nat k) (sort_desc (arrange (imap (fun i x => (i, x)) xs)))).

(** The lower index first among equal values. *)
Definition topk_ref : list T -> Z -> outcome (list (nat * T)) := topk_by (fun l => l).

(** The higher index first among equal values. *)
Definition topk_alt : list T -> Z -> outcome (list (nat * T)) := topk_by reverse.
End TopK.

(** What the torch documentation promises of [topk] (largest, sorted). *)
Definition sorted_desc {T} (leb : T -> T -> bool) (l : list T) : Prop :=
  forall i j x y, (i <= j)%nat -> l !! i = Some x -> l !! j = Some y -> leb y x = true.

Record topk_contract {T} (leb : T -> T -> bool)
    (tk : list T -> Z -> outcome (list (nat * T))) : Prop := {
  topk_range : forall xs k,
    (k < 0 \/ zlen xs < k) -> tk xs k = Raise RuntimeError;
  topk_some : forall xs k,
    0 <= k <= zlen xs -> exists res, tk xs k = Ok res;
  topk_length : forall xs k res,
    tk xs k = Ok res -> zlen res = k;
  topk_lookup : forall xs k res i v,
    tk xs k = Ok res -> (i, v) ∈ res -> xs !! i = Some v;
  topk_nodup : forall xs k res,
    tk xs k = Ok res -> NoDup (res.*1);
  topk_sorted : forall xs k res,
    tk xs k = Ok res -> sorted_desc leb (res.*2);
  topk_largest : forall xs k res j w i v,
    tk xs k = Ok res -> xs !! j = Some w -> j ∉ res.*1 -> (i, v) ∈ res ->
    leb w v = true
}.

Class NumericLaws (T : Type) `{Numeric T} : Prop := {
  sleb_total : forall x y : T, sleb x y = true \/ sleb y x = true;
  sleb_trans : forall x y z : T, sleb x y = true -> sleb y z = true -> sleb x z = true;
  topk_ok : topk_contract sleb topk
}.

#[export] Instance Z_numeric : Numeric Z := {|
  szero := 0;
  sadd := Z.add;
  smul := Z.mul;
  sleb := Z.leb;
  topk := topk_ref Z.leb
|}.

(** The same numbers with the other [topk]. *)
Definition Z_numeric_alt : Numeric Z := {|
  szero := 0;
  sadd := Z.add;
  smul := Z.mul;
  sleb := Z.leb;
  topk := topk_alt Z.leb
|}.

Definition Rleb (x y : R) : bool := if Rle_dec x y then true else false.

#[export] Instance R_numeric : Numeric R := {|
  szero := 0%R;
  sadd := Rplus;
  smul := Rmult;
  sleb := Rleb;
  topk := topk_ref Rleb
|}.

(** ** float32

    A float32 number has 24 significant bits.  Its finite values are
    the numbers [m * 2^j] units with a 24-bit [m] and [j >= 0], the
    unit being the smallest positive value, [2^-149].  The largest
    finite value and what lies beyond it are not modelled: [j] has no
    bound. *)

Definition f32_repr (z : Z) : Prop :=
  exists m j : Z, Z.abs m < 2 ^ 24 /\ 0 <= j /\ z = m * 2 ^ j.

Definition f32_unit : R := (/ 2 ^ 149)%R.

Definition is_f32 (x : R) : Prop :=
  exists z : Z, f32_repr z /\ x = (IZR z * f32_unit)%R.

(** Rounding of [X >= 0] units to nearest, a tie going to the even
    multiple of the spacing.  With [k] the integer part of [X], the
    spacing is 1 below [2^24] and [2^(log2 k - 23)] from there on. *)
Definition f32_units (X : R) : Z :=
  let k := Int_part X in
  let fr := (X - IZR k)%R in
  let q := 2 ^ Z.max 0 (Z.log2 k - 23) in
  let n := k / q in
  let r := (IZR (k mod q) + fr)%R in
  let half := (IZR q / 2)%R in
  if Rlt_dec r half then n * q
  else if Rlt_dec half r then (n + 1) * q
  else if Z.even n then n * q else (n + 1) * q.

(** The float32 nearest to the real [x]. *)
Definition f32 (x : R) : R :=
  if Rlt_dec x 0 then (- (IZR (f32_units (- x * 2 ^ 149)) * f32_unit))%R
  else (IZR (f32_units (x * 2 ^ 149)) * f32_unit)%R.

(** float32 tensors: every sum and product is rounded. *)
Definition F32_numeric : Numeric R := {|
  szero := 0%R;
  sadd := fun x y => f32 (x + y);
  smul := fun x y => f32 (x * y);
  sleb := Rleb;
  topk := topk_ref Rleb
|}.

(** [torch.exp] on a float32 tensor is a library routine.  What the
    decay asks of it: it is exact at 0, and on an argument that is not
    positive its result lies between 0 and 1. *)
Definition decay_exp (texp : R -> R) : Prop :=
  texp 0%R = 1%R /\ forall x : R, (x <= 0)%R -> (0 <= texp x <= 1)%R.

(** A faithfully rounded routine: the result lies between the float32
    values that enclose the exact exponential, and is the exact value
    when that is a float32. *)
Definition faithful_exp (texp : R -> R) : Prop :=
  forall x lo hi : R,
    is_f32 lo -> is_f32 hi -> (lo <= exp x <= hi)%R -> (lo <= texp x <= hi)%R.

(** The correctly rounded exponential, one such routine. *)
Definition exp32 (x : R) : R := f32 (exp x).

(** An integer held in a float32 tensor: exact up to [2^24] in
    magnitude, beyond that rounded to the nearest multiple of the
    spacing [2^(log2 |x| - 23)], a tie going to the even multiple. *)
Definition f32_of_Z (x : Z) : Z :=
  let e := Z.log2 (Z.abs x) - 23 in
  if e <=? 0 then x
  else
    let q := 2 ^ e in
    let n := x / q in
    let r := x mod q in
    if 2 * r <? q then n * q
    else if q <? 2 * r then (n + 1) * q
    else if Z.even n then n * q else (n + 1) * q.

(** Dot product of two 1-D tensors of the same length. *)
Definition dot `{Numeric T} (u v : list T) : T :=
  foldr sadd szero (zip_with smul u v).

(** [c] is a power of two. *)
Definition is_pow2 (c : Z) : Prop := exists e, 0 <= e /\ c = 2 ^ e.

(** ** Tensors as lists: indexed reads and writes along the first axis *)

(** [t[i]] for an integer [i]. *)
Definition t_get {A} (t : list A) (i : Z) : outcome A := py_index t i.

(** [t[i] = x] *)
Definition t_set {A} (t : list A) (i : Z) (x : A) : outcome (list A) := py_setitem t i x.

(** [t[idxs]] for a list of integers. *)
Definition t_gather {A} (t : list A) (idxs : list Z) : outcome (list A) :=
  omapM (t_get t) idxs.

(** [t[idxs] = src]: one source row per index, written in order. *)
Fixpoint t_scatter_go {A} (t : list A) (idxs : list Z) (src : list A) : outcome (list A) :=
  match idxs, src with
  | i :: idxs', x :: src' => let! t' := t_set t i x in t_scatter_go t' idxs' src'
  | _, _ => Ok t
  end.

Definition t_scatter {A} (t : list A) (idxs : list Z) (src : list A) : outcome (list A) :=
  if zlen idxs =? zlen src then t_scatter_go t idxs src
  else Raise RuntimeError.

(** [t[lo:hi] = src] for [0 <= lo], [0 <= hi]: the slice is cut to the
    tensor and the source must have as many rows as the slice. *)
Definition t_set_slice {A} (t : list A) (lo hi : Z) (src : list A) : outcome (list A) :=
  let n := zlen t in
  let lo' := Z.min lo n in
  let hi' := Z.max lo' (Z.min hi n) in
  if hi' - lo' =? zlen src then
    Ok (take (Z.to_nat lo') t ++ src ++ drop (Z.to_nat hi') t)
  else Raise RuntimeError.

(** [t.resize_(n, ...)]: the first rows are kept; new rows are
    uninitialised memory, modelled by [fill]. *)
Definition t_resize {A} (fill : A) (t : list A) (n : Z) : list A :=
  take (Z.to_nat n) t ++ replicate (Z.to_nat n - length t)%nat fill.

(** ** src/ziggy/utils.py *)

(** [pow(2, round(ceil(log2(x))))]; [log2] raises ValueError (math domain
    error) unless [x] is positive. *)
Definition next_power_of_2 (x : Z) : outcome Z :=
  if x <=? 0 then Raise ValueError else Ok (2 ^ Z.log2_up x).

(** The argument of a method decorated with [allow_list]: one key or a
    list of keys. *)
Inductive arg (K : Type) : Type :=
  | One (k : K)
  | Many (ks : list K).
Arguments One {K} k.
Arguments Many {K} ks.

(** A Python [set] is modelled as a list without duplicates; the order
    in which Python iterates over a set is not specified, and no theorem
    below depends on the order chosen here. *)
Definition py_set {A} `{EqDecision A} (l : list A) : list A := remove_dups l.

Module IndexDict.
Section Defs.
Context {K : Type} `{EqDecision K}.

(** A [dict] from keys to integer ids, in insertion order. *)
Definition t : Type := list (K * Z).

Definition init : t := [].

Definition keys (self : t) : list K := self.*1.

(** [self[k]] *)
Definition getitem (self : t) (k : K) : outcome Z :=
  match list_find (fun kv => kv.1 = k) self with
  | Some (_, (_, v)) => Ok v
  | None => Raise KeyError
  end.

(** [self.update(kvs)] *)
Fixpoint update (self : t) (kvs : list (K * Z)) : t :=
  match kvs with
  | [] => self
  | (k, v) :: kvs' =>
      let self' :=
        match list_find (fun kv => kv.1 = k) self with
        | Some (i, _) => <[i := (k, v)]> self
        | None => self ++ [(k, v)]
        end in
      update self' kvs'
  end.

Definition add_keys (self : t) (ks : list K) : t :=
  let skeys := py_set ks in
  let new := list_difference skeys (list_intersection (keys self) skeys) in
  let n0 := zlen self in
  let n1 := zlen new in
  let ids := map (fun i => n0 + Z.of_nat i) (seq 0 (Z.to_nat n1)) in
  update self (zip new ids).

Definition add (self : t) (a : arg K) : t :=
  match a with
  | One k => add_keys self [k]
  | Many ks => add_keys self ks
  end.

Definition idx_keys (self : t) (ks : list K) : outcome (list Z) :=
  omapM (getitem self) ks.

(** [idx] gives one id for one key and a list of ids for a list. *)
Definition idx (self : t) (a : arg K) : outcome (arg Z) :=
  match a with
  | One k => let! r := idx_keys self [k] in
             match r with
             | g :: _ => Ok (One g)
             | [] => Raise IndexError
             end
  | Many ks => let! r := idx_keys self ks in Ok (Many r)
  end.
End Defs.
Arguments t : clear implicits.
End IndexDict.

Module OrderedSet.
Section Defs.
Context {L : Type} `{EqDecision L}.

(** A [list] subclass that carries a [set] of its elements. *)
Record t : Type := Make {
  items : list L;
  _set : list L
}.

Definition init (data : list L) : t := {| items := data; _set := py_set data |}.

Definition len (self : t) : Z := zlen (items self).

Definition isdisjoint (self : t) (ks : list L) : bool :=
  forallb (fun k => negb (bool_decide (k ∈ _set self))) ks.

Definition intersection (self : t) (ks : list L) : list L :=
  list_intersection (_set self) ks.

Definition extend (ks : list L) : M t unit := fun self =>
  if negb (isdisjoint self ks) then (Raise ValueError, self)
  else (Ok (), {| items := items self ++ ks;
                  _set := _set self ++ list_difference (py_set ks) (_set self) |}).

(** [list.index]: the position of the first occurrence. *)
Definition index (self : t) (x : L) : outcome Z :=
  match list_find (fun y => y = x) (items self) with
  | Some (i, _) => Ok (Z.of_nat i)
  | None => Raise ValueError
  end.

(** [list.pop(i)]: the set part is not touched. *)
Definition pop (i : Z) : M t L := fun self =>
  let n := len self in
  let j := if i <? 0 then i + n else i in
  match (if (j <? 0) || (n <=? j) then None else items self !! Z.to_nat j) with
  | Some x => (Ok x, {| items := delete (Z.to_nat j) (items self); _set := _set self |})
  | None => (Raise IndexError, self)
  end.

(** [x in self]: list membership. *)
Definition contains (self : t) (x : L) : bool := bool_decide (x ∈ items self).

(** Every element of the list is in the set part; [init], [extend] and
    [pop] keep it so. *)
Definition consistent (self : t) : Prop :=
  forall x, x ∈ items self -> x ∈ _set self.
End Defs.
Arguments t : clear implicits.
End OrderedSet.

(** A 2-D tensor of shape [(length rows, cols)]. *)
Record tensor2 (T : Type) : Type := Tensor2 {
  cols : Z;
  rows : list (list T)
}.
Arguments Tensor2 {T} cols rows.
Arguments cols {T} _.
Arguments rows {T} _.

Definition enumerate {A} (l : list A) : list (Z * A) :=
  imap (fun i x => (Z.of_nat i, x)) l.

(** [torch.nonzero] of a 1-D boolean tensor: the positions that hold. *)
Definition nonzero (sel : list bool) : list Z :=
  omap (fun ib : Z * bool => if ib.2 then Some ib.1 else None) (enumerate sel).

(** Every score lies above the cutoff. *)
Definition above_cutoff `{Numeric T} (cutoff : T) (scores : list T) : Prop :=
  Forall (fun s => sgtb s cutoff = true) scores.

(** ** The embedding store *)

(** Modelled from the spec: the class [QuantizedEmbedding] of
    src/ziggy/quant.py is not part of the sources at hand.  The spec
    names its contract: [write(slot_range, vectors)], [read(slots)],
    [resize(new_capacity)], [similarity(query, mask)] giving scores
    aligned to the mask, [size()] and [capacity()], with dot-product
    similarity.  The model stores the rows unquantized. *)
Module QuantizedEmbedding.
Section Defs.
Context {T : Type} `{Numeric T}.

Record t : Type := Make {
  dims : Z;
  raw : list (list T)
}.

(** A row nobody has written yet. *)
Definition fresh_row (d : Z) : list T := replicate (Z.to_nat d) szero.

Definition init (size dims : Z) : t :=
  {| dims := dims; raw := replicate (Z.to_nat size) (fresh_row dims) |}.

(** Number of rows allocated (the capacity). *)
Definition size (self : t) : Z := zlen (raw self).

Definition resize (self : t) (n : Z) : t :=
  {| dims := dims self; raw := t_resize (fresh_row (dims self)) (raw self) n |}.

(** [self[idxs] = vecs] *)
Definition setitem (self : t) (idxs : list Z) (vecs : list (list T)) : outcome t :=
  let! r := t_scatter (raw self) idxs vecs in
  Ok {| dims := dims self; raw := r |}.

(** [self[lo:hi] = vecs] *)
Definition setitem_slice (self : t) (lo hi : Z) (vecs : list (list T)) : outcome t :=
  let! r := t_set_slice (raw self) lo hi vecs in
  Ok {| dims := dims self; raw := r |}.

(** [self.raw[i] = row] *)
Definition set_raw (self : t) (i : Z) (row : list T) : outcome t :=
  let! r := t_set (raw self) i row in
  Ok {| dims := dims self; raw := r |}.

(** [self[idxs]] *)
Definition getitem (self : t) (idxs : list Z) : outcome (list (list T)) :=
  t_gather (raw self) idxs.

(** The mask of [similarity]: the first [n] slots, or the listed ones. *)
Inductive mask : Type :=
  | First (n : Z)
  | Slots (idx : list Z).

(** One row of scores per query vector, aligned to the mask. *)
Definition similarity (self : t) (vecs : list (list T)) (m : mask)
    : outcome (list (list T)) :=
  let! sel := match m with
              | First n => Ok (py_slice (raw self) None (Some n) 1)
              | Slots idx => t_gather (raw self) idx
              end in
  Ok (map (fun q => map (dot q) sel) vecs).
End Defs.
Arguments t : clear implicits.
End QuantizedEmbedding.

(** ** src/ziggy/index.py: [TorchVectorIndex] *)

Module TorchVectorIndex.
Section Defs.
Context {L K T : Type} `{EqDecision L} `{EqDecision K} `{Numeric T}.

Record t : Type := Make {
  labels : OrderedSet.t L;
  grpids : IndexDict.t K;
  values : QuantizedEmbedding.t T;
  groups : list Z
}.

Definition set_labels (l : OrderedSet.t L) (s : t) : t :=
  {| labels := l; grpids := grpids s; values := values s; groups := groups s |}.
Definition set_grpids (g : IndexDict.t K) (s : t) : t :=
  {| labels := labels s; grpids := g; values := values s; groups := groups s |}.
Definition set_values (v : QuantizedEmbedding.t T) (s : t) : t :=
  {| labels := labels s; grpids := grpids s; values := v; groups := groups s |}.
Definition set_groups (g : list Z) (s : t) : t :=
  {| labels := labels s; grpids := grpids s; values := values s; groups := g |}.

(** [TorchVectorIndex(dims, size)] *)
Definition init (dims size : Z) : t :=
  {| labels := OrderedSet.init [];
     grpids := IndexDict.init;
     values := QuantizedEmbedding.init size dims;
     groups := replicate (Z.to_nat size) 0 |}.

Definition size (self : t) : Z := OrderedSet.len (labels self).

Definition capacity (self : t) : Z := QuantizedEmbedding.size (values self).

Definition expand (size : Z) (power : bool) : M t unit :=
  size <- (if power then lift (next_power_of_2 size) else ret size) ;;
  cap <- gets capacity ;;
  when (cap <? size)
    (modify (fun s => set_values (QuantizedEmbedding.resize (values s) size) s) ;;
     modify (fun s => set_groups (t_resize 0 (groups s) size) s)).

(** The positions in [labs] of the labels that lie in [sub], with the
    labels. *)
Definition located (labs : list L) (sub : list L) : list (Z * L) :=
  filter (fun ix => ix.2 ∈ sub) (enumerate labs).

Definition add (labs : list L) (vecs : tensor2 T) (grps : arg K) (strict : bool)
    : M t unit :=
  (* validate input size *)
  let nlabs := zlen labs in
  let nv := zlen (rows vecs) in
  let dv := cols vecs in
  d0 <- gets (fun s => QuantizedEmbedding.dims (values s)) ;;
  assert_ (nv =? nlabs) ;;
  assert_ (dv =? d0) ;;
  (* get breakdown of new vs old *)
  let slabs := py_set labs in
  exist <- gets (fun s => OrderedSet.intersection (labels s) slabs) ;;
  let novel := list_difference slabs exist in
  (* raise if trying invalid strict add *)
  if strict && (0 <? zlen exist) then raise StrictAddError
  else
    (* expand groups if needed *)
    modify (fun s => set_grpids (IndexDict.add (grpids s) grps) s) ;;
    gidx <- read (fun s => IndexDict.idx (grpids s) grps) ;;
    let gids := match gidx with
                | Many l => l
                | One g => replicate (Z.to_nat nlabs) g
                end in
    when (0 <? zlen exist)
      ((* update existing *)
       pairs <- read (fun s => omapM (fun ix : Z * L =>
                              let! j := OrderedSet.index (labels s) ix.2 in
                              Ok (ix.1, j)) (located labs exist)) ;;
       let elocs := pairs.*1 in
       let idxs := pairs.*2 in
       src <- lift (t_gather (rows vecs) elocs) ;;
       v <- read (fun s => QuantizedEmbedding.setitem (values s) idxs src) ;;
       modify (set_values v) ;;
       gsrc <- lift (t_gather gids elocs) ;;
       g <- read (fun s => t_scatter (groups s) idxs gsrc) ;;
       modify (set_groups g)) ;;
    when (0 <? zlen novel)
      ((* get new labels in input order *)
       let xs := located labs novel in
       let xlocs := xs.*1 in
       let xlabs := xs.*2 in
       (* expand size if needed *)
       nlabels0 <- gets size ;;
       let nlabels1 := nlabels0 + zlen novel in
       expand nlabels1 true ;;
       (* add in new labels and vectors *)
       zoom labels set_labels (OrderedSet.extend xlabs) ;;
       src <- lift (t_gather (rows vecs) xlocs) ;;
       v <- read (fun s => QuantizedEmbedding.setitem_slice (values s) nlabels0 nlabels1 src) ;;
       modify (set_values v) ;;
       gsrc <- lift (t_gather gids xlocs) ;;
       g <- read (fun s => t_set_slice (groups s) nlabels0 nlabels1 gsrc) ;;
       modify (set_groups g)).

(** [add(lab, vec)] with one label and a 1-D vector. *)
Definition add1 (lab : L) (vec : list T) (grps : arg K) (strict : bool) : M t unit :=
  add [lab] (Tensor2 (zlen vec) [vec]) grps strict.

(** [remove(labs)]; [size] is read once, before the loop. *)
Definition remove (labs : list L) : M t unit :=
  size <- gets size ;;
  targets <- gets (fun s => OrderedSet.intersection (labels s) labs) ;;
  for_each targets (fun lab =>
    idx <- read (fun s => OrderedSet.index (labels s) lab) ;;
    zoom labels set_labels (OrderedSet.pop idx) ;;
    row <- read (fun s => t_get (QuantizedEmbedding.raw (values s)) size) ;;
    v <- read (fun s => QuantizedEmbedding.set_raw (values s) idx row) ;;
    modify (set_values v) ;;
    g <- read (fun s => t_get (groups s) size) ;;
    gs <- read (fun s => t_set (groups s) idx g) ;;
    modify (set_groups gs)).

(** [remove(func=f)] *)
Definition remove_func (f : L -> bool) : M t unit :=
  labs <- gets (fun s => filter (fun l => f l = true) (OrderedSet.items (labels s))) ;;
  remove labs.

Definition clear (zero : bool) : M t unit :=
  modify (set_labels (OrderedSet.init [])) ;;
  modify (set_grpids IndexDict.init) ;;
  when zero
    (modify (fun s => set_values
               {| QuantizedEmbedding.dims := QuantizedEmbedding.dims (values s);
                  QuantizedEmbedding.raw :=
                    map (fun r => map (fun _ => szero) r) (QuantizedEmbedding.raw (values s)) |} s) ;;
     modify (fun s => set_groups (map (fun _ => 0) (groups s)) s)).

(** [get(labels)] for a list of labels. *)
Definition get (self : t) (labs : list L) : outcome (list (list T)) :=
  let! indices := omapM (OrderedSet.index (labels self)) labs in
  QuantizedEmbedding.getitem (values self) indices.

Definition contains (self : t) (lab : L) : bool :=
  OrderedSet.contains (labels self) lab.

(** [search(vecs, k, groups)] for a 2-D [vecs]: the labels and the
    scores of the best [k], one row per query. *)
Definition search (self : t) (vecs : list (list T)) (k : Z) (grps : option (arg K))
    : outcome (list (list L) * list (list T)) :=
  (* clamp k to max size *)
  let num := size self in
  let k1 := Z.min k num in
  (* get compare values *)
  let! sel :=
    match grps with
    | None => Ok (QuantizedEmbedding.First num, OrderedSet.items (labels self))
    | Some g =>
        let! gi := IndexDict.idx (grpids self) g in
        let ids := match gi with One i => [i] | Many l => l end in
        let hit := map (fun x => bool_decide (x ∈ ids))
                       (py_slice (groups self) None (Some num) 1) in
        let idx := nonzero hit in
        (* [squeeze()] turns a single hit into a 0-d tensor, and
           iterating over a 0-d tensor raises *)
        if zlen idx =? 1 then Raise TypeError
        else
          let! labs := omapM (py_index (OrderedSet.items (labels self))) idx in
          Ok (QuantizedEmbedding.Slots idx, labs)
    end in
  let idx := sel.1 in
  let labs := sel.2 in
  (* compute similarity matrix *)
  let! sims := QuantizedEmbedding.similarity (values self) vecs idx in
  (* get top results *)
  let! tops := omapM (fun row => topk row k1) sims in
  let! klab := omapM (fun top : list (nat * T) =>
                 omapM (fun iv : nat * T => py_index labs (Z.of_nat iv.1)) top) tops in
  let kval := map (fun top : list (nat * T) => top.*2) tops in
  Ok (klab, kval).

(** [search(vec, k, groups)] for a 1-D [vec]. *)
Definition search_vec (self : t) (vec : list T) (k : Z) (grps : option (arg K))
    : outcome (list L * list T) :=
  let! r := search self [vec] k grps in
  match r with
  | (klab :: _, kval :: _) => Ok (klab, kval)
  | _ => Raise IndexError
  end.

(** [simil(vec)] with the default mask, for one query vector. *)
Definition simil (self : t) (vec : list T) : outcome (list T) :=
  let mask := QuantizedEmbedding.First (size self) in
  let! sims := QuantizedEmbedding.similarity (values self) [vec] mask in
  match sims with
  | row :: _ => Ok row
  | [] => Raise IndexError
  end.
End Defs.
Arguments t : clear implicits.
End TorchVectorIndex.

(** ** src/index.py: the earlier [TorchVectorIndex] *)

Module LegacyIndex.
Section Defs.
Context {L T : Type} `{EqDecision L} `{Numeric T}.

Record t : Type := Make {
  max_size : Z;
  dims : Z;
  labels : list L;
  values : list (list T);
  groups : list Z
}.

Definition set_alloc (n : Z) (s : t) : t :=
  {| max_size := n; dims := dims s; labels := labels s;
     values := t_resize (replicate (Z.to_nat (dims s)) szero) (values s) n;
     groups := t_resize 0 (groups s) n |}.
Definition set_labels (l : list L) (s : t) : t :=
  {| max_size := max_size s; dims := dims s; labels := l;
     values := values s; groups := groups s |}.
Definition set_values (v : list (list T)) (s : t) : t :=
  {| max_size := max_size s; dims := dims s; labels := labels s;
     values := v; groups := groups s |}.
Definition set_groups (g : list Z) (s : t) : t :=
  {| max_size := max_size s; dims := dims s; labels := labels s;
     values := values s; groups := g |}.

(** [TorchVectorIndex(dims, max_size)] without [load]; the constructor
    starts with [assert(log2(max_size) % 1 == 0)]. *)
Definition init (dims max_size : Z) : outcome t :=
  if max_size <=? 0 then Raise ValueError
  else if negb (2 ^ Z.log2 max_size =? max_size) then Raise AssertionError
  else Ok {| max_size := max_size; dims := dims; labels := [];
             values := replicate (Z.to_nat max_size) (replicate (Z.to_nat dims) szero);
             groups := replicate (Z.to_nat max_size) 0 |}.

Definition size (self : t) : Z := zlen (labels self).

Definition expand (min_size : Z) : M t unit :=
  size <- lift (next_power_of_2 min_size) ;;
  cap <- gets max_size ;;
  when (cap <? size) (modify (set_alloc size)).

Definition compress (min_size : Z) : M t unit :=
  n <- gets size ;;
  size0 <- lift (next_power_of_2 n) ;;
  let size := Z.max min_size size0 in
  cap <- gets max_size ;;
  when (size <? cap) (modify (set_alloc size)).

(** The [groups] argument of [add]: an integer or a tensor. *)
Inductive garg : Type :=
  | GInt (g : Z)
  | GTensor (l : list Z).

Definition located (labs : list L) (sub : list L) : list (Z * L) :=
  filter (fun ix => ix.2 ∈ sub) (enumerate labs).

(** [list.index] *)
Definition index (l : list L) (x : L) : outcome Z :=
  match list_find (fun y => y = x) l with
  | Some (i, _) => Ok (Z.of_nat i)
  | None => Raise ValueError
  end.

Definition add (labs : list L) (vecs : tensor2 T) (groups_ : garg) (strict : bool)
    : M t unit :=
  (* validate input size *)
  let nlabs := zlen labs in
  let nv := zlen (rows vecs) in
  let dv := cols vecs in
  d0 <- gets dims ;;
  assert_ (nv =? nlabs) ;;
  assert_ (dv =? d0) ;;
  (* get breakdown of new vs old *)
  let slabs := py_set labs in
  exist <- gets (fun s => list_intersection slabs (labels s)) ;;
  let novel := list_difference slabs exist in
  (* raise if trying invalid strict add *)
  if strict && (0 <? zlen exist) then raise StrictAddError
  else
    (* expand groups if needed *)
    let grps := match groups_ with
                | GInt g => replicate (Z.to_nat nlabs) g
                | GTensor l => l
                end in
    when (0 <? zlen exist)
      ((* update existing *)
       pairs <- read (fun s => omapM (fun ix : Z * L =>
                              let! j := index (labels s) ix.2 in
                              Ok (ix.1, j)) (located labs exist)) ;;
       let elocs := pairs.*1 in
       let idxs := pairs.*2 in
       src <- lift (t_gather (rows vecs) elocs) ;;
       v <- read (fun s => t_scatter (values s) idxs src) ;;
       modify (set_values v) ;;
       gsrc <- lift (t_gather grps elocs) ;;
       g <- read (fun s => t_scatter (groups s) idxs gsrc) ;;
       modify (set_groups g)) ;;
    when (0 <? zlen novel)
      ((* get new labels in input order *)
       let xs := located labs novel in
       let xlocs := xs.*1 in
       let xlabs := xs.*2 in
       (* expand size if needed *)
       nlabels0 <- gets size ;;
       let nlabels1 := nlabels0 + zlen novel in
       expand nlabels1 ;;
       (* add in new labels and vectors *)
       modify (fun s => set_labels (labels s ++ xlabs) s) ;;
       src <- lift (t_gather (rows vecs) xlocs) ;;
       v <- read (fun s => t_set_slice (values s) nlabels0 nlabels1 src) ;;
       modify (set_values v) ;;
       gsrc <- lift (t_gather grps xlocs) ;;
       g <- read (fun s => t_set_slice (groups s) nlabels0 nlabels1 gsrc) ;;
       modify (set_groups g)).

(** [remove(labs)]: [self.size()] is read after the pop; the last
    statement indexes the 1-D tensor [groups] with two subscripts,
    which raises IndexError. *)
Definition remove (labs : list L) : M t unit :=
  targets <- gets (fun s => list_intersection (py_set labs) (labels s)) ;;
  for_each targets (fun lab =>
    idx <- read (fun s => index (labels s) lab) ;;
    modify (fun s => set_labels (delete (Z.to_nat idx) (labels s)) s) ;;
    n <- gets size ;;
    row <- read (fun s => t_get (values s) n) ;;
    v <- read (fun s => t_set (values s) idx row) ;;
    modify (set_values v) ;;
    raise IndexError).

Definition clear : M t unit := modify (set_labels []).

(** The indexes obtained from the constructor by calls of [add] that
    return normally. *)
Inductive built : t -> Prop :=
  | built_init d m s : init d m = Ok s -> built s
  | built_add s labs vecs g strict s' :
      built s -> add labs vecs g strict s = (Ok (), s') -> built s'.

(** The capacity is a power of two, holds every label, and is the
    number of rows allocated. *)
Definition cap_inv (s : t) : Prop :=
  is_pow2 (max_size s) /\ size s <= max_size s /\ zlen (values s) = max_size s.

(** The capacity did not go down. *)
Definition cap_le (s s' : t) : Prop := max_size s <= max_size s'.
End Defs.
Arguments t : clear implicits.
End LegacyIndex.

(** ** src/agent.py: [HistoryDatabase] *)

(** Elementwise product of two 1-D tensors; a tensor with one entry is
    broadcast against the other. *)
Definition t_mul `{Numeric T} (a b : list T) : outcome (list T) :=
  if zlen a =? zlen b then Ok (zip_with smul a b)
  else match a, b with
       | [x], _ => Ok (map (smul x) b)
       | _, [y] => Ok (map (fun x => smul x y) a)
       | _, _ => Raise RuntimeError
       end.

Module HistoryDatabase.
Section Defs.
Context {T : Type} `{Numeric T} {Meta : Type}.

(** The embedder is an external collaborator: [embed.dims] and
    [embed.embed(text)] squeezed to a 1-D vector. *)
Variable embed_dims : Z.
Variable embed : string -> list T.

Definition entry : Type := option Meta * string.

Definition index : Type := TorchVectorIndex.t Z (option string) T.

Record t : Type := Make {
  max : Z;
  txt : FiniteList.t entry;   (* (meta, text) *)
  age : list Z;               (* a float32 tensor holding integers *)
  idx : index
}.

Definition set_txt (x : FiniteList.t entry) (s : t) : t :=
  {| max := max s; txt := x; age := age s; idx := idx s |}.
Definition set_age (a : list Z) (s : t) : t :=
  {| max := max s; txt := txt s; age := a; idx := idx s |}.
Definition set_idx (i : index) (s : t) : t :=
  {| max := max s; txt := txt s; age := age s; idx := i |}.

(** [HistoryDatabase(embed, maxlen)]; the ages start at the value -1,
    which marks a slot that was never written. *)
Definition init (maxlen : Z) : t :=
  {| max := maxlen;
     txt := FiniteList.init maxlen;
     age := replicate (Z.to_nat maxlen) (-1);
     idx := TorchVectorIndex.init embed_dims maxlen |}.

Definition len (self : t) : Z := FiniteList.len (txt self).

Definition append (text : string) (meta : option Meta) : M t unit :=
  (* compute embedding *)
  let emb := embed text in
  (* update all data *)
  a <- read (fun s => t_set (age s) (FiniteList.pos (txt s)) 0) ;;
  modify (set_age a) ;;
  p <- gets (fun s => FiniteList.pos (txt s)) ;;
  zoom idx set_idx (TorchVectorIndex.add1 p emb (One None) false) ;;
  zoom txt set_txt (FiniteList.append (meta, text)).

(** [self.age += (self.age >= 0)]: the ages are a float32 tensor, the
    sum is rounded to float32. *)
Definition step : M t unit :=
  modify (fun s =>
    set_age (map (fun a => f32_of_Z (a + (if 0 <=? a then 1 else 0))) (age s)) s).

(** The tensor [sim] of [search]: the age-weighted similarities. *)
Definition decayed (self : t) (query : string) (disco : Z -> T) : outcome (list T) :=
  let emb := embed query in
  let age := filter (fun a => 0 <= a) (age self) in
  let! sim0 := TorchVectorIndex.simil (idx self) emb in
  t_mul (map disco age) sim0.

(** [search(query, k, disc, cutoff)] with [disc] a function of the age. *)
Definition search (self : t) (query : string) (k : Z) (disco : Z -> T) (cutoff : T)
    : outcome (list entry) :=
  (* if we're empty *)
  let size := len self in
  if size =? 0 then Ok []
  else
    (* age weight similarities *)
    let! sim := decayed self query disco in
    (* return top-k matches *)
    let! tops := topk sim (Z.min k size) in
    let idxs := (filter (fun m : nat * T => sgtb m.2 cutoff = true) tops).*1 in
    (* return meta and text *)
    FiniteList.getitem_list (txt self) (map Z.of_nat idxs).

(** The age of a slot that was never written. *)
Definition unset : Z := -1.

(** The calls a client can make.  [search] assigns to no attribute of
    [self]: it leaves the object as it is. *)
Inductive op : Type :=
  | OpAppend (text : string) (meta : option Meta)
  | OpStep
  | OpSearch (query : string) (k : Z) (disco : Z -> T) (cutoff : T).

Definition exec (o : op) (s : t) : t :=
  match o with
  | OpAppend text meta => (append text meta s).2
  | OpStep => (step s).2
  | OpSearch _ _ _ _ => s
  end.

Definition run (ops : list op) (s : t) : t := foldl (fun s o => exec o s) s ops.

(** The objects a client can hold: built by the constructor and then
    driven by any calls, whether they return or raise. *)
Definition reachable (s : t) : Prop :=
  exists maxlen ops, s = run ops (init maxlen).

(** The ring positions [0 .. n-1], which serve as labels. *)
Definition positions (n : nat) : list Z := map Z.of_nat (seq 0 n).

(** An index whose labels are the first [n] ring positions, in order. *)
Definition wf_index (n : nat) (self : index) : Prop :=
  OrderedSet.items (TorchVectorIndex.labels self) = positions n
  /\ OrderedSet._set (TorchVectorIndex.labels self) = positions n
  /\ QuantizedEmbedding.dims (TorchVectorIndex.values self) = embed_dims
  /\ Z.of_nat n <= zlen (QuantizedEmbedding.raw (TorchVectorIndex.values self))
  /\ zlen (TorchVectorIndex.groups self)
     = zlen (QuantizedEmbedding.raw (TorchVectorIndex.values self))
  /\ (TorchVectorIndex.grpids self = [] \/ TorchVectorIndex.grpids self = [(None, 0)]).

(** The embedder returns vectors of the dimension it announces. *)
Definition embed_ok : Prop := forall text, zlen (embed text) = embed_dims.

(** The history with [n] entries: buffer, ages and index agree. *)
Definition wf (s : t) : Prop :=
  let n := length (FiniteList.data (txt s)) in
  0 < max s
  /\ FiniteList.max (txt s) = max s
  /\ Z.of_nat n <= max s
  /\ 0 <= FiniteList.pos (txt s) < max s
  /\ (Z.of_nat n < max s -> FiniteList.pos (txt s) = Z.of_nat n)
  /\ zlen (age s) = max s
  /\ (forall i a, age s !! i = Some a ->
        if decide (i < n)%nat then 0 <= a else a = unset)
  /\ wf_index n (idx s)
  /\ (forall i e, FiniteList.data (txt s) !! i = Some e ->
        QuantizedEmbedding.raw (TorchVectorIndex.values (idx s)) !! i = Some (embed e.2)).

(** The cursor of the ring buffer is never negative. *)
Definition cursor_ok (f : FiniteList.t entry) : Prop :=
  (0 < FiniteList.max f /\ 0 <= FiniteList.pos f)
  \/ (FiniteList.max f <= 0 /\ FiniteList.pos f = 0 /\ FiniteList.data f = []).

(** Every age lies between the unset value and [2^24], where float32
    stops counting. *)
Definition ages_ok (s : t) : Prop :=
  Forall (fun a => unset <= a <= 2 ^ 24) (age s) /\ cursor_ok (txt s).
End Defs.
Arguments t : clear implicits.
End HistoryDatabase.

(** [disco = lambda a: torch.exp(-disc*a)], chosen when [disc] is a
    float.  [a] is an entry of the float32 tensor of ages; the Python
    float [-disc] is rounded to float32 when it meets the tensor, the
    product is a float32, and [texp] stands for [torch.exp]. *)
Definition exp_disco (texp : R -> R) (disc : R) (a : Z) : R :=
  texp (f32 (f32 (- disc) * IZR a)).

(** The [disc] argument of [HistoryDatabase.search]: a float rate or a
    function of the age. *)
Inductive disc_arg : Type :=
  | DiscFloat (disc : R)
  | DiscFun (f : Z -> R).

Definition disco_of (texp : R -> R) (d : disc_arg) : Z -> R :=
  match d with
  | DiscFloat disc => exp_disco texp disc
  | DiscFun f => f
  end.

(** ** src/ziggy/utils.py: batching and cumulative sums *)

(** [itertools.accumulate] over integers: the running sums. *)
Fixpoint accumulate_from (total : Z) (l : list Z) : list Z :=
  match l with
  | [] => []
  | x :: l' => (total + x) :: accumulate_from (total + x) l'
  end.

Definition accumulate (l : list Z) : list Z :=
  match l with
  | [] => []
  | x :: l' => x :: accumulate_from x l'
  end.

(** [list(chain([0], accumulate(lengths)))] *)
Definition cumsum (lengths : list Z) : list Z := 0 :: accumulate lengths.

(** The pairs a [cumul_bounds] generator yields, in order. *)
Fixpoint cumul_bounds_from (total : Z) (seq : list Z) : list (Z * Z) :=
  match seq with
  | [] => []
  | item :: rest => (total, total + item) :: cumul_bounds_from (total + item) rest
  end.

Definition cumul_bounds (seq : list Z) : list (Z * Z) := cumul_bounds_from 0 seq.

(** [[(i, j) for i, j in zip(sums[:-1], sums[1:])]] *)
Definition cumul_indices (lengths : list Z) : list (Z * Z) :=
  let sums := cumsum lengths in
  zip (py_slice sums None (Some (-1)) 1) (py_slice sums (Some 1) None 1).

(** [[(i, min(i+batch_size, length)) for i in range(0, length, batch_size)]] *)
Definition batch_indices (length batch_size : Z) : outcome (list (Z * Z)) :=
  let! starts := py_range 0 length batch_size in
  Ok (map (fun i => (i, Z.min (i + batch_size) length)) starts).

(** The pieces a [string_splitter] generator yields; the text is a
    sequence of characters. *)
Definition string_splitter {A} (text : list A) (maxlen : Z) : outcome (list (list A)) :=
  let! bounds := batch_indices (zlen text) maxlen in
  Ok (map (fun ij : Z * Z => py_slice text (Some ij.1) (Some ij.2) 1) bounds).

(** [list(islice(gen, n))] on an iterator whose remaining items are
    [gen]: the items taken and the items left; a negative [n] raises
    ValueError. *)
Definition islice {A} (gen : list A) (n : Z) : outcome (list A * list A) :=
  if n <? 0 then Raise ValueError
  else Ok (take (Z.to_nat n) gen, drop (Z.to_nat n) gen).

(** The batches a [batch_generator] yields from an iterator holding the
    items [gen].  The loop runs at most once per item and once more to
    see the empty batch; [fuel] bounds the number of rounds. *)
Fixpoint batch_loop {A} (fuel : nat) (gen : list A) (batch_size : Z)
    : outcome (list (list A)) :=
  match fuel with
  | O => Ok []
  | S fuel' =>
      let! taken := islice gen batch_size in
      match taken.1 with
      | [] => Ok []
      | _ :: _ =>
          let! more := batch_loop fuel' taken.2 batch_size in
          Ok (taken.1 :: more)
      end
  end.

Definition batch_generator {A} (gen : list A) (batch_size : Z) : outcome (list (list A)) :=
  batch_loop (S (length gen)) gen batch_size.

(** ** src/ziggy/utils.py: [groupby_dict] and [Bundle] *)

Section Sorted.
Context {A K : Type} (ltb : K -> K -> bool) (key : A -> K).

(** [sorted(l, key=key)]: a stable sort that compares keys with [<].
    An item goes behind the items whose key is smaller and in front of
    all others, so that items of equal key keep their order. *)
Fixpoint insert_by (x : A) (l : list A) : list A :=
  match l with
  | [] => [x]
  | y :: l' => if ltb (key y) (key x) then y :: insert_by x l' else x :: y :: l'
  end.

Definition py_sorted (l : list A) : list A := foldr insert_by [] l.
End Sorted.

Section GroupBy.
Context {A K : Type} `{EqDecision K} (key : A -> K).

(** [itertools.groupby(l, key=key)]: runs of consecutive items of equal
    key, each with its key. *)
Fixpoint groupby (l : list A) : list (K * list A) :=
  match l with
  | [] => []
  | x :: l' =>
      match groupby l' with
      | (k, g) :: rest =>
          if decide (key x = k) then (k, x :: g) :: rest
          else (key x, [x]) :: (k, g) :: rest
      | [] => [(key x, [x])]
      end
  end.
End GroupBy.

(** A [dict] in insertion order; assigning to a key that is present
    replaces its value in place. *)
Module PyDict.
Section Defs.
Context {K V : Type} `{EqDecision K}.

Definition t : Type := list (K * V).

Definition getitem (self : t) (k : K) : outcome V :=
  match list_find (fun kv => kv.1 = k) self with
  | Some (_, (_, v)) => Ok v
  | None => Raise KeyError
  end.

Definition setitem (self : t) (k : K) (v : V) : t :=
  match list_find (fun kv => kv.1 = k) self with
  | Some (i, _) => <[i := (k, v)]> self
  | None => self ++ [(k, v)]
  end.

(** [self.update(kvs)], also the dict built by a comprehension. *)
Definition update (self : t) (kvs : list (K * V)) : t :=
  foldl (fun d kv => setitem d kv.1 kv.2) self kvs.

Definition of_pairs (kvs : list (K * V)) : t := update [] kvs.
End Defs.
Arguments t : clear implicits.
End PyDict.

(** [groupby_dict(vals, grps)]; the keys are compared with [ltb] when
    the pairs are sorted. *)
Definition groupby_dict {A K} `{EqDecision K} (ltb : K -> K -> bool)
    (vals : list A) (grps : list K) : PyDict.t K (list A) :=
  let tups := py_sorted ltb snd (zip vals grps) in
  PyDict.of_pairs (map (fun kv : K * list (A * K) => (kv.1, kv.2.*1)) (groupby snd tups)).

Module Bundle.
Section Defs.
Context {V : Type}.

(** A [dict] with string keys. *)
Definition t : Type := PyDict.t string V.

(** The constructor: the positional dicts are merged in order, the
    keyword arguments last. *)
Definition init (args : list (PyDict.t string V)) (kwargs : PyDict.t string V) : t :=
  foldl PyDict.update [] (args ++ [kwargs]).

(** [sorted(super().keys())] *)
Definition keys (self : t) : list string := py_sorted String.ltb (fun k => k) (self.*1).

(** [sorted(super().items(), key=itemgetter(0))] *)
Definition items (self : t) : list (string * V) := py_sorted String.ltb fst self.

(** [[k for k, _ in self.items()]] *)
Definition values (self : t) : list string := map (fun kv : string * V => kv.1) (items self).

(** [self.key] *)
Definition getattr (self : t) (key : string) : outcome V := PyDict.getitem self key.

(** [self.key = value] *)
Definition setattr (self : t) (key : string) (value : V) : t := PyDict.setitem self key value.
End Defs.
Arguments t : clear implicits.
End Bundle.

(** ** src/agent.py: [Conversation]

    The replies come from a language model, which is outside the model.
    What is embedded is what a turn does with the shared history: the
    window of preceding entries, the query built from it, the search
    with the discount of the turn, and the entry recorded at the end of
    a turn.  [round] steps the histories of the agents and never the
    shared one, so the shared history only sees [append] and [search]. *)
Module Conversation.
Section Defs.
Variable embed_dims : Z.
Variable embed : string -> list R.

Definition entry : Type := option string * string.

Definition history : Type := HistoryDatabase.t R string.

(** [HistoryDatabase(embed)]: the capacity is the default, 2048. *)
Definition init_history : history := HistoryDatabase.init embed_dims 2048.

(** [lambda a: torch.where(a > 0, torch.exp(-0.2*(a-1)), 0.0)] *)
Definition disc (a : Z) : R :=
  if 0 <? a then exp (- (2 / 10) * (IZR a - 1)) else 0%R.

(** [max(0, self.pop - 1)] *)
Definition window (pop : Z) : Z := Z.max 0 (pop - 1).

(** [self.history[:window]] *)
Definition previous (pop : Z) (h : history) : outcome (list entry) :=
  FiniteList.getitem_slice (HistoryDatabase.txt h) (Slice None (Some (window pop)) None).

(** One line of the query: the agent, a colon and the text. *)
Definition render (e : entry) : string :=
  (match e.1 with Some a => a | None => "None" end) ++ ": " ++ e.2.

Definition newline : string := String (Ascii.ascii_of_nat 10) EmptyString.

Definition query (prev : list entry) : string := String.concat newline (map render prev).

(** [self.history.search(query, disc=disc, **kwargs)], with the [k] and
    the [cutoff] the keyword arguments give. *)
Definition matches (pop : Z) (h : history) (k : Z) (cutoff : R) : outcome (list entry) :=
  let! prev := previous pop h in
  HistoryDatabase.search embed h (query prev) k disc cutoff.

(** What a turn builds its pretext from: nothing on an empty history
    (the pretext is then the opening line), else [matches + previous]. *)
Definition context (pop : Z) (h : history) (k : Z) (cutoff : R)
    : outcome (option (list entry)) :=
  if HistoryDatabase.len h =? 0 then Ok None
  else
    let! prev := previous pop h in
    let! found := matches pop h k cutoff in
    Ok (Some (found ++ prev)).

(** The shared history after turns that were completed by the agents
    [turns.*1] with the replies [turns.*2]: a turn ends with
    [self.history.append(resp, meta=agent)]. *)
Definition history_after (turns : list (string * string)) : history :=
  HistoryDatabase.run embed
    (map (fun ar : string * string => HistoryDatabase.OpAppend ar.2 (Some ar.1)) turns)
    init_history.
End Defs.
End Conversation.

(** ** src/index.py: [save] *)

(** What [save()] returns when no path is given: the labels and the
    occupied rows of the two tensors. *)
Record saved (L T : Type) : Type := Saved {
  saved_labels : list L;
  saved_values : list (list T);
  saved_groups : list Z
}.
Arguments Saved {L T} _ _ _.
Arguments saved_labels {L T} _.
Arguments saved_values {L T} _.
Arguments saved_groups {L T} _.

Definition legacy_save {L T} (self : LegacyIndex.t L T) : saved L T :=
  let size := LegacyIndex.size self in
  {| saved_labels := LegacyIndex.labels self;
     saved_values := py_slice (LegacyIndex.values self) None (Some size) 1;
     saved_groups := py_slice (LegacyIndex.groups self) None (Some size) 1 |}.

(** The capacity invariant of the earlier index with the group tensor
    included: both tensors have [max_size] rows. *)
Definition alloc_inv {L T} (s : LegacyIndex.t L T) : Prop :=
  LegacyIndex.size s <= LegacyIndex.max_size s
  /\ zlen (LegacyIndex.values s) = LegacyIndex.max_size s
  /\ zlen (LegacyIndex.groups s) = LegacyIndex.max_size s.

(** The earlier index after [expand(n1)] for a positive [n1]. *)
Definition legacy_grown {L T} `{Numeric T} (n1 : Z) (s : LegacyIndex.t L T)
    : LegacyIndex.t L T :=
  if LegacyIndex.max_size s <? 2 ^ Z.log2_up n1
  then LegacyIndex.set_alloc (2 ^ Z.log2_up n1) s else s.

(** * Scenarios *)

(** Capacity 4; A, B, C, D, E appended in this order. *)
Definition ring5 : FiniteList.t string :=
  (FiniteList.appends (FiniteList.init 4) ["A"; "B"; "C"; "D"; "E"]%string).2.

(** A current index of dimension 2 and capacity 4 holding x, y, z. *)
Definition idx_xyz : TorchVectorIndex.t string (option string) Z :=
  (TorchVectorIndex.add ["x"; "y"; "z"]%string (Tensor2 2 [[1; 0]; [0; 1]; [1; 1]])
     (One None) false (TorchVectorIndex.init 2 4)).2.

(** The index of the spec's scenario: x = [1,0], y = [0,1]. *)
Definition idx_xy : TorchVectorIndex.t string (option string) Z :=
  (TorchVectorIndex.add ["x"; "y"]%string (Tensor2 2 [[1; 0]; [0; 1]])
     (One None) false (TorchVectorIndex.init 2 4)).2.

(** An earlier-version index of capacity 16 holding three labels. *)
Definition legacy3 : LegacyIndex.t string Z :=
  match LegacyIndex.init 2 16 with
  | Ok s => (LegacyIndex.add ["x"; "y"; "z"]%string (Tensor2 2 [[1; 0]; [0; 1]; [1; 1]])
               (LegacyIndex.GInt (-1)) false s).2
  | Raise _ => LegacyIndex.Make 0 0 [] [] []
  end.

(** An earlier-version index of capacity 16 without labels. *)
Definition legacy0 : LegacyIndex.t string Z :=
  match LegacyIndex.init 2 16 with
  | Ok s => s
  | Raise _ => LegacyIndex.Make 0 0 [] [] []
  end.

(** A current index filled to its capacity of 2. *)
Definition idx_full : TorchVectorIndex.t string (option string) Z :=
  (TorchVectorIndex.add ["x"; "y"]%string (Tensor2 2 [[1; 0]; [0; 1]])
     (One None) false (TorchVectorIndex.init 2 2)).2.

(** A current index constructed with size 3, after one add. *)
Definition idx_three : TorchVectorIndex.t string (option string) Z :=
  (TorchVectorIndex.add ["x"]%string (Tensor2 2 [[1; 0]])
     (One None) false (TorchVectorIndex.init 2 3)).2.

(** A current index of capacity 1 after [add(['a', 'a'], ...)], which
    raises when the two rows are assigned to the one slot. *)
Definition idx_over : TorchVectorIndex.t string (option string) Z :=
  (TorchVectorIndex.add ["a"; "a"]%string (Tensor2 2 [[1; 0]; [0; 1]])
     (One None) false (TorchVectorIndex.init 2 1)).2.

(** An earlier-version index of capacity 1 after the same call. *)
Definition legacy_over : LegacyIndex.t string Z :=
  match LegacyIndex.init 2 1 with
  | Ok s => (LegacyIndex.add ["a"; "a"]%string (Tensor2 2 [[1; 0]; [0; 1]])
               (LegacyIndex.GInt (-1)) false s).2
  | Raise _ => LegacyIndex.Make 0 0 [] [] []
  end.

(** Two labels with the same vector. *)
Definition idx_tie : TorchVectorIndex.t string (option string) Z :=
  (TorchVectorIndex.add ["a"; "b"]%string (Tensor2 2 [[1; 0]; [1; 0]])
     (One None) false (TorchVectorIndex.init 2 4)).2.

(** An index with group tags: x and v in group g, w in group h, y and z
    in the default group. *)
Definition idx_groups : TorchVectorIndex.t string (option string) Z :=
  (TorchVectorIndex.add ["x"; "w"; "v"]%string (Tensor2 2 [[5; 5]; [6; 6]; [7; 7]])
     (Many [Some "g"; Some "h"; Some "g"]%string) false idx_xyz).2.

(** An embedder for the scenarios: "a" is [1,0], "b" is [0,1], any
    other text is [1,1]. *)
Definition embed_ab (s : string) : list Z :=
  if decide (s = "a"%string) then [1; 0]
  else if decide (s = "b"%string) then [0; 1]
  else [1; 1].

(** A history of capacity 4 after [append("a")] and [append("b")]. *)
Definition hist_ab : HistoryDatabase.t Z string :=
  HistoryDatabase.run embed_ab
    [HistoryDatabase.OpAppend "a"%string None; HistoryDatabase.OpAppend "b"%string None]
    (HistoryDatabase.init 2 4).

(** An embedder under which "hello" and any other text point in
    opposite directions. *)
Definition embed_sign (s : string) : list R :=
  if decide (s = "hello"%string) then [1%R] else [(-1)%R].

(** Embedders of dimension 2 over the reals: every text is the zero
    vector; every text is [1,0]; "hello" is [1,0] and any other text
    points the opposite way. *)
Definition embed_null (s : string) : list R := [0; 0]%R.

Definition embed_east (s : string) : list R := [1; 0]%R.

Definition embed_turn (s : string) : list R :=
  if decide (s = "hello"%string) then [1; 0]%R else [-1; 0]%R.

(** An empty history of capacity 4 and dimension 2 in float32. *)
Definition hist_R2 : HistoryDatabase.t R string :=
  HistoryDatabase.init (H := F32_numeric) 2 4.

(** Five calls of [step]. *)
Definition five_steps : list (HistoryDatabase.op (T := R) (Meta := string)) :=
  replicate 5 HistoryDatabase.OpStep.

(** * Properties *)

(** ** float32: integers and rounding *)

Lemma f32_of_Z_exact x : Z.abs x <= 2 ^ 24 -> f32_of_Z x = x.
Proof.
  intros Hx. unfold f32_of_Z.
  destruct (decide (Z.abs x = 2 ^ 24)) as [He|Hne].
  - assert (Hc : x = 2 ^ 24 \/ x = - 2 ^ 24) by lia.
    destruct Hc as [-> | ->]; reflexivity.
  - assert (Hl : Z.log2 (Z.abs x) < 24).
    { destruct (decide (Z.abs x = 0)) as [->|H0]; [reflexivity|].
      apply Z.log2_lt_pow2; lia. }
    destruct (Z.log2 (Z.abs x) - 23 <=? 0) eqn:E; [done|].
    apply Z.leb_gt in E. lia.
Qed.

Lemma f32_of_Z_limit : f32_of_Z (2 ^ 24 + 1) = 2 ^ 24.
Proof. reflexivity. Qed.

Lemma f32_repr_opp z : f32_repr z -> f32_repr (- z).
Proof.
  intros (m & j & Hm & Hj & ->). exists (- m), j. split_and!; [lia|done|lia].
Qed.

Lemma f32_repr_mantissa n e :
  0 <= e -> 0 <= n <= 2 ^ 24 -> f32_repr (n * 2 ^ e).
Proof.
  intros He Hn. destruct (decide (n = 2 ^ 24)) as [->|Hne].
  - exists (2 ^ 23), (e + 1). split_and!; [reflexivity|lia|].
    rewrite Z.pow_add_r by lia. change (2 ^ 24) with (2 ^ 23 * 2 ^ 1). lia.
  - exists n, e. split_and!; [lia|done|done].
Qed.

(** Between two neighbouring multiples of the spacing there is no
    float32 value. *)
Lemma f32_repr_gap n e z :
  0 <= e -> (e = 0 \/ 2 ^ 23 <= n) ->
  f32_repr z -> n * 2 ^ e < z < (n + 1) * 2 ^ e -> False.
Proof.
  intros He Hn (m & j & Hm & Hj & ->) [Hlo Hhi].
  destruct Hn as [-> | Hn]; [change (2 ^ 0) with 1 in *; lia|].
  assert (Hq : 0 < 2 ^ e) by (apply Z.pow_pos_nonneg; lia).
  assert (Hqj : 0 < 2 ^ j) by (apply Z.pow_pos_nonneg; lia).
  assert (Hmpos : 0 < m) by nia.
  destruct (decide (e <= j)) as [Hle|Hgt].
  - replace j with ((j - e) + e) in Hlo, Hhi by lia.
    rewrite Z.pow_add_r in Hlo, Hhi by lia.
    assert (Hp : 0 < 2 ^ (j - e)) by (apply Z.pow_pos_nonneg; lia).
    assert (n < m * 2 ^ (j - e)) by nia.
    assert (m * 2 ^ (j - e) < n + 1) by nia.
    lia.
  - assert (Hje : 2 ^ e = 2 ^ (e - j) * 2 ^ j) by (rewrite <- Z.pow_add_r by lia; f_equal; lia).
    assert (Hp : 2 <= 2 ^ (e - j)).
    { change 2 with (2 ^ 1) at 1. apply Z.pow_le_mono_r; lia. }
    rewrite Hje in Hlo. nia.
Qed.

Lemma Int_part_bounds X : (IZR (Int_part X) <= X < IZR (Int_part X) + 1)%R.
Proof. destruct (base_Int_part X). lra. Qed.

Lemma Int_part_nonneg X : (0 <= X)%R -> 0 <= Int_part X.
Proof.
  intros HX. pose proof (Int_part_bounds X) as [_ Hu].
  assert (H1 : (IZR (-1) < IZR (Int_part X))%R) by (simpl; lra).
  apply lt_IZR in H1. lia.
Qed.

(** What the rounding of units does: it picks the nearer of the two
    neighbouring multiples of the spacing. *)
Lemma f32_units_cases X :
  (0 <= X)%R ->
  exists lo hi : Z,
    0 <= lo /\ (IZR lo <= X < IZR hi)%R
    /\ f32_repr lo /\ f32_repr hi
    /\ (forall z, f32_repr z -> lo < z < hi -> False)
    /\ ((f32_units X = lo /\ (X - IZR lo <= IZR hi - X)%R)
        \/ (f32_units X = hi /\ (IZR hi - X <= X - IZR lo)%R)).
Proof.
  intros HX. unfold f32_units.
  set (k := Int_part X).
  pose proof (Int_part_bounds X) as [Hkl Hku]. fold k in Hkl, Hku.
  assert (Hk : 0 <= k) by (by apply Int_part_nonneg).
  set (e := Z.max 0 (Z.log2 k - 23)).
  assert (He : 0 <= e) by lia.
  set (q := 2 ^ e).
  assert (Hq : 0 < q) by (apply Z.pow_pos_nonneg; lia).
  set (n := k / q). set (km := k mod q).
  assert (Hdm : k = q * n + km) by (apply Z.div_mod; lia).
  assert (Hkm : 0 <= km < q) by (apply Z.mod_pos_bound; lia).
  assert (Hn : 0 <= n) by (apply Z.div_pos; lia).
  assert (Hn24 : n < 2 ^ 24).
  { apply Z.div_lt_upper_bound; [done|].
    destruct (decide (k = 0)) as [->|Hk0]; [nia|].
    pose proof (Z.log2_spec k ltac:(lia)) as [_ Hlog].
    unfold q. rewrite <- Z.pow_add_r by lia.
    eapply Z.lt_le_trans; [exact Hlog|]. apply Z.pow_le_mono_r; lia. }
  assert (Hgap : e = 0 \/ 2 ^ 23 <= n).
  { destruct (decide (e = 0)) as [|Hne]; [by left|right].
    assert (Hee : e = Z.log2 k - 23) by lia.
    assert (Hk0 : 0 < k).
    { destruct (decide (k = 0)) as [Hz|]; [|lia]. rewrite Hz in Hee. simpl in Hee. lia. }
    pose proof (Z.log2_spec k Hk0) as [Hlog _].
    apply Z.div_le_lower_bound; [done|].
    unfold q. rewrite <- Z.pow_add_r by lia.
    replace (e + 23) with (Z.log2 k) by lia. done. }
  exists (n * q), ((n + 1) * q).
  assert (Hlo : IZR (n * q) = (IZR k - IZR km)%R).
  { rewrite <- minus_IZR. f_equal. lia. }
  assert (Hhi : IZR ((n + 1) * q) = (IZR k - IZR km + IZR q)%R).
  { rewrite <- minus_IZR, <- plus_IZR. f_equal. lia. }
  assert (Hkmr : (0 <= IZR km <= IZR q - 1)%R).
  { split; [apply IZR_le; lia|]. rewrite <- minus_IZR. apply IZR_le. lia. }
  split; [nia|]. split; [rewrite Hlo, Hhi; lra|].
  split; [apply f32_repr_mantissa; lia|].
  split; [apply f32_repr_mantissa; lia|].
  split; [intros z Hz Hzb; by eapply (f32_repr_gap n e z)|].
  rewrite Hlo, Hhi.
  destruct (Rlt_dec _ _) as [Hlt|Hge]; [left; split; [done|lra]|].
  destruct (Rlt_dec _ _) as [Hlt2|Hge2]; [right; split; [done|lra]|].
  destruct (Z.even n); [left|right]; (split; [done|lra]).
Qed.

Lemma f32_unit_pos : (0 < f32_unit)%R.
Proof. unfold f32_unit. apply Rinv_0_lt_compat. apply pow_lt. lra. Qed.

Lemma f32_unit_scale x : x = (x * 2 ^ 149 * f32_unit)%R.
Proof.
  unfold f32_unit. field; try (apply pow_nonzero; lra).
Qed.

Lemma is_f32_opp x : is_f32 x -> is_f32 (- x).
Proof.
  intros (z & Hz & ->). exists (- z). split; [by apply f32_repr_opp|].
  rewrite opp_IZR. lra.
Qed.

(** The rounded value is a float32 and no float32 is nearer. *)
Lemma f32_spec x :
  is_f32 (f32 x) /\ forall y, is_f32 y -> (Rabs (x - f32 x) <= Rabs (x - y))%R.
Proof.
  pose proof f32_unit_pos as Hu.
  assert (Hgen : forall X : R, (0 <= X)%R ->
            f32_repr (f32_units X)
            /\ forall z, f32_repr z ->
                 (Rabs (X - IZR (f32_units X)) <= Rabs (X - IZR z))%R).
  { intros X HX.
    destruct (f32_units_cases X HX)
      as (lo & hi & Hlo0 & [Hl Hh] & Hrl & Hrh & Hgap & Hpick).
    split; [by destruct Hpick as [[-> _]|[-> _]]|].
    intros z Hz.
    assert (Hzc : z <= lo \/ hi <= z).
    { destruct (decide (z <= lo)); [by left|right].
      destruct (decide (hi <= z)); [done|]. exfalso. apply (Hgap z Hz). lia. }
    assert (Hzr : (IZR z <= IZR lo \/ IZR hi <= IZR z)%R)
      by (destruct Hzc; [left|right]; by apply IZR_le).
    destruct Hpick as [[-> Hn]|[-> Hn]];
      unfold Rabs; repeat destruct (Rcase_abs _); lra. }
  unfold f32. destruct (Rlt_dec x 0) as [Hneg|Hpos].
  - destruct (Hgen (- x * 2 ^ 149)%R) as [Hr Hnear].
    { assert (0 < 2 ^ 149)%R by (apply pow_lt; lra). nra. }
    split.
    + apply is_f32_opp. by eexists.
    + intros y (z & Hz & ->). specialize (Hnear (- z) (f32_repr_opp _ Hz)).
      rewrite opp_IZR in Hnear.
      set (R' := IZR (f32_units (- x * 2 ^ 149))) in *.
      pose proof (f32_unit_scale x) as Hs.
      set (X := (x * 2 ^ 149)%R) in *.
      replace (- x * 2 ^ 149)%R with (- X)%R in * by (unfold X; lra).
      replace (x - - (R' * f32_unit))%R
        with (- ((- X - R') * f32_unit))%R by lra.
      replace (x - IZR z * f32_unit)%R
        with (- ((- X - - IZR z) * f32_unit))%R by lra.
      rewrite !Rabs_Ropp, !Rabs_mult, (Rabs_pos_eq f32_unit) by lra.
      by apply Rmult_le_compat_r; [lra|].
  - destruct (Hgen (x * 2 ^ 149)%R) as [Hr Hnear].
    { assert (0 < 2 ^ 149)%R by (apply pow_lt; lra). nra. }
    split.
    + by eexists.
    + intros y (z & Hz & ->). specialize (Hnear z Hz).
      set (R' := IZR (f32_units (x * 2 ^ 149))) in *.
      pose proof (f32_unit_scale x) as Hs.
      set (X := (x * 2 ^ 149)%R) in *.
      replace (x - R' * f32_unit)%R with ((X - R') * f32_unit)%R by lra.
      replace (x - IZR z * f32_unit)%R with ((X - IZR z) * f32_unit)%R by lra.
      rewrite !Rabs_mult, (Rabs_pos_eq f32_unit) by lra.
      by apply Rmult_le_compat_r; [lra|].
Qed.

Lemma f32_is_f32 x : is_f32 (f32 x).
Proof. apply f32_spec. Qed.

(** A float32 value is not changed by rounding. *)
Lemma f32_exact x : is_f32 x -> f32 x = x.
Proof.
  intros Hx. destruct (f32_spec x) as [_ Hn]. specialize (Hn x Hx).
  replace (x - x)%R with 0%R in Hn by lra. rewrite Rabs_R0 in Hn.
  pose proof (Rabs_pos (x - f32 x)) as Hp.
  assert (H0 : Rabs (x - f32 x) = 0%R) by lra.
  destruct (Req_dec (x - f32 x) 0) as [He|Hne]; [lra|].
  by apply Rabs_no_R0 in Hne.
Qed.

(** Rounding keeps the order. *)
Lemma f32_mono x y : (x <= y)%R -> (f32 x <= f32 y)%R.
Proof.
  intros Hxy. destruct (Rle_dec (f32 x) (f32 y)) as [|Hgt]; [done|]. exfalso.
  destruct (f32_spec x) as [Hfx Hnx]. destruct (f32_spec y) as [Hfy Hny].
  specialize (Hnx _ Hfy). specialize (Hny _ Hfx).
  assert (Heq : x = y).
  { unfold Rabs in *. repeat destruct (Rcase_abs _); lra. }
  subst y. lra.
Qed.

Lemma f32_le_exact x y : is_f32 y -> (x <= y)%R -> (f32 x <= y)%R.
Proof. intros Hy Hxy. rewrite <- (f32_exact y Hy). by apply f32_mono. Qed.

Lemma f32_ge_exact x y : is_f32 y -> (y <= x)%R -> (y <= f32 x)%R.
Proof. intros Hy Hxy. rewrite <- (f32_exact y Hy). by apply f32_mono. Qed.

Lemma is_f32_dyadic (m : Z) (j : nat) :
  Z.abs m < 2 ^ 24 -> (j <= 149)%nat -> is_f32 (IZR m / 2 ^ j).
Proof.
  intros Hm Hj. exists (m * 2 ^ Z.of_nat (149 - j)). split.
  - exists m, (Z.of_nat (149 - j)). split_and!; [done|lia|done].
  - rewrite mult_IZR, <- pow_IZR. unfold f32_unit.
    replace 149%nat with ((149 - j) + j)%nat at 2 by lia.
    rewrite pow_add. field; try (split; apply pow_nonzero; lra).
Qed.

Lemma is_f32_Z (m : Z) : Z.abs m < 2 ^ 24 -> is_f32 (IZR m).
Proof.
  intros Hm. replace (IZR m) with (IZR m / 2 ^ 0)%R by (simpl; lra).
  apply is_f32_dyadic; [done|lia].
Qed.

(** A number below half the smallest float32 rounds to zero. *)
Lemma f32_underflow x : (Rabs x < f32_unit / 2)%R -> f32 x = 0%R.
Proof.
  intros Hx. destruct (f32_spec x) as [(z & Hz & Hfz) Hn].
  specialize (Hn 0%R (is_f32_Z 0 ltac:(reflexivity))).
  replace (x - 0)%R with x in Hn by lra.
  assert (Hb : (Rabs (f32 x) < f32_unit)%R).
  { replace (f32 x) with (x - (x - f32 x))%R by lra.
    eapply Rle_lt_trans; [apply Rabs_triang|]. rewrite Rabs_Ropp. lra. }
  rewrite Hfz in Hb |- *. pose proof f32_unit_pos as Hu.
  rewrite Rabs_mult, (Rabs_pos_eq f32_unit) in Hb by lra.
  assert (Hz1 : (Rabs (IZR z) < 1)%R) by nra.
  rewrite <- abs_IZR in Hz1. apply lt_IZR in Hz1.
  assert (z = 0) by lia. subst z. lra.
Qed.

Lemma f32_of_Z_nonneg x : 0 <= x -> 0 <= f32_of_Z x.
Proof.
  intros Hx. unfold f32_of_Z. destruct (_ <=? 0); [done|].
  set (q := 2 ^ _). assert (Hq : 0 <= q) by (apply Z.pow_nonneg; lia).
  assert (Hn : 0 <= x / q).
  { destruct (decide (q = 0)) as [->|]; [by rewrite Z.div_0_r|]. apply Z.div_pos; lia. }
  repeat destruct (_ <? _); try destruct (Z.even _); nia.
Qed.

(** What [step] does to one age between the unset value and [2^24]. *)
Lemma f32_step a :
  -1 <= a <= 2 ^ 24 ->
  f32_of_Z (a + (if 0 <=? a then 1 else 0))
  = if decide (a = -1) then -1 else Z.min (a + 1) (2 ^ 24).
Proof.
  intros Ha. destruct (decide (a = -1)) as [->|Hne]; [reflexivity|].
  destruct (0 <=? a) eqn:E; [|apply Z.leb_gt in E; lia].
  destruct (decide (a = 2 ^ 24)) as [->|Hlt]; [reflexivity|].
  rewrite f32_of_Z_exact by lia. lia.
Qed.

(** ** The ring buffer *)

Section RingBufferScenario.
Lemma ring5_state :
  FiniteList.appends (FiniteList.init 4) ["A"; "B"; "C"; "D"; "E"]%string
  = (Ok (), {| FiniteList.max := 4; FiniteList.pos := 1;
               FiniteList.data := ["E"; "B"; "C"; "D"]%string |}).
Proof. reflexivity. Qed.
End RingBufferScenario.

(** C2. On the scenario of the claim (capacity 4, appends A to E) the
    buffer holds four items and [values()] returns three of them,
    [E, D, C]: the second slice stops one position early and the item at
    the write cursor, B, is left out.  Backward addressing through
    [__getitem__] does enumerate [E, D, C, B]. *)
Theorem values_after_wraparound :
  FiniteList.len ring5 = 4
  /\ FiniteList.values ring5 = ["E"; "D"; "C"]%string
  /\ FiniteList.items_by_index ring5 = Ok ["E"; "D"; "C"; "B"]%string.
Proof. repeat split; reflexivity. Qed.

(** When the cursor has wrapped to 0 the two slices overlap instead. *)
Lemma values_full_cursor_zero :
  FiniteList.values (FiniteList.appends (FiniteList.init 4) ["A"; "B"; "C"; "D"]%string).2
  = ["D"; "C"; "B"; "A"; "D"; "C"; "B"]%string.
Proof. reflexivity. Qed.

(** C7. [slice_to_indices] computes the adjusted and clamped upper bound
    and then builds the range from the bound as supplied.  On the
    four-item buffer a stop beyond the size raises IndexError, and a
    negative stop selects nothing; slicing the same sequence with the
    built-in rules gives [E, D, C, B] and [E, D, C]. *)
Theorem slice_stop_used_unclamped :
  slice_to_indices (Slice (Some 0) (Some 10) None) 4 = Ok [0; 1; 2; 3; 4; 5; 6; 7; 8; 9]
  /\ FiniteList.getitem_slice ring5 (Slice (Some 0) (Some 10) None) = Raise IndexError
  /\ py_slice ["E"; "D"; "C"; "B"]%string (Some 0) (Some 10) 1 = ["E"; "D"; "C"; "B"]%string
  /\ FiniteList.getitem_slice ring5 (Slice None (Some (-1)) None) = Ok []
  /\ py_slice ["E"; "D"; "C"; "B"]%string None (Some (-1)) 1 = ["E"; "D"; "C"]%string.
Proof. repeat split; reflexivity. Qed.

(** In-range bounds are served: [slice(0, 2)] is [E, D]. *)
Lemma slice_in_range :
  FiniteList.getitem_slice ring5 (Slice (Some 0) (Some 2) None) = Ok ["E"; "D"]%string.
Proof. reflexivity. Qed.

(** The range never depends on the clamped bound. *)
Lemma slice_to_indices_range slc size :
  slice_to_indices slc size
  = py_range (Z.max 0 (let s := default 0 (slice_start slc) in
                       if s <? 0 then s + size else s))
             (default size (slice_stop slc))
             (default 1 (slice_step slc)).
Proof. reflexivity. Qed.

(** ** The reference [topk] meets the contract *)

Section TopKRef.
Context {T : Type} (leb : T -> T -> bool).
Hypothesis leb_total : forall x y, leb x y = true \/ leb y x = true.
Hypothesis leb_trans : forall x y z, leb x y = true -> leb y z = true -> leb x z = true.

Let ge2 (a b : nat * T) : Prop := leb b.2 a.2 = true.

Lemma insert_desc_perm x l : insert_desc leb x l ≡ₚ x :: l.
Proof.
  induction l as [|y l IH]; simpl; [done|].
  destruct (leb y.2 x.2); [done|].
  rewrite IH. apply Permutation_swap.
Qed.

Lemma sort_desc_perm l : sort_desc leb l ≡ₚ l.
Proof.
  induction l as [|x l IH]; simpl; [done|].
  rewrite insert_desc_perm. by rewrite IH.
Qed.

Lemma insert_desc_sorted x l :
  StronglySorted ge2 l -> StronglySorted ge2 (insert_desc leb x l).
Proof.
  induction 1 as [|y l Hs IH Hall]; simpl.
  - repeat constructor.
  - destruct (leb y.2 x.2) eqn:E.
    + constructor; [by constructor|].
      constructor; [exact E|].
      eapply Forall_impl; [exact Hall|].
      intros z Hz. unfold ge2 in *. eauto.
    + constructor; [exact IH|].
      rewrite insert_desc_perm. constructor; [|exact Hall].
      unfold ge2. destruct (leb_total y.2 x.2); congruence.
Qed.

Lemma sort_desc_sorted l : StronglySorted ge2 (sort_desc leb l).
Proof.
  induction l; simpl; [constructor|]. by apply insert_desc_sorted.
Qed.

Lemma StronglySorted_take (R : relation (nat * T)) n l :
  StronglySorted R l -> StronglySorted R (take n l).
Proof.
  intros Hs. rewrite <- (take_drop n l) in Hs.
  by apply StronglySorted_app_1_l in Hs.
Qed.

Lemma StronglySorted_lookup (R : relation (nat * T)) l i j a b :
  StronglySorted R l -> (i < j)%nat -> l !! i = Some a -> l !! j = Some b -> R a b.
Proof.
  intros Hs. revert i j. induction Hs as [|x l Hs IH Hall]; intros i j Hij Hi Hj.
  - by rewrite lookup_nil in Hi.
  - destruct j as [|j]; [lia|]. destruct i as [|i]; simpl in *.
    + inversion Hi; subst. rewrite Forall_forall in Hall.
      apply Hall. by eapply list_elem_of_lookup_2.
    + eapply IH; [|done..]. lia.
Qed.

Lemma leb_refl x : leb x x = true.
Proof. by destruct (leb_total x x). Qed.

Lemma sorted_desc_of_strongly l :
  StronglySorted ge2 l -> sorted_desc leb (l.*2).
Proof.
  intros Hs i j x y Hij Hi Hj.
  rewrite list_lookup_fmap in Hi, Hj.
  destruct (l !! i) as [a|] eqn:Ea; [|done].
  destruct (l !! j) as [b|] eqn:Eb; [|done].
  simpl in *. inversion Hi; inversion Hj; subst.
  destruct (decide (i = j)) as [->|Hne].
  - rewrite Ea in Eb. inversion Eb; subst. apply leb_refl.
  - eapply (StronglySorted_lookup ge2 l i j a b); [done|lia|done..].
Qed.

Lemma imap_pair_lookup (xs : list T) i v :
  (i, v) ∈ imap (fun i x => (i, x)) xs <-> xs !! i = Some v.
Proof.
  rewrite list_elem_of_lookup. split.
  - intros [j Hj]. rewrite list_lookup_imap in Hj.
    destruct (xs !! j) eqn:E; simpl in Hj; [|done].
    by inversion Hj; subst.
  - intros Hi. exists i. rewrite list_lookup_imap. by rewrite Hi.
Qed.

Lemma imap_pair_fst (xs : list T) :
  (imap (fun i x => (i, x)) xs).*1 = seq 0 (length xs).
Proof.
  apply list_eq. intros i. rewrite list_lookup_fmap, list_lookup_imap.
  destruct (xs !! i) eqn:E; simpl.
  - symmetry. apply lookup_seq. split; [done|]. by eapply lookup_lt_Some.
  - symmetry. apply lookup_ge_None. rewrite length_seq.
    by apply lookup_ge_None.
Qed.

Theorem topk_by_contract (arrange : list (nat * T) -> list (nat * T)) :
  (forall l, arrange l ≡ₚ l) -> topk_contract leb (topk_by leb arrange).
Proof.
  intros Harr. split.
  - intros xs k Hk. unfold topk_by.
    destruct Hk as [Hk|Hk].
    + apply Z.ltb_lt in Hk. by rewrite Hk.
    + apply Z.ltb_lt in Hk. rewrite Hk. by rewrite orb_true_r.
  - intros xs k Hk. unfold topk_by.
    destruct (k <? 0) eqn:E1; [apply Z.ltb_lt in E1; lia|].
    destruct (zlen xs <? k) eqn:E2; [apply Z.ltb_lt in E2; lia|].
    simpl. eauto.
  - intros xs k res. unfold topk_by.
    destruct (k <? 0) eqn:E1; [done|].
    destruct (zlen xs <? k) eqn:E2; [done|]. simpl.
    intros [= <-]. apply Z.ltb_ge in E1, E2. unfold zlen in *.
    rewrite length_take, (Permutation_length (sort_desc_perm _)),
      (Permutation_length (Harr _)), length_imap.
    lia.
  - intros xs k res i v. unfold topk_by.
    destruct ((k <? 0) || (zlen xs <? k)); [done|].
    intros [= <-] Hin. apply imap_pair_lookup.
    rewrite <- (Harr (imap _ xs)), <- (sort_desc_perm (arrange _)).
    by apply (subseteq_take (Z.to_nat k)).
  - intros xs k res. unfold topk_by.
    destruct ((k <? 0) || (zlen xs <? k)); [done|].
    intros [= <-]. rewrite fmap_take.
    eapply sublist_NoDup; [|apply sublist_take].
    rewrite (sort_desc_perm _), (Harr _), imap_pair_fst. apply NoDup_seq.
  - intros xs k res. unfold topk_by.
    destruct ((k <? 0) || (zlen xs <? k)); [done|].
    intros [= <-]. apply sorted_desc_of_strongly.
    apply StronglySorted_take, sort_desc_sorted.
  - intros xs k res j w i v. unfold topk_by.
    destruct ((k <? 0) || (zlen xs <? k)); [done|].
    intros [= <-] Hj Hnotin Hin.
    set (srt := sort_desc leb (arrange (imap (fun i x => (i, x)) xs))) in *.
    assert (Hjs : (j, w) ∈ srt).
    { unfold srt. rewrite (sort_desc_perm _), (Harr _). by apply imap_pair_lookup. }
    rewrite <- (take_drop (Z.to_nat k) srt) in Hjs.
    apply elem_of_app in Hjs as [Hjs|Hjs].
    { exfalso. apply Hnotin. apply list_elem_of_fmap. by exists (j, w). }
    pose proof (sort_desc_sorted (arrange (imap (fun i x => (i, x)) xs))) as Hs.
    fold srt in Hs. rewrite <- (take_drop (Z.to_nat k) srt) in Hs.
    by apply (StronglySorted_app_1_elem_of ge2 _ _ (i, v) (j, w)) in Hs.
Qed.

Corollary topk_ref_contract : topk_contract leb (topk_ref leb).
Proof. by apply topk_by_contract. Qed.

Corollary topk_alt_contract : topk_contract leb (topk_alt leb).
Proof. apply topk_by_contract. intros l. apply reverse_Permutation. Qed.
End TopKRef.

Lemma Rleb_le x y : Rleb x y = true <-> (x <= y)%R.
Proof. unfold Rleb. destruct (Rle_dec x y); split; auto; discriminate. Qed.

#[export] Instance Z_numeric_laws : NumericLaws Z.
Proof.
  assert (Htot : forall x y : Z, (x <=? y) = true \/ (y <=? x) = true)
    by (intros; lia).
  assert (Htr : forall x y z : Z, (x <=? y) = true -> (y <=? z) = true -> (x <=? z) = true)
    by (intros; lia).
  split; [exact Htot|exact Htr|].
  exact (topk_ref_contract Z.leb Htot Htr).
Qed.

Lemma Z_numeric_alt_laws : @NumericLaws Z Z_numeric_alt.
Proof.
  assert (Htot : forall x y : Z, (x <=? y) = true \/ (y <=? x) = true)
    by (intros; lia).
  assert (Htr : forall x y z : Z, (x <=? y) = true -> (y <=? z) = true -> (x <=? z) = true)
    by (intros; lia).
  split; [exact Htot|exact Htr|].
  exact (topk_alt_contract Z.leb Htot Htr).
Qed.

#[export] Instance R_numeric_laws : NumericLaws R.
Proof.
  assert (Htot : forall x y : R, Rleb x y = true \/ Rleb y x = true).
  { intros x y. rewrite !Rleb_le. lra. }
  assert (Htr : forall x y z : R, Rleb x y = true -> Rleb y z = true -> Rleb x z = true).
  { intros x y z. rewrite !Rleb_le. lra. }
  split; [exact Htot|exact Htr|].
  exact (topk_ref_contract Rleb Htot Htr).
Qed.

(** The contract leaves the order among equal scores open: the variant
    that prefers the higher index also meets it. *)
Lemma topk_alt_first_of_equal :
  topk_ref Z.leb [1; 1] 1 = Ok [(0%nat, 1)]
  /\ topk_alt Z.leb [1; 1] 1 = Ok [(1%nat, 1)].
Proof. split; reflexivity. Qed.

(** ** The monad of methods *)

Section Hoare.
Context {St : Type}.

Lemma hoare_ret {A} (P : St -> Prop) (a : A) (Q : A -> St -> Prop) :
  (forall s, P s -> Q a s) -> hoare P (ret a) Q.
Proof. intros HQ s b s' HP [= <- <-]. auto. Qed.

Lemma hoare_raise {A} (P : St -> Prop) e (Q : A -> St -> Prop) :
  hoare P (raise e) Q.
Proof. intros s b s' _ [=]. Qed.

Lemma hoare_bind {A B} (P : St -> Prop) (m : M St A) (k : A -> M St B) Q R :
  hoare P m Q -> (forall a, hoare (Q a) (k a) R) -> hoare P (bind m k) R.
Proof.
  intros Hm Hk s b s' HP. unfold bind.
  destruct (m s) as [[a|e] s1] eqn:E; [|done].
  intros Hks. eapply Hk; [|exact Hks]. eapply Hm; eauto.
Qed.

Lemma hoare_gets {A} (P : St -> Prop) (f : St -> A) (Q : A -> St -> Prop) :
  (forall s, P s -> Q (f s) s) -> hoare P (gets f) Q.
Proof. intros HQ s b s' HP [= <- <-]. auto. Qed.

Lemma hoare_modify (P : St -> Prop) (f : St -> St) (Q : unit -> St -> Prop) :
  (forall s, P s -> Q () (f s)) -> hoare P (modify f) Q.
Proof. intros HQ s b s' HP [= <- <-]. auto. Qed.

Lemma hoare_read {A} (P : St -> Prop) (f : St -> outcome A) (Q : A -> St -> Prop) :
  (forall s a, P s -> f s = Ok a -> Q a s) -> hoare P (read f) Q.
Proof. intros HQ s b s' HP. unfold read. intros [= E <-]. auto. Qed.

Lemma hoare_lift {A} (P : St -> Prop) (o : outcome A) (Q : A -> St -> Prop) :
  (forall s a, P s -> o = Ok a -> Q a s) -> hoare P (lift o) Q.
Proof. intros HQ s b s' HP. unfold lift. intros [= E <-]. auto. Qed.

Lemma hoare_assert (P : St -> Prop) b (Q : unit -> St -> Prop) :
  (forall s, P s -> b = true -> Q () s) -> hoare P (assert_ b) Q.
Proof.
  intros HQ s u s' HP. unfold assert_. destruct b; [|done].
  intros [= <- <-]. auto.
Qed.

Lemma hoare_when (P : St -> Prop) b (m : M St unit) (Q : unit -> St -> Prop) :
  (b = true -> hoare P m Q) -> (b = false -> forall s, P s -> Q () s) ->
  hoare P (when b m) Q.
Proof.
  intros Hm Hs. unfold when. destruct b; [auto|].
  apply hoare_ret. auto.
Qed.

Lemma hoare_conseq {A} (P P' : St -> Prop) (m : M St A) (Q Q' : A -> St -> Prop) :
  hoare P' m Q' -> (forall s, P s -> P' s) -> (forall a s, Q' a s -> Q a s) ->
  hoare P m Q.
Proof. intros Hm HP HQ s a s' Hs E. eapply HQ, Hm; eauto. Qed.

Section Keeps.
Context (R : St -> St -> Prop) `{!PreOrder R}.

Lemma keeps_ret {A} (a : A) : keeps R (ret a).
Proof. intros s. simpl. reflexivity. Qed.

Lemma keeps_raise {A} e : keeps R (@raise St A e).
Proof. intros s. simpl. reflexivity. Qed.

Lemma keeps_gets {A} (f : St -> A) : keeps R (gets f).
Proof. intros s. simpl. reflexivity. Qed.

Lemma keeps_read {A} (f : St -> outcome A) : keeps R (read f).
Proof. intros s. simpl. reflexivity. Qed.

Lemma keeps_lift {A} (o : outcome A) : keeps R (@lift St A o).
Proof. intros s. simpl. reflexivity. Qed.

Lemma keeps_assert b : keeps R (@assert_ St b).
Proof. intros s. unfold assert_. destruct b; simpl; reflexivity. Qed.

Lemma keeps_modify (f : St -> St) : (forall s, R s (f s)) -> keeps R (modify f).
Proof. intros Hf s. simpl. apply Hf. Qed.

Lemma keeps_bind {A B} (m : M St A) (k : A -> M St B) :
  keeps R m -> (forall a, keeps R (k a)) -> keeps R (bind m k).
Proof.
  intros Hm Hk s. unfold bind. specialize (Hm s).
  destruct (m s) as [[a|e] s1]; simpl in *; [|done].
  etransitivity; [exact Hm|]. apply Hk.
Qed.

Lemma keeps_when b (m : M St unit) : keeps R m -> keeps R (when b m).
Proof. intros Hm. unfold when. destruct b; [done|]. apply keeps_ret. Qed.

Lemma keeps_for_each {A} (l : list A) (body : A -> M St unit) :
  (forall x, keeps R (body x)) -> keeps R (for_each l body).
Proof.
  intros Hb. induction l as [|x l IH]; simpl.
  - apply keeps_ret.
  - apply keeps_bind; [apply Hb|]. intros _. exact IH.
Qed.
End Keeps.
End Hoare.

(** Running a method that returned normally, one statement at a time. *)
Section Inversion.
Context {St : Type}.

Lemma bind_ok {A B} (m : M St A) (k : A -> M St B) s b s' :
  bind m k s = (Ok b, s') -> exists a s1, m s = (Ok a, s1) /\ k a s1 = (Ok b, s').
Proof. unfold bind. destruct (m s) as [[a|e] s1]; [eauto|done]. Qed.

Lemma ret_ok {A} (a b : A) (s s' : St) : ret a s = (Ok b, s') -> b = a /\ s' = s.
Proof. by intros [= <- <-]. Qed.

Lemma gets_ok {A} (f : St -> A) s b s' : gets f s = (Ok b, s') -> b = f s /\ s' = s.
Proof. by intros [= <- <-]. Qed.

Lemma modify_ok (f : St -> St) s b s' : modify f s = (Ok b, s') -> s' = f s.
Proof. by intros [= <-]. Qed.

Lemma read_ok {A} (f : St -> outcome A) s b s' :
  read f s = (Ok b, s') -> f s = Ok b /\ s' = s.
Proof. unfold read. by intros [= -> <-]. Qed.

Lemma lift_ok {A} (o : outcome A) (s : St) b s' :
  lift o s = (Ok b, s') -> o = Ok b /\ s' = s.
Proof. unfold lift. by intros [= -> <-]. Qed.

Lemma assert_ok (c : bool) (s : St) b s' :
  assert_ c s = (Ok b, s') -> c = true /\ s' = s.
Proof. unfold assert_. destruct c; [by intros [= <-]|done]. Qed.

Lemma zoom_ok {Sub A} (proj : St -> Sub) (upd : Sub -> St -> St) (m : M Sub A) s b s' :
  zoom proj upd m s = (Ok b, s') ->
  exists x, m (proj s) = (Ok b, x) /\ s' = upd x s.
Proof. unfold zoom. destruct (m (proj s)) as [r x]. intros [= -> <-]. eauto. Qed.
End Inversion.

Ltac minv H :=
  lazymatch type of H with
  | bind _ _ _ = (Ok _, _) =>
      let a := fresh "a" in
      let s1 := fresh "s" in
      let H1 := fresh "H" in
      apply bind_ok in H; destruct H as (a & s1 & H1 & H); minv H1; minv H
  | ret _ _ = (Ok _, _) => apply ret_ok in H; destruct H as [? ?]; subst
  | gets _ _ = (Ok _, _) => apply gets_ok in H; destruct H as [? ?]; subst
  | modify _ _ = (Ok _, _) => apply modify_ok in H; subst
  | read _ _ = (Ok _, _) => apply read_ok in H; destruct H as [H ?]; subst
  | lift _ _ = (Ok _, _) => apply lift_ok in H; destruct H as [H ?]; subst
  | assert_ _ _ = (Ok _, _) => apply assert_ok in H; destruct H as [H ?]; subst
  | raise _ _ = (Ok _, _) => discriminate H
  | when ?b _ _ = (Ok _, _) =>
      unfold when in H; destruct b eqn:?; minv H
  | (if ?b then _ else _) _ = (Ok _, _) => destruct b eqn:?; minv H
  | _ => idtac
  end.

(** ** The vector index *)

Section IndexProperties.
Context {L K T : Type} `{EqDecision L} `{EqDecision K} `{Numeric T}.

Lemma zlen_pos_of_elem {A} (l : list A) x : x ∈ l -> (0 <? zlen l) = true.
Proof.
  destruct l; [by intros ?%elem_of_nil|]. intros _.
  unfold zlen. simpl. apply Z.ltb_lt. lia.
Qed.

Lemma strict_add_current (self : TorchVectorIndex.t L K T) labs vecs grps l :
  l ∈ labs ->
  OrderedSet.consistent (TorchVectorIndex.labels self) ->
  TorchVectorIndex.contains self l = true ->
  exists e,
    TorchVectorIndex.add labs vecs grps true self = (Raise e, self)
    /\ (zlen (rows vecs) = zlen labs ->
        cols vecs = QuantizedEmbedding.dims (TorchVectorIndex.values self) ->
        e = StrictAddError).
Proof.
  intros Hl Hc Hin.
  unfold TorchVectorIndex.contains, OrderedSet.contains in Hin.
  apply bool_decide_eq_true in Hin.
  assert (Hex : (0 <? zlen (OrderedSet.intersection (TorchVectorIndex.labels self)
                             (py_set labs))) = true).
  { apply (zlen_pos_of_elem _ l). unfold OrderedSet.intersection.
    apply list_elem_of_intersection. split; [by apply Hc|].
    unfold py_set. by apply elem_of_remove_dups. }
  unfold TorchVectorIndex.add, bind, gets, assert_. simpl.
  destruct (zlen (rows vecs) =? zlen labs) eqn:E1; simpl.
  - destruct (cols vecs =? _) eqn:E2; simpl.
    + rewrite Hex. simpl. eauto.
    + exists AssertionError. split; [done|]. intros _ E. apply Z.eqb_neq in E2. done.
  - exists AssertionError. split; [done|]. intros E. apply Z.eqb_neq in E1. done.
Qed.

Lemma strict_add_legacy (self : LegacyIndex.t L T) labs vecs g l :
  l ∈ labs ->
  l ∈ LegacyIndex.labels self ->
  exists e,
    LegacyIndex.add labs vecs g true self = (Raise e, self)
    /\ (zlen (rows vecs) = zlen labs -> cols vecs = LegacyIndex.dims self ->
        e = StrictAddError).
Proof.
  intros Hl Hin.
  assert (Hex : (0 <? zlen (list_intersection (py_set labs) (LegacyIndex.labels self)))
                = true).
  { apply (zlen_pos_of_elem _ l). apply list_elem_of_intersection.
    split; [|done]. unfold py_set. by apply elem_of_remove_dups. }
  unfold LegacyIndex.add, bind, gets, assert_. simpl.
  destruct (zlen (rows vecs) =? zlen labs) eqn:E1; simpl.
  - destruct (cols vecs =? _) eqn:E2; simpl.
    + rewrite Hex. simpl. eauto.
    + exists AssertionError. split; [done|]. intros _ E. apply Z.eqb_neq in E2. done.
  - exists AssertionError. split; [done|]. intros E. apply Z.eqb_neq in E1. done.
Qed.

(** C5. A strict [add] that names a label already in the index raises
    and leaves the index exactly as it was, in the current and in the
    earlier version; for input of the right shape the exception is the
    one of the strict mode (the shape assertions come first). *)
Theorem strict_add_all_or_nothing (labs : list L) (vecs : tensor2 T) (l : L) :
  l ∈ labs ->
  (forall (self : TorchVectorIndex.t L K T) grps,
      OrderedSet.consistent (TorchVectorIndex.labels self) ->
      TorchVectorIndex.contains self l = true ->
      exists e,
        TorchVectorIndex.add labs vecs grps true self = (Raise e, self)
        /\ (zlen (rows vecs) = zlen labs ->
            cols vecs = QuantizedEmbedding.dims (TorchVectorIndex.values self) ->
            e = StrictAddError))
  /\ (forall (self : LegacyIndex.t L T) g,
      l ∈ LegacyIndex.labels self ->
      exists e,
        LegacyIndex.add labs vecs g true self = (Raise e, self)
        /\ (zlen (rows vecs) = zlen labs -> cols vecs = LegacyIndex.dims self ->
            e = StrictAddError)).
Proof.
  intros Hl. split.
  - intros self grps Hc Hin. by eapply strict_add_current.
  - intros self g Hin. by eapply strict_add_legacy.
Qed.

(** C10. [compress] on an index without labels raises the ValueError
    of [log2(0)] and changes nothing. *)
Theorem compress_empty_raises (self : LegacyIndex.t L T) (min_size : Z) :
  LegacyIndex.size self = 0 ->
  next_power_of_2 0 = Raise ValueError
  /\ LegacyIndex.compress min_size self = (Raise ValueError, self).
Proof.
  intros Hs. split; [reflexivity|].
  unfold LegacyIndex.compress, bind, gets, lift. rewrite Hs. reflexivity.
Qed.
End IndexProperties.

Lemma strict_add_all_or_nothing_witness :
  exists e,
    TorchVectorIndex.add ["x"]%string (Tensor2 2 [[5; 5]]) (One None) true idx_xyz
    = (Raise e, idx_xyz) /\ e = StrictAddError.
Proof.
  destruct (strict_add_all_or_nothing (K := option string)
              ["x"]%string (Tensor2 2 [[5; 5]]) "x"%string) as [Hcur _].
  { apply list_elem_of_In. simpl. auto. }
  destruct (Hcur idx_xyz (One None)) as (e & He & Hk).
  { intros x Hx. exact Hx. }
  { reflexivity. }
  exists e. split; [exact He|]. apply Hk; reflexivity.
Defined.

Lemma compress_empty_raises_witness :
  LegacyIndex.size legacy0 = 0
  /\ LegacyIndex.compress 1024 legacy0 = (Raise ValueError, legacy0).
Proof.
  split; [reflexivity|].
  apply (compress_empty_raises legacy0 1024). reflexivity.
Defined.

(** C3. Removing x from the index holding x, y, z (capacity 4): the
    label is gone and the size drops by one, but [labels.pop] shifts y
    and z one slot down while the rows stay where they are, and slot 0
    receives the row behind the last occupied one.  Afterwards [get]
    returns for z the vector of y, and for y a row nobody wrote. *)
Theorem remove_misplaces_vectors :
  let after := (TorchVectorIndex.remove ["x"]%string idx_xyz).2 in
  (TorchVectorIndex.remove ["x"]%string idx_xyz).1 = Ok ()
  /\ TorchVectorIndex.contains after "x"%string = false
  /\ TorchVectorIndex.size after = TorchVectorIndex.size idx_xyz - 1
  /\ TorchVectorIndex.get idx_xyz ["y"; "z"]%string = Ok [[0; 1]; [1; 1]]
  /\ TorchVectorIndex.get after ["y"; "z"]%string = Ok [[0; 0]; [0; 1]].
Proof. repeat split; reflexivity. Qed.

(** On an index filled to capacity the row behind the last occupied one
    does not exist: [remove] raises after the label has been popped. *)
Lemma remove_at_capacity_raises :
  (TorchVectorIndex.remove ["x"]%string idx_full).1 = Raise IndexError
  /\ OrderedSet.items (TorchVectorIndex.labels (TorchVectorIndex.remove ["x"]%string idx_full).2)
     = ["y"]%string.
Proof. split; reflexivity. Qed.

(** The set part of the labels keeps a removed label, so adding it again
    takes the update path and raises. *)
Lemma add_after_remove_raises :
  (TorchVectorIndex.add ["x"]%string (Tensor2 2 [[5; 5]]) (One None) false
     (TorchVectorIndex.remove ["x"]%string idx_xyz).2).1 = Raise ValueError.
Proof. reflexivity. Qed.

(** The earlier version reads the last occupied row, and then raises on
    its last statement, with the label already popped. *)
Lemma legacy_remove_raises :
  (LegacyIndex.remove ["x"]%string legacy3).1 = Raise IndexError
  /\ LegacyIndex.labels (LegacyIndex.remove ["x"]%string legacy3).2 = ["y"; "z"]%string
  /\ take 3 (LegacyIndex.values (LegacyIndex.remove ["x"]%string legacy3).2)
     = [[1; 1]; [0; 1]; [1; 1]].
Proof. repeat split; reflexivity. Qed.

(** Removing the label in the last occupied slot moves nothing. *)
Lemma remove_last_keeps_vectors :
  TorchVectorIndex.get (TorchVectorIndex.remove ["z"]%string idx_xyz).2 ["x"; "y"]%string
  = TorchVectorIndex.get idx_xyz ["x"; "y"]%string.
Proof. reflexivity. Qed.

(** ** Lengths of tensors after reads and writes *)

Section Tensors.
Context {A : Type}.

Lemma omapM_length {B C} (f : B -> outcome C) l r :
  omapM f l = Ok r -> length r = length l.
Proof.
  revert r. induction l as [|x l IH]; simpl; intros r.
  - by intros [= <-].
  - destruct (f x); simpl; [|done]. destruct (omapM f l); simpl; [|done].
    intros [= <-]. simpl. f_equal. by apply IH.
Qed.

Lemma t_gather_length (t : list A) idxs r :
  t_gather t idxs = Ok r -> zlen r = zlen idxs.
Proof. unfold t_gather, zlen. by intros ->%omapM_length. Qed.

Lemma py_setitem_length (t : list A) i x t' :
  py_setitem t i x = Ok t' -> zlen t' = zlen t.
Proof.
  unfold py_setitem. destruct (_ || _); [done|].
  intros [= <-]. unfold zlen. by rewrite length_insert.
Qed.

Lemma t_scatter_length (t : list A) idxs src t' :
  t_scatter t idxs src = Ok t' -> zlen t' = zlen t.
Proof.
  unfold t_scatter. destruct (_ =? _); [|done]. clear.
  revert t src. induction idxs as [|i idxs IH]; intros t src; simpl.
  - by intros [= <-].
  - destruct src as [|x src]; [by intros [= <-]|].
    unfold t_set. destruct (py_setitem t i x) as [t1|] eqn:E; simpl; [|done].
    intros Hgo. apply IH in Hgo. apply py_setitem_length in E. lia.
Qed.

Lemma t_resize_length (fill : A) t n : 0 <= n -> zlen (t_resize fill t n) = n.
Proof.
  intros Hn. unfold t_resize, zlen.
  rewrite length_app, length_take, length_replicate. lia.
Qed.

Lemma t_set_slice_ok (t : list A) lo hi src t' :
  t_set_slice t lo hi src = Ok t' -> 0 <= lo <= hi -> hi <= zlen t ->
  zlen src = hi - lo /\ zlen t' = zlen t.
Proof.
  unfold t_set_slice. intros Hs Hlo Hhi.
  rewrite (Z.min_l lo), (Z.min_l hi), (Z.max_r lo hi) in Hs by lia.
  destruct (hi - lo =? zlen src) eqn:E; [|done].
  apply Z.eqb_eq in E. injection Hs as <-. split; [lia|].
  unfold zlen in *. rewrite !length_app, length_take, length_drop. lia.
Qed.
End Tensors.

Lemma next_power_of_2_ok x y :
  next_power_of_2 x = Ok y -> 0 < x /\ y = 2 ^ Z.log2_up x /\ x <= y /\ is_pow2 y.
Proof.
  unfold next_power_of_2. destruct (x <=? 0) eqn:E; [done|].
  apply Z.leb_gt in E. intros [= <-]. repeat split; [done| |].
  - destruct (decide (x = 1)) as [->|Hne]; [done|].
    apply Z.log2_up_spec. lia.
  - exists (Z.log2_up x). split; [apply Z.log2_up_nonneg|done].
Qed.

(** The result is the least power of two that is not below [x]. *)
Lemma next_power_of_2_least x y e :
  next_power_of_2 x = Ok y -> 0 <= e -> x <= 2 ^ e -> y <= 2 ^ e.
Proof.
  intros (Hx & -> & _)%next_power_of_2_ok He Hle.
  apply Z.pow_le_mono_r; [lia|].
  destruct (decide (x = 1)) as [->|Hne]; [done|].
  apply Z.log2_up_le_pow2; lia.
Qed.

(** ** Capacity of the earlier index *)

Ltac tensor_facts :=
  repeat match goal with
    | Hx : t_scatter _ _ _ = Ok _ |- _ => apply t_scatter_length in Hx
    | Hx : t_gather _ _ = Ok _ |- _ => apply t_gather_length in Hx
    | Hx : next_power_of_2 _ = Ok _ |- _ =>
        apply next_power_of_2_ok in Hx; destruct Hx as (? & ? & ? & ?)
    | Hx : (_ <? _) = true |- _ => apply Z.ltb_lt in Hx
    | Hx : (_ <? _) = false |- _ => apply Z.ltb_ge in Hx
    end;
  repeat match goal with
    | Hx : t_set_slice _ _ _ _ = Ok _ |- _ =>
        apply t_set_slice_ok in Hx;
        [ rewrite ?t_resize_length in Hx by (unfold zlen in *; lia)
        | unfold zlen in *; lia
        | rewrite ?t_resize_length by (unfold zlen in *; lia); unfold zlen in *; lia ]
    end.

Section LegacyCapacity.
Context {L T : Type} `{EqDecision L} `{Numeric T}.
Implicit Types s : LegacyIndex.t L T.

Lemma init_cap_inv d m s : LegacyIndex.init d m = Ok s -> LegacyIndex.cap_inv s.
Proof.
  unfold LegacyIndex.init.
  destruct (m <=? 0) eqn:E1; [done|]. apply Z.leb_gt in E1.
  destruct (2 ^ Z.log2 m =? m) eqn:E2; [|done]. apply Z.eqb_eq in E2.
  simpl. intros [= <-]. unfold LegacyIndex.cap_inv, LegacyIndex.size; simpl.
  split; [|split].
  - exists (Z.log2 m). split; [apply Z.log2_nonneg|done].
  - unfold zlen. simpl. lia.
  - unfold zlen. rewrite length_replicate. lia.
Qed.

Lemma add_cap_inv s labs vecs g strict u s' :
  LegacyIndex.cap_inv s -> LegacyIndex.add labs vecs g strict s = (Ok u, s') ->
  LegacyIndex.cap_inv s'.
Proof.
  intros Hinv Hadd. unfold LegacyIndex.add in Hadd.
  minv Hadd.
  all: unfold LegacyIndex.expand in *.
  all: repeat match goal with Hx : bind _ _ _ = (Ok _, _) |- _ => minv Hx end.
  all: destruct Hinv as (Hp & Hsz & Hv).
  all: unfold LegacyIndex.cap_inv, LegacyIndex.size in *; simpl in *.
  all: tensor_facts.
  all: unfold zlen in *; rewrite ?length_app, ?length_fmap in *.
  all: repeat split; first [assumption | lia].
Qed.

Lemma built_cap_inv s : LegacyIndex.built s -> LegacyIndex.cap_inv s.
Proof.
  induction 1 as [d m s Hi|s labs vecs g strict s' _ IH Hadd].
  - by eapply init_cap_inv.
  - by eapply add_cap_inv.
Qed.

#[local] Instance cap_le_preorder : PreOrder (@LegacyIndex.cap_le L T).
Proof.
  split.
  - intros s. unfold LegacyIndex.cap_le. lia.
  - intros s1 s2 s3. unfold LegacyIndex.cap_le. lia.
Qed.

Lemma expand_cap_le n : keeps LegacyIndex.cap_le (LegacyIndex.expand (L := L) (T := T) n).
Proof.
  intros s. unfold LegacyIndex.expand, bind, lift, gets, when, LegacyIndex.cap_le.
  destruct (next_power_of_2 n) as [y|]; simpl; [|lia].
  destruct (LegacyIndex.max_size s <? y) eqn:E; simpl; [|lia].
  apply Z.ltb_lt in E. lia.
Qed.

Lemma add_cap_le labs vecs g strict :
  keeps LegacyIndex.cap_le (LegacyIndex.add (L := L) (T := T) labs vecs g strict).
Proof.
  unfold LegacyIndex.add.
  repeat first
    [ apply expand_cap_le
    | apply keeps_bind; [typeclasses eauto| |intros ?]
    | apply keeps_when; [typeclasses eauto|]
    | apply keeps_gets; typeclasses eauto
    | apply keeps_assert; typeclasses eauto
    | apply keeps_read; typeclasses eauto
    | apply keeps_lift; typeclasses eauto
    | apply keeps_raise; typeclasses eauto
    | apply keeps_modify; intros ?; unfold LegacyIndex.cap_le; simpl; lia
    | match goal with |- keeps _ (if ?b then _ else _) => destruct b end ].
Qed.

Lemma remove_cap_eq labs s :
  LegacyIndex.max_size (LegacyIndex.remove labs s).2 = LegacyIndex.max_size s.
Proof.
  assert (Hpre : PreOrder (fun a b : LegacyIndex.t L T =>
                    LegacyIndex.max_size b = LegacyIndex.max_size a)).
  { split; [by intros ?|]. intros a b c. simpl. congruence. }
  enough (Hk : keeps (fun a b : LegacyIndex.t L T =>
                LegacyIndex.max_size b = LegacyIndex.max_size a) (LegacyIndex.remove labs))
    by apply Hk.
  clear s.
  unfold LegacyIndex.remove.
  apply keeps_bind; [done|by apply keeps_gets|intros targets].
  apply keeps_for_each; [done|]. intros lab.
  repeat first
    [ apply keeps_bind; [done| |intros ?]
    | by apply keeps_gets
    | by apply keeps_read
    | by apply keeps_raise
    | apply keeps_modify; intros ?; reflexivity ].
Qed.

Lemma compress_spec s floor :
  0 < LegacyIndex.size s ->
  exists s',
    LegacyIndex.compress floor s = (Ok (), s')
    /\ LegacyIndex.max_size s'
       = Z.min (LegacyIndex.max_size s) (Z.max floor (2 ^ Z.log2_up (LegacyIndex.size s)))
    /\ LegacyIndex.labels s' = LegacyIndex.labels s.
Proof.
  intros Hs. unfold LegacyIndex.compress, bind, gets, lift, when, next_power_of_2.
  destruct (LegacyIndex.size s <=? 0) eqn:E; [apply Z.leb_le in E; lia|]. simpl.
  destruct (_ <? LegacyIndex.max_size s) eqn:E2; simpl.
  - apply Z.ltb_lt in E2. eexists. split; [reflexivity|]. simpl. split; [lia|done].
  - apply Z.ltb_ge in E2. eexists. split; [reflexivity|]. split; [lia|done].
Qed.

End LegacyCapacity.

Lemma three_not_pow2 : ~ is_pow2 3.
Proof.
  intros (e & He & H3).
  destruct (decide (e = 0)) as [->|]; [discriminate H3|].
  destruct (decide (e = 1)) as [->|]; [discriminate H3|].
  assert (H4 : 2 ^ 2 <= 2 ^ e) by (apply Z.pow_le_mono_r; lia).
  change (2 ^ 2) with 4 in H4. lia.
Qed.


(** A floor that is not a power of two becomes the capacity. *)
Lemma compress_to_odd_floor :
  LegacyIndex.max_size (LegacyIndex.compress 5 legacy3).2 = 5.
Proof. reflexivity. Qed.

Lemma legacy3_built : LegacyIndex.built legacy3.
Proof.
  eapply (LegacyIndex.built_add legacy0 ["x"; "y"; "z"]%string
            (Tensor2 2 [[1; 0]; [0; 1]; [1; 1]]) (LegacyIndex.GInt (-1)) false).
  - by eapply (LegacyIndex.built_init 2 16).
  - reflexivity.
Qed.


(** ** Search in the current index *)

Lemma obind_ok {A B} (m : outcome A) (k : A -> outcome B) b :
  obind m k = Ok b -> exists a, m = Ok a /\ k a = Ok b.
Proof. destruct m; simpl; [eauto|done]. Qed.

Ltac out_inv H :=
  lazymatch type of H with
  | obind _ _ = Ok _ =>
      let a := fresh "a" in
      let H1 := fresh "H" in
      apply obind_ok in H; destruct H as (a & H1 & H); out_inv H1; out_inv H
  | Ok _ = Ok _ => injection H as H
  | Raise _ = Ok _ => discriminate H
  | _ => idtac
  end.

Lemma omapM_Forall2 {A B} (f : A -> outcome B) l r :
  omapM f l = Ok r -> Forall2 (fun x y => f x = Ok y) l r.
Proof.
  revert r. induction l as [|x l IH]; simpl; intros r Hr.
  - injection Hr as <-. constructor.
  - out_inv Hr. subst. constructor; [done|]. by apply IH.
Qed.

Lemma omapM_ok {A B} (f : A -> outcome B) l :
  Forall (fun x => exists y, f x = Ok y) l -> exists r, omapM f l = Ok r.
Proof.
  induction 1 as [|x l [y Hy] _ [r Hr]]; simpl; [eauto|].
  rewrite Hy, Hr. simpl. eauto.
Qed.

Lemma omap_lookup_seq {A} (l : list A) a m :
  (a + m <= length l)%nat ->
  omap (fun i => l !! i) (seq a m) = take m (drop a l).
Proof.
  revert a. induction m as [|m IH]; intros a Hle; simpl; [done|].
  destruct (lookup_lt_is_Some_2 l a) as [x Hx]; [lia|].
  rewrite Hx. rewrite (drop_S l x a Hx). simpl. f_equal. apply IH. lia.
Qed.

(** [l[:m]] for an in-range [m] is the prefix of length [m]. *)
Lemma py_slice_prefix {A} (l : list A) m :
  0 <= m <= zlen l -> py_slice l None (Some m) 1 = take (Z.to_nat m) l.
Proof.
  intros Hm. unfold py_slice, py_range, adjust_bound. simpl.
  destruct (m <? 0) eqn:E1; [apply Z.ltb_lt in E1; lia|].
  assert (Hhi : (if zlen l <=? m then zlen l else m) = m).
  { destruct (zlen l <=? m) eqn:E2; [apply Z.leb_le in E2; lia|done]. }
  rewrite Hhi.
  replace (Z.max 0 ((m - 0 + 1 - 1) / 1)) with m by (rewrite Z.div_1_r; lia).
  pose proof (omap_lookup_seq l 0 (Z.to_nat m)) as Hseq.
  rewrite drop_0 in Hseq. rewrite <- Hseq by (unfold zlen in Hm; lia).
  clear. induction (seq 0 (Z.to_nat m)) as [|i idxs IH]; simpl; [done|].
  replace (Z.to_nat (0 + Z.of_nat i * 1)) with i by lia.
  unfold omap in IH. by rewrite IH.
Qed.

Section SearchProperties.
Context {L K T : Type} `{EqDecision L} `{EqDecision K} `{Numeric T} `{!NumericLaws T}.
Implicit Types self : TorchVectorIndex.t L K T.

Lemma search_rows self vecs k grps klab kval :
  TorchVectorIndex.search self vecs k grps = Ok (klab, kval) ->
  exists sims tops,
    length sims = length vecs
    /\ Forall2 (fun row top => topk row (Z.min k (TorchVectorIndex.size self)) = Ok top)
         sims tops
    /\ kval = map (fun top : list (nat * T) => top.*2) tops
    /\ Forall2 (fun (top : list (nat * T)) (ls : list L) => length ls = length top)
         tops klab.
Proof.
  unfold TorchVectorIndex.search. intros Hs. out_inv Hs.
  match goal with
  | Hsim : QuantizedEmbedding.similarity _ _ _ = Ok ?sims,
    Htop : omapM _ ?sims = Ok ?tops,
    Hlab : omapM _ ?tops = Ok ?lab |- _ =>
      subst; exists sims, tops; repeat split;
      [ unfold QuantizedEmbedding.similarity in Hsim; out_inv Hsim; subst;
        by rewrite length_map
      | by apply omapM_Forall2
      | apply omapM_Forall2 in Hlab;
        eapply Forall2_impl; [exact Hlab|]; simpl; intros top ls Hls;
        by apply omapM_length in Hls ]
  end.
Qed.

Lemma search_total self vecs k :
  0 <= k -> TorchVectorIndex.size self <= TorchVectorIndex.capacity self ->
  exists klab kval, TorchVectorIndex.search self vecs k None = Ok (klab, kval).
Proof.
  intros Hk Hcap. unfold TorchVectorIndex.search. simpl.
  unfold QuantizedEmbedding.similarity. simpl.
  set (num := TorchVectorIndex.size self) in *.
  assert (Hnum : 0 <= num) by (unfold num, TorchVectorIndex.size, OrderedSet.len, zlen; lia).
  rewrite py_slice_prefix by (unfold TorchVectorIndex.capacity, QuantizedEmbedding.size in Hcap; lia).
  set (sel := take (Z.to_nat num) _).
  assert (Hsel : zlen sel = num).
  { unfold sel, zlen. rewrite length_take.
    unfold TorchVectorIndex.capacity, QuantizedEmbedding.size, zlen in Hcap. lia. }
  destruct (omapM_ok (fun row => topk row (Z.min k num))
              (map (fun q => map (dot q) sel) vecs)) as [tops Htops].
  { apply Forall_forall. intros row (q & -> & _)%list_elem_of_fmap.
    apply (topk_some _ _ topk_ok). unfold zlen in *. rewrite length_map. lia. }
  rewrite Htops. simpl.
  destruct (omapM_ok (fun top : list (nat * T) =>
              omapM (fun iv : nat * T =>
                py_index (OrderedSet.items (TorchVectorIndex.labels self)) (Z.of_nat iv.1)) top)
              tops) as [klab Hklab].
  { apply omapM_Forall2 in Htops. apply Forall_forall. intros top Htop.
    apply list_elem_of_lookup in Htop as [n Hn].
    destruct (Forall2_lookup_r _ _ _ _ _ Htops Hn) as (row & Hrow & Hrt).
    apply list_elem_of_lookup_2, list_elem_of_fmap in Hrow as (q & -> & _).
    apply omapM_ok, Forall_forall. intros [i v] Hiv.
    pose proof (topk_lookup _ _ topk_ok _ _ _ _ _ Hrt Hiv) as Hl.
    apply lookup_lt_Some in Hl. rewrite length_map in Hl.
    unfold py_index. simpl.
    assert (Hi : Z.of_nat i < zlen (OrderedSet.items (TorchVectorIndex.labels self))).
    { unfold num, TorchVectorIndex.size, OrderedSet.len in Hsel. unfold zlen in *. lia. }
    destruct (Z.of_nat i <? 0) eqn:E1; [apply Z.ltb_lt in E1; lia|].
    destruct (_ <=? Z.of_nat i) eqn:E2; [apply Z.leb_le in E2; lia|]. simpl.
    rewrite Nat2Z.id.
    destruct (lookup_lt_is_Some_2 (OrderedSet.items (TorchVectorIndex.labels self)) i)
      as [x Hx]; [unfold zlen in Hi; lia|].
    rewrite ?E1, Hx. simpl. eauto. }
  rewrite Hklab. simpl. eauto.
Qed.

(** C6, as the code has it.  Whenever [search] returns, with or
    without a groups filter, it gives one row per query with exactly
    [min(k, size())] labels and scores, the scores in descending
    order; without a filter it does return, for [k >= 0], queries of
    the dimension of the index and an index whose labels fit its
    capacity.  No cutoff is applied and the order among equal scores is
    the one [topk] delivers. *)
Theorem search_shape self vecs k :
  (forall grps klab kval,
      TorchVectorIndex.search self vecs k grps = Ok (klab, kval) ->
      length kval = length vecs
      /\ Forall (fun row => zlen row = Z.min k (TorchVectorIndex.size self)
                           /\ sorted_desc sleb row) kval
      /\ Forall2 (fun (ls : list L) (row : list T) => length ls = length row) klab kval)
  /\ (0 <= k ->
      Forall (fun q => zlen q = QuantizedEmbedding.dims (TorchVectorIndex.values self)) vecs ->
      TorchVectorIndex.size self <= TorchVectorIndex.capacity self ->
      exists klab kval, TorchVectorIndex.search self vecs k None = Ok (klab, kval)).
Proof.
  split; [|intros Hk _; by apply search_total].
  intros grps klab kval Hs.
  destruct (search_rows _ _ _ _ _ _ Hs) as (sims & tops & Hlen & Htops & -> & Hlab).
  split; [|split].
  - rewrite length_map. apply Forall2_length in Htops. lia.
  - apply Forall_forall. intros row (top & -> & Htop)%list_elem_of_fmap.
    apply list_elem_of_lookup in Htop as [n Hn].
    destruct (Forall2_lookup_r _ _ _ _ _ Htops Hn) as (r & _ & Hrt).
    split.
    + pose proof (topk_length _ _ topk_ok _ _ _ Hrt) as Hl.
      unfold zlen in *. by rewrite length_fmap.
    + exact (topk_sorted _ _ topk_ok _ _ _ Hrt).
  - apply Forall2_fmap_r. apply Forall2_flip.
    eapply Forall2_impl; [exact Hlab|]. simpl. intros top ls ->.
    by rewrite length_fmap.
Qed.
End SearchProperties.

(** C6 as stated fails: [search] takes no cutoff, and on the index
    x = [1,0], y = [0,1] the query [1,0] with k = 2 returns y with the
    score 0, which is not above the cutoff 0. *)
Lemma search_returns_score_at_cutoff :
  exists labs scores,
    TorchVectorIndex.search_vec idx_xy [1; 0] 2 None = Ok (labs, scores)
    /\ labs = ["x"; "y"]%string /\ scores = [1; 0]
    /\ ~ above_cutoff 0 scores.
Proof.
  exists ["x"; "y"]%string, [1; 0]. repeat split.
  intros Hc. apply Forall_cons_1 in Hc as [_ Hc].
  apply Forall_cons_1 in Hc as [Hc _]. discriminate Hc.
Qed.

Lemma search_shape_witness :
  exists klab kval,
    TorchVectorIndex.search idx_xy [[1; 0]] 5 None = Ok (klab, kval)
    /\ Forall (fun row => zlen row = 2 /\ sorted_desc Z.leb row) kval.
Proof.
  destruct (search_shape idx_xy [[1; 0]] 5) as [Hshape Htotal].
  destruct Htotal as (klab & kval & Hs);
    [lia|repeat constructor|vm_compute; discriminate|].
  exists klab, kval. split; [exact Hs|].
  destruct (Hshape None klab kval Hs) as (_ & Hrows & _). exact Hrows.
Defined.

(** The condition on the capacity is needed.  After an [add] that
    raised, the index of capacity 1 holds two labels and one row, and
    [search] with k = 2 and no filter raises in [topk]. *)
Lemma search_beyond_capacity_raises :
  TorchVectorIndex.size idx_over = 2
  /\ TorchVectorIndex.capacity idx_over = 1
  /\ TorchVectorIndex.search idx_over [[1; 0]] 2 None = Raise RuntimeError.
Proof. repeat split; reflexivity. Qed.

(** The scenario of the spec: the best match for [1,0] is x with score 1. *)
Lemma search_xy_best :
  TorchVectorIndex.search_vec idx_xy [1; 0] 1 None = Ok (["x"]%string, [1]).
Proof. reflexivity. Qed.

(** Among equal scores the order is the one of [topk]: the two models of
    [topk] both meet the contract and disagree on which label comes
    first. *)
Lemma search_tie_order_follows_topk :
  TorchVectorIndex.search_vec idx_tie [1; 0] 1 None = Ok (["a"]%string, [1])
  /\ TorchVectorIndex.search_vec (H := Z_numeric_alt) idx_tie [1; 0] 1 None
     = Ok (["b"]%string, [1]).
Proof. split; reflexivity. Qed.

(** With a groups filter: a single matching slot raises TypeError, fewer
    matching slots than [min(k, size())] raise in [topk]. *)
Lemma search_groups_raises :
  TorchVectorIndex.size idx_groups = 5
  /\ TorchVectorIndex.search_vec idx_groups [1; 0] 1 (Some (One (Some "g"%string)))
     = Ok (["v"]%string, [7])
  /\ TorchVectorIndex.search_vec idx_groups [1; 0] 1 (Some (One (Some "h"%string)))
     = Raise TypeError
  /\ TorchVectorIndex.search_vec idx_groups [1; 0] 3 (Some (One (Some "g"%string)))
     = Raise RuntimeError.
Proof. repeat split; reflexivity. Qed.

(** ** The conversation history *)

(** C1. On a history holding "a" (ring position 0) and "b" (position 1)
    the query "a" scores 1 at slot 0 and 0 at slot 1.  The winning slot
    number 0 is then used as a backward index into the ring buffer,
    which addresses the most recent entry: the search returns "b", not
    the entry stored at position 0. *)
Theorem search_returns_entry_of_other_slot :
  HistoryDatabase.decayed embed_ab hist_ab "a" (fun _ => 1) = Ok [1; 0]
  /\ topk [1; 0] 1 = Ok [(0%nat, 1)]
  /\ FiniteList.data (HistoryDatabase.txt hist_ab) !! 0%nat = Some (None, "a"%string)
  /\ HistoryDatabase.search embed_ab hist_ab "a" 1 (fun _ => 1) 0
     = Ok [(None, "b"%string)].
Proof. repeat split; reflexivity. Qed.

(** With every entry requested the order is the reverse of the scores. *)
Lemma search_order_reversed :
  HistoryDatabase.search embed_ab hist_ab "a" 5 (fun _ => 1) (-1)
  = Ok [(None, "b"%string); (None, "a"%string)].
Proof. reflexivity. Qed.

Section HistoryAges.
Context {T : Type} `{Numeric T} {Meta : Type}.
Variable embed_dims : Z.
Variable embed : string -> list T.
Implicit Types s : HistoryDatabase.t T Meta.

#[local] Abbreviation append := (HistoryDatabase.append (Meta := Meta) embed).
#[local] Abbreviation step := (HistoryDatabase.step (T := T) (Meta := Meta)).
#[local] Abbreviation exec := (HistoryDatabase.exec (Meta := Meta) embed).
#[local] Abbreviation run := (HistoryDatabase.run (Meta := Meta) embed).
#[local] Abbreviation age := HistoryDatabase.age.
#[local] Abbreviation txt := HistoryDatabase.txt.

Lemma finite_append_cursor f item :
  HistoryDatabase.cursor_ok (Meta := Meta) f -> HistoryDatabase.cursor_ok (FiniteList.append item f).2.
Proof.
  destruct f as [m p d]. unfold HistoryDatabase.cursor_ok, FiniteList.append, FiniteList.len. simpl.
  intros [[Hm Hp]|(Hm & Hp & Hd)].
  - destruct (_ <? m); simpl.
    + destruct (m =? 0) eqn:E; [apply Z.eqb_eq in E; lia|].
      simpl. left. split; [done|]. apply Z.mod_pos_bound. lia.
    + destruct (py_setitem _ _ _); simpl; [|by left].
      destruct (m =? 0) eqn:E; [apply Z.eqb_eq in E; lia|].
      simpl. left. split; [done|]. apply Z.mod_pos_bound. lia.
  - subst. unfold zlen. simpl. change (Z.of_nat 0) with 0.
    destruct (0 <? m) eqn:E; [apply Z.ltb_lt in E; lia|].
    by right.
Qed.

(** What [append] does to the ages, whatever its outcome. *)
Lemma append_ages s text meta :
  0 <= FiniteList.pos (txt s) ->
  age (append text meta s).2 = age s
  \/ age (append text meta s).2 = <[Z.to_nat (FiniteList.pos (txt s)) := 0]> (age s).
Proof.
  intros Hp. unfold HistoryDatabase.append, bind, read, modify, gets, zoom, t_set, py_setitem.
  destruct (FiniteList.pos (txt s) <? 0) eqn:E; [apply Z.ltb_lt in E; lia|].
  destruct (_ || _); simpl; [by left|].
  destruct (TorchVectorIndex.add1 _ _ _ _ _) as [[u|e] i]; simpl; [|by right].
  destruct (FiniteList.append _ _) as [[u'|e] f]; simpl; by right.
Qed.

(** A call of [append] that returns has set the age at the cursor to 0. *)
Lemma append_resets_age s text meta s' :
  0 <= FiniteList.pos (txt s) ->
  append text meta s = (Ok (), s') ->
  age s' !! Z.to_nat (FiniteList.pos (txt s)) = Some 0.
Proof.
  intros Hp Happ. unfold HistoryDatabase.append in Happ. minv Happ.
  apply zoom_ok in H1 as (i & _ & ->). apply zoom_ok in Happ as (f & _ & ->).
  simpl. unfold t_set, py_setitem in H0.
  destruct (FiniteList.pos (txt s) <? 0) eqn:E; [apply Z.ltb_lt in E; lia|].
  rewrite E in H0.
  destruct (zlen (age s) <=? FiniteList.pos (txt s)) eqn:E2; simpl in H0; [done|].
  apply Z.leb_gt in E2. injection H0 as <-.
  apply list_lookup_insert_eq. unfold zlen in E2. lia.
Qed.

Lemma append_txt s text meta :
  txt (append text meta s).2 = txt s
  \/ txt (append text meta s).2 = (FiniteList.append (meta, text) (txt s)).2.
Proof.
  unfold HistoryDatabase.append, bind, read, modify, gets, zoom.
  destruct (t_set _ _ _); simpl; [|by left].
  destruct (TorchVectorIndex.add1 _ _ _ _ _) as [[u|e] i]; simpl; [|by left].
  destruct (FiniteList.append _ _) as [[u'|e] f]; simpl; by right.
Qed.

Lemma step_ages s :
  age (step s).2 = map (fun a => f32_of_Z (a + (if 0 <=? a then 1 else 0))) (age s)
  /\ txt (step s).2 = txt s.
Proof. done. Qed.

Lemma exec_ages_ok o s : HistoryDatabase.ages_ok s -> HistoryDatabase.ages_ok (exec o s).
Proof.
  intros [Ha Hc]. destruct o as [text meta| |]; simpl; [| |done].
  - split.
    + assert (Hp : 0 <= FiniteList.pos (txt s))
        by (destruct Hc as [[_ ?]|(_ & -> & _)]; lia).
      destruct (append_ages s text meta Hp) as [->| ->]; [done|].
      apply Forall_insert; [done|]. unfold HistoryDatabase.unset. lia.
    + destruct (append_txt s text meta) as [->| ->]; [done|].
      by apply finite_append_cursor.
  - split; [|done]. simpl. apply Forall_fmap. eapply Forall_impl; [exact Ha|].
    unfold HistoryDatabase.unset. simpl. intros a Hge.
    rewrite f32_step by lia. case_decide; lia.
Qed.

Lemma reachable_ages_ok s :
  HistoryDatabase.reachable embed_dims embed s -> HistoryDatabase.ages_ok s.
Proof.
  intros (maxlen & ops & ->). unfold HistoryDatabase.run.
  induction ops as [|o ops IH] using rev_ind.
  - split.
    + simpl. apply Forall_replicate. unfold HistoryDatabase.unset. lia.
    + unfold HistoryDatabase.cursor_ok. simpl.
      destruct (decide (0 < maxlen)); [left|right]; repeat split; lia.
  - rewrite foldl_app. simpl. by apply exec_ages_ok.
Qed.

(** A written slot stays written under one call. *)
Lemma exec_keeps_written o s i a :
  0 <= FiniteList.pos (txt s) ->
  age s !! i = Some a -> 0 <= a ->
  exists a', age (exec o s) !! i = Some a' /\ 0 <= a'.
Proof.
  intros Hp Hi Ha. destruct o as [text meta| |]; simpl; [| |eauto].
  - destruct (append_ages s text meta Hp) as [->| ->]; [eauto|].
    destruct (decide (i = Z.to_nat (FiniteList.pos (txt s)))) as [->|Hne].
    + exists 0. split; [|done]. apply list_lookup_insert_eq.
      by eapply lookup_lt_Some.
    + exists a. split; [|done]. by rewrite list_lookup_insert_ne.
  - exists (f32_of_Z (a + (if 0 <=? a then 1 else 0))). split.
    + by rewrite list_lookup_fmap, Hi.
    + apply f32_of_Z_nonneg. destruct (0 <=? a); lia.
Qed.

Lemma run_keeps_written ops s i a :
  HistoryDatabase.ages_ok s -> age s !! i = Some a -> 0 <= a ->
  exists a', age (run ops s) !! i = Some a' /\ 0 <= a'.
Proof.
  revert s a. induction ops as [|o ops IH]; intros s a Hok Hi Ha; simpl; [eauto|].
  assert (Hp : 0 <= FiniteList.pos (txt s))
    by (destruct Hok as [_ [[_ ?]|(_ & -> & _)]]; lia).
  destruct (exec_keeps_written o s i a Hp Hi Ha) as (a1 & Hi1 & Ha1).
  eapply IH; [by apply exec_ages_ok|exact Hi1|exact Ha1].
Qed.

End HistoryAges.

(** ** Running a method forward *)

Section Forward.
Context {St : Type}.

Lemma bind_eval {A B} (m : M St A) (k : A -> M St B) s a s1 :
  m s = (Ok a, s1) -> bind m k s = k a s1.
Proof. unfold bind. by intros ->. Qed.

Lemma bind_ret {A B} (a : A) (k : A -> M St B) s : bind (ret a) k s = k a s.
Proof. reflexivity. Qed.

Lemma bind_when_false {B} (m : M St unit) (k : unit -> M St B) s :
  bind (when false m) k s = k () s.
Proof. reflexivity. Qed.

Lemma when_true (m : M St unit) : when true m = m.
Proof. reflexivity. Qed.

Lemma bind_assoc {A B C} (m : M St A) (k1 : A -> M St B) (k2 : B -> M St C) s :
  bind (bind m k1) k2 s = bind m (fun a => bind (k1 a) k2) s.
Proof. unfold bind. by destruct (m s) as [[a|e] s1]. Qed.

Lemma bind_gets {A B} (f : St -> A) (k : A -> M St B) s : bind (gets f) k s = k (f s) s.
Proof. reflexivity. Qed.

Lemma bind_modify {B} (f : St -> St) (k : unit -> M St B) s :
  bind (modify f) k s = k () (f s).
Proof. reflexivity. Qed.

Lemma bind_read {A B} (f : St -> outcome A) (k : A -> M St B) s a :
  f s = Ok a -> bind (read f) k s = k a s.
Proof. unfold bind, read. by intros ->. Qed.

Lemma bind_lift {A B} (o : outcome A) (k : A -> M St B) s a :
  o = Ok a -> bind (lift o) k s = k a s.
Proof. unfold bind, lift. by intros ->. Qed.

Lemma bind_assert {B} (b : bool) (k : unit -> M St B) s :
  b = true -> bind (assert_ b) k s = k () s.
Proof. by intros ->. Qed.

Lemma bind_zoom {Sub A B} (proj : St -> Sub) (upd : Sub -> St -> St) (m : M Sub A)
    (k : A -> M St B) s a x :
  m (proj s) = (Ok a, x) -> bind (zoom proj upd m) k s = k a (upd x s).
Proof. unfold bind, zoom. by intros ->. Qed.

Lemma zoom_eval {Sub A} (proj : St -> Sub) (upd : Sub -> St -> St) (m : M Sub A) s a x :
  m (proj s) = (Ok a, x) -> zoom proj upd m s = (Ok a, upd x s).
Proof. unfold zoom. by intros ->. Qed.
End Forward.

Section TensorsForward.
Context {A : Type}.

Lemma zlen_nil : zlen (@nil A) = 0.
Proof. reflexivity. Qed.

Lemma zlen_singleton (x : A) : zlen [x] = 1.
Proof. reflexivity. Qed.

Lemma t_set_slice_eval (t : list A) lo hi src :
  0 <= lo <= hi -> hi <= zlen t -> zlen src = hi - lo ->
  t_set_slice t lo hi src = Ok (take (Z.to_nat lo) t ++ src ++ drop (Z.to_nat hi) t).
Proof.
  intros Hlo Hhi Hsrc. unfold t_set_slice.
  rewrite (Z.min_l lo), (Z.min_l hi), (Z.max_r lo hi) by lia.
  rewrite Hsrc, Z.eqb_refl. done.
Qed.

Lemma py_setitem_eval (t : list A) i x :
  0 <= i < zlen t -> py_setitem t i x = Ok (<[Z.to_nat i := x]> t).
Proof.
  intros Hi. unfold py_setitem. cbv zeta.
  assert (E1 : (i <? 0) = false) by (apply Z.ltb_ge; lia).
  assert (E2 : (zlen t <=? i) = false) by (apply Z.leb_gt; lia).
  rewrite E1. simpl. rewrite E1, E2. reflexivity.
Qed.

Lemma py_index_eval (t : list A) i x :
  t !! i = Some x -> py_index t (Z.of_nat i) = Ok x.
Proof.
  intros Hi. pose proof (lookup_lt_Some _ _ _ Hi) as Hlt. unfold py_index. cbv zeta.
  assert (E1 : (Z.of_nat i <? 0) = false) by (apply Z.ltb_ge; lia).
  assert (E2 : (zlen t <=? Z.of_nat i) = false) by (apply Z.leb_gt; unfold zlen; lia).
  rewrite E1. simpl. rewrite E1, E2. simpl. by rewrite Nat2Z.id, Hi.
Qed.

Lemma t_resize_lookup (fill : A) t n i :
  (i < length t)%nat -> Z.of_nat i < n -> t_resize fill t n !! i = t !! i.
Proof.
  intros Hi Hn. unfold t_resize.
  rewrite lookup_app_l by (rewrite length_take; lia).
  apply lookup_take_lt. lia.
Qed.
End TensorsForward.

(** ** Ring positions as labels *)

Lemma positions_S n :
  HistoryDatabase.positions (S n) = HistoryDatabase.positions n ++ [Z.of_nat n].
Proof. unfold HistoryDatabase.positions. by rewrite seq_S, map_app. Qed.

Lemma positions_length n : length (HistoryDatabase.positions n) = n.
Proof. unfold HistoryDatabase.positions. by rewrite length_map, length_seq. Qed.

Lemma positions_lookup n i :
  (i < n)%nat -> HistoryDatabase.positions n !! i = Some (Z.of_nat i).
Proof.
  intros Hi. unfold HistoryDatabase.positions. rewrite list_lookup_fmap.
  by rewrite (proj2 (lookup_seq 0 n i i)).
Qed.

Lemma elem_of_positions n p :
  p ∈ HistoryDatabase.positions n <-> 0 <= p < Z.of_nat n.
Proof.
  unfold HistoryDatabase.positions. rewrite list_elem_of_fmap.
  setoid_rewrite elem_of_seq. split.
  - intros (i & -> & Hi). lia.
  - intros Hp. exists (Z.to_nat p). lia.
Qed.

Lemma positions_NoDup n : NoDup (HistoryDatabase.positions n).
Proof.
  unfold HistoryDatabase.positions. apply NoDup_fmap_2; [|apply NoDup_seq].
  intros a b. lia.
Qed.

Lemma positions_find n i :
  (i < n)%nat ->
  list_find (fun y => y = Z.of_nat i) (HistoryDatabase.positions n)
  = Some (i, Z.of_nat i).
Proof.
  intros Hi. apply list_find_Some. split; [by apply positions_lookup|].
  split; [done|]. intros j y Hj Hlt ->.
  rewrite positions_lookup in Hj by lia. injection Hj. lia.
Qed.

Lemma list_intersection_single_out (l : list Z) p :
  p ∉ l -> list_intersection l [p] = [].
Proof.
  induction l as [|x l IH]; simpl; [done|]. intros Hn.
  apply not_elem_of_cons in Hn as [Hne Hn].
  destruct (decide_rel elem_of x [p]) as [Hin|_]; [|by apply IH].
  apply list_elem_of_singleton in Hin. congruence.
Qed.

Lemma list_intersection_single_in (l : list Z) p :
  NoDup l -> p ∈ l -> list_intersection l [p] = [p].
Proof.
  induction 1 as [|x l Hx Hnd IH]; [by intros ?%elem_of_nil|]. simpl.
  intros [->|Hin]%elem_of_cons.
  - destruct (decide_rel elem_of x [x]) as [_|Hn].
    + by rewrite list_intersection_single_out.
    + exfalso. apply Hn. by apply list_elem_of_singleton.
  - destruct (decide_rel elem_of x [p]) as [Hxp|_]; [|by apply IH].
    apply list_elem_of_singleton in Hxp. subst. done.
Qed.

Ltac index_fields :=
  cbn [TorchVectorIndex.labels TorchVectorIndex.values TorchVectorIndex.groups
       TorchVectorIndex.grpids TorchVectorIndex.set_groups TorchVectorIndex.set_values
       TorchVectorIndex.set_labels TorchVectorIndex.set_grpids
       QuantizedEmbedding.raw QuantizedEmbedding.dims
       OrderedSet.items OrderedSet._set] in *.

(** ** The index behind the history: labels are ring positions *)

Section PositionIndex.
Context {T : Type} `{Numeric T}.
Variable embed_dims : Z.
Implicit Types self : HistoryDatabase.index (T := T).

Lemma grpids_add_default (g : IndexDict.t (option string)) :
  g = [] \/ g = [(None, 0)] ->
  IndexDict.add g (One None) = [(None, 0)]
  /\ IndexDict.idx (IndexDict.add g (One None)) (One None) = Ok (One 0).
Proof. intros [->| ->]; split; reflexivity. Qed.

Lemma expand_eval self sz :
  0 < sz ->
  TorchVectorIndex.expand sz true self
  = (Ok (),
     if TorchVectorIndex.capacity self <? 2 ^ Z.log2_up sz then
       TorchVectorIndex.set_groups
         (t_resize 0 (TorchVectorIndex.groups self) (2 ^ Z.log2_up sz))
         (TorchVectorIndex.set_values
            (QuantizedEmbedding.resize (TorchVectorIndex.values self) (2 ^ Z.log2_up sz))
            self)
     else self).
Proof.
  intros Hsz. unfold TorchVectorIndex.expand, next_power_of_2.
  destruct (sz <=? 0) eqn:E; [apply Z.leb_le in E; lia|].
  unfold bind, lift, gets, when, modify. simpl.
  by destruct (_ <? _).
Qed.

Lemma splice_length {A} (t : list A) n x :
  Z.of_nat n + 1 <= zlen t ->
  zlen (take (Z.to_nat (Z.of_nat n)) t ++ [x] ++ drop (Z.to_nat (Z.of_nat n + 1)) t)
  = zlen t.
Proof.
  intros Hn. unfold zlen in *.
  rewrite !length_app, length_take, length_drop. simpl. lia.
Qed.

Lemma splice_lookup_at {A} (t : list A) n x :
  Z.of_nat n + 1 <= zlen t ->
  (take (Z.to_nat (Z.of_nat n)) t ++ [x] ++ drop (Z.to_nat (Z.of_nat n + 1)) t) !! n
  = Some x.
Proof.
  intros Hn. unfold zlen in *. rewrite Nat2Z.id.
  rewrite lookup_app_r by (rewrite length_take; lia).
  rewrite length_take. by replace (n - n `min` length t)%nat with 0%nat by lia.
Qed.

Lemma splice_lookup_before {A} (t : list A) n x i :
  Z.of_nat n + 1 <= zlen t -> (i < n)%nat ->
  (take (Z.to_nat (Z.of_nat n)) t ++ [x] ++ drop (Z.to_nat (Z.of_nat n + 1)) t) !! i
  = t !! i.
Proof.
  intros Hn Hi. unfold zlen in Hn. rewrite Nat2Z.id.
  rewrite lookup_app_l by (rewrite length_take; lia).
  by apply lookup_take_lt.
Qed.

Lemma t_scatter_single {A} (t : list A) i x :
  0 <= i < zlen t -> t_scatter t [i] [x] = Ok (<[Z.to_nat i := x]> t).
Proof.
  intros Hi. unfold t_scatter. simpl. unfold t_set.
  by rewrite py_setitem_eval.
Qed.

Lemma expand_spec self sz :
  0 < sz ->
  zlen (TorchVectorIndex.groups self)
  = zlen (QuantizedEmbedding.raw (TorchVectorIndex.values self)) ->
  exists s1,
    TorchVectorIndex.expand sz true self = (Ok (), s1)
    /\ TorchVectorIndex.labels s1 = TorchVectorIndex.labels self
    /\ TorchVectorIndex.grpids s1 = TorchVectorIndex.grpids self
    /\ QuantizedEmbedding.dims (TorchVectorIndex.values s1)
       = QuantizedEmbedding.dims (TorchVectorIndex.values self)
    /\ sz <= zlen (QuantizedEmbedding.raw (TorchVectorIndex.values s1))
    /\ zlen (TorchVectorIndex.groups s1)
       = zlen (QuantizedEmbedding.raw (TorchVectorIndex.values s1))
    /\ (forall i, (i < length (QuantizedEmbedding.raw (TorchVectorIndex.values self)))%nat ->
          QuantizedEmbedding.raw (TorchVectorIndex.values s1) !! i
          = QuantizedEmbedding.raw (TorchVectorIndex.values self) !! i).
Proof.
  intros Hsz Hg. eexists. split; [by apply expand_eval|].
  pose proof (next_power_of_2_ok sz (2 ^ Z.log2_up sz)) as Hp.
  unfold next_power_of_2 in Hp.
  destruct (sz <=? 0) eqn:E; [apply Z.leb_le in E; lia|].
  destruct (Hp eq_refl) as (_ & _ & Hle & _).
  unfold TorchVectorIndex.capacity, QuantizedEmbedding.size.
  destruct (_ <? _) eqn:E2; simpl.
  - apply Z.ltb_lt in E2. repeat split; try done.
    + rewrite t_resize_length; lia.
    + rewrite !t_resize_length; lia.
    + intros i Hi. apply t_resize_lookup; [done|]. unfold zlen in E2. lia.
  - apply Z.ltb_ge in E2. repeat split; try done. lia.
Qed.

Lemma add1_novel self n emb :
  HistoryDatabase.wf_index embed_dims n self ->
  zlen emb = embed_dims ->
  exists self',
    TorchVectorIndex.add1 (Z.of_nat n) emb (One None) false self = (Ok (), self')
    /\ HistoryDatabase.wf_index embed_dims (S n) self'
    /\ QuantizedEmbedding.raw (TorchVectorIndex.values self') !! n = Some emb
    /\ (forall i, (i < n)%nat ->
          QuantizedEmbedding.raw (TorchVectorIndex.values self') !! i
          = QuantizedEmbedding.raw (TorchVectorIndex.values self) !! i).
Proof.
  intros (Hi & Hs & Hdim & Hc & Hg & Hgi) Hd.
  destruct (grpids_add_default _ Hgi) as [Hga Hgx].
  assert (Hex : OrderedSet.intersection (TorchVectorIndex.labels self) (py_set [Z.of_nat n]) = []).
  { unfold OrderedSet.intersection. rewrite Hs.
    apply list_intersection_single_out. rewrite elem_of_positions. lia. }
  assert (Hnov : list_difference (py_set [Z.of_nat n]) [] = [Z.of_nat n]) by reflexivity.
  assert (Hloc : TorchVectorIndex.located [Z.of_nat n] [Z.of_nat n] = [(0, Z.of_nat n)]).
  { unfold TorchVectorIndex.located, enumerate. simpl.
    rewrite filter_cons_True; [done|]. simpl. by apply list_elem_of_singleton. }
  set (s0 := TorchVectorIndex.set_grpids
               (IndexDict.add (TorchVectorIndex.grpids self) (One None)) self).
  assert (Hsize : TorchVectorIndex.size s0 = Z.of_nat n).
  { unfold TorchVectorIndex.size, OrderedSet.len, zlen. simpl.
    by rewrite Hi, positions_length. }
  destruct (expand_spec s0 (Z.of_nat n + 1)) as (s1 & Hexp & Hl1 & Hg1 & Hd1 & Hc1 & Hgl1 & Hpre);
    [lia|exact Hg|].
  assert (Hext : OrderedSet.extend [Z.of_nat n] (TorchVectorIndex.labels s1)
                 = (Ok (), {| OrderedSet.items := HistoryDatabase.positions (S n);
                              OrderedSet._set := HistoryDatabase.positions (S n) |})).
  { unfold OrderedSet.extend, OrderedSet.isdisjoint. rewrite Hl1. simpl. rewrite Hs, Hi.
    rewrite bool_decide_eq_false_2 by (rewrite elem_of_positions; lia). simpl.
    rewrite positions_S. do 2 f_equal.
    change (py_set [Z.of_nat n]) with [Z.of_nat n]. simpl.
    destruct (decide_rel elem_of (Z.of_nat n) (HistoryDatabase.positions n)) as [Hin|_]; [|done].
    apply elem_of_positions in Hin. lia. }
  eexists. split; [|split; [|split]].
  - unfold TorchVectorIndex.add1, TorchVectorIndex.add.
    cbn [rows cols].
    rewrite bind_gets, bind_assert by reflexivity.
    rewrite bind_assert by (apply Z.eqb_eq; lia).
    rewrite bind_gets, !Hex, !Hnov, !Hloc.
    change (zlen (@nil Z)) with 0. change (zlen [Z.of_nat n]) with 1.
    change (0 <? 0) with false. change (0 <? 1) with true. cbn [andb].
    rewrite bind_modify. fold s0. rewrite (bind_read _ _ _ (One 0)) by (simpl; exact Hgx).
    rewrite bind_when_false, when_true.
    rewrite bind_gets, Hsize.
    rewrite (bind_eval _ _ _ _ _ Hexp).
    rewrite (bind_zoom _ _ _ _ _ _ _ Hext).
    rewrite (bind_lift _ _ _ [emb]) by reflexivity.
    erewrite bind_read; [|unfold QuantizedEmbedding.setitem_slice; simpl;
      rewrite t_set_slice_eval by (rewrite ?zlen_singleton; lia); reflexivity].
    rewrite bind_modify.
    rewrite (bind_lift _ _ _ [0]) by reflexivity.
    erewrite bind_read; [|simpl;
      rewrite t_set_slice_eval by (rewrite ?zlen_singleton; lia); reflexivity].
    reflexivity.
  - unfold HistoryDatabase.wf_index. index_fields.
    rewrite !splice_length by lia.
    repeat split; [rewrite Hd1; exact Hdim|lia|lia|].
    right. rewrite Hg1. exact Hga.
  - index_fields. apply splice_lookup_at. lia.
  - intros i Hlt. index_fields. rewrite splice_lookup_before by (done || lia).
    apply Hpre. unfold s0. index_fields. unfold zlen in Hc. lia.
Qed.

Lemma add1_update self n p emb :
  HistoryDatabase.wf_index embed_dims n self ->
  zlen emb = embed_dims ->
  (p < n)%nat ->
  exists self',
    TorchVectorIndex.add1 (Z.of_nat p) emb (One None) false self = (Ok (), self')
    /\ HistoryDatabase.wf_index embed_dims n self'
    /\ QuantizedEmbedding.raw (TorchVectorIndex.values self')
       = <[p := emb]> (QuantizedEmbedding.raw (TorchVectorIndex.values self)).
Proof.
  intros (Hi & Hs & Hdim & Hc & Hg & Hgi) Hd Hp.
  destruct (grpids_add_default _ Hgi) as [Hga Hgx].
  assert (Hex : OrderedSet.intersection (TorchVectorIndex.labels self) (py_set [Z.of_nat p])
                = [Z.of_nat p]).
  { unfold OrderedSet.intersection. rewrite Hs.
    apply list_intersection_single_in; [apply positions_NoDup|].
    rewrite elem_of_positions. lia. }
  assert (Hnov : list_difference (py_set [Z.of_nat p]) [Z.of_nat p] = []).
  { change (py_set [Z.of_nat p]) with [Z.of_nat p]. simpl.
    destruct (decide_rel elem_of (Z.of_nat p) [Z.of_nat p]) as [_|Hn]; [done|].
    exfalso. apply Hn. by apply list_elem_of_singleton. }
  assert (Hloc : TorchVectorIndex.located [Z.of_nat p] [Z.of_nat p] = [(0, Z.of_nat p)]).
  { unfold TorchVectorIndex.located, enumerate. simpl.
    rewrite filter_cons_True; [done|]. simpl. by apply list_elem_of_singleton. }
  set (s0 := TorchVectorIndex.set_grpids
               (IndexDict.add (TorchVectorIndex.grpids self) (One None)) self).
  eexists. split; [|split].
  - unfold TorchVectorIndex.add1, TorchVectorIndex.add.
    cbn [rows cols].
    rewrite bind_gets, bind_assert by reflexivity.
    rewrite bind_assert by (apply Z.eqb_eq; lia).
    rewrite bind_gets, !Hex, !Hnov, !Hloc.
    change (zlen (@nil Z)) with 0. change (zlen [Z.of_nat p]) with 1.
    change (0 <? 0) with false. change (0 <? 1) with true. cbn [andb].
    rewrite bind_modify. fold s0. rewrite (bind_read _ _ _ (One 0)) by (simpl; exact Hgx).
    rewrite when_true. unfold when. rewrite bind_assoc.
    erewrite bind_read;
      [|simpl; unfold OrderedSet.index; index_fields;
        rewrite Hi, positions_find by done; reflexivity].
    cbn [fmap list_fmap fst snd].
    rewrite !bind_assoc.
    rewrite (bind_lift _ _ _ [emb]) by reflexivity.
    rewrite !bind_assoc.
    erewrite bind_read;
      [|unfold QuantizedEmbedding.setitem; unfold s0; index_fields;
        rewrite t_scatter_single by lia; reflexivity].
    rewrite !bind_assoc, bind_modify.
    rewrite !bind_assoc, (bind_lift _ _ _ [0]) by reflexivity.
    rewrite !bind_assoc.
    erewrite bind_read;
      [|unfold s0; index_fields; rewrite t_scatter_single by lia; reflexivity].
    rewrite bind_modify. reflexivity.
  - unfold HistoryDatabase.wf_index, s0. index_fields.
    unfold zlen in *. rewrite !length_insert.
    repeat split; [done..|]. right. exact Hga.
  - unfold s0. index_fields. by rewrite Nat2Z.id.
Qed.
End PositionIndex.

(** ** Well-formed histories *)

Section FilterFacts.
Context {A : Type} (P : A -> Prop) `{forall x, Decision (P x)}.

Lemma filter_all (l : list A) : Forall P l -> filter P l = l.
Proof.
  induction 1 as [|x l Hx _ IH]; [done|].
  by rewrite filter_cons_True, IH.
Qed.

Lemma filter_none (l : list A) : Forall (fun x => ~ P x) l -> filter P l = [].
Proof.
  induction 1 as [|x l Hx _ IH]; [done|].
  by rewrite filter_cons_False, IH.
Qed.
End FilterFacts.

Section RingAppend.
Context {A : Type}.
Implicit Types f : FiniteList.t A.

Lemma fl_append_grow f item :
  FiniteList.len f < FiniteList.max f ->
  FiniteList.append item f
  = (Ok (), {| FiniteList.max := FiniteList.max f;
               FiniteList.pos := (FiniteList.pos f + 1) mod FiniteList.max f;
               FiniteList.data := FiniteList.data f ++ [item] |}).
Proof.
  intros Hlt. unfold FiniteList.append.
  assert (E1 : (FiniteList.len f <? FiniteList.max f) = true) by (apply Z.ltb_lt; lia).
  assert (E2 : (FiniteList.max f =? 0) = false).
  { apply Z.eqb_neq. unfold FiniteList.len, zlen in Hlt. lia. }
  by rewrite E1, E2.
Qed.

Lemma fl_append_over f item :
  FiniteList.len f = FiniteList.max f ->
  0 <= FiniteList.pos f < FiniteList.max f ->
  FiniteList.append item f
  = (Ok (), {| FiniteList.max := FiniteList.max f;
               FiniteList.pos := (FiniteList.pos f + 1) mod FiniteList.max f;
               FiniteList.data := <[Z.to_nat (FiniteList.pos f) := item]> (FiniteList.data f) |}).
Proof.
  intros Hfull Hp. unfold FiniteList.append.
  assert (E1 : (FiniteList.len f <? FiniteList.max f) = false) by (apply Z.ltb_ge; lia).
  assert (E2 : (FiniteList.max f =? 0) = false) by (apply Z.eqb_neq; lia).
  rewrite E1, py_setitem_eval by (unfold FiniteList.len in Hfull; lia).
  by rewrite E2.
Qed.
End RingAppend.

Ltac entry_lia := unfold HistoryDatabase.entry in *; lia.

Section HistoryWf.
Context {T : Type} `{Numeric T} {Meta : Type}.
Variable embed_dims : Z.
Variable embed : string -> list T.
Hypothesis embed_dims_ok : HistoryDatabase.embed_ok embed_dims embed.
Implicit Types s : HistoryDatabase.t T Meta.

#[local] Abbreviation wf := (HistoryDatabase.wf (Meta := Meta) embed_dims embed).
#[local] Abbreviation append := (HistoryDatabase.append (Meta := Meta) embed).
#[local] Abbreviation step := (HistoryDatabase.step (T := T) (Meta := Meta)).
#[local] Abbreviation age := HistoryDatabase.age.
#[local] Abbreviation txt := HistoryDatabase.txt.
#[local] Abbreviation idx := HistoryDatabase.idx.
#[local] Abbreviation rows_of s :=
  (QuantizedEmbedding.raw (TorchVectorIndex.values (HistoryDatabase.idx s))).

Lemma init_wf maxlen : 0 < maxlen -> wf (HistoryDatabase.init embed_dims maxlen).
Proof.
  intros Hm. unfold HistoryDatabase.wf, HistoryDatabase.init. simpl.
  split_and!; try done; try lia.
  - unfold zlen. rewrite length_replicate. lia.
  - intros i a [-> _]%lookup_replicate. done.
  - unfold HistoryDatabase.wf_index. simpl. split_and!; try done.
    + unfold zlen. lia.
    + unfold zlen. by rewrite !length_replicate.
    + by left.
Qed.

Lemma step_wf s : wf s -> wf (step s).2.
Proof.
  unfold HistoryDatabase.wf. simpl.
  intros (Hm & Hfm & Hn & Hp & Hpn & Hal & Hage & Hidx & Hrow).
  split_and!; try done; try lia.
  - unfold zlen in *. by rewrite length_map.
  - intros i a Hi. rewrite list_lookup_fmap in Hi.
    destruct (age s !! i) as [a0|] eqn:E; [|done]. simpl in Hi.
    injection Hi as <-. specialize (Hage i a0 E).
    destruct (decide (i < _)%nat).
    + apply f32_of_Z_nonneg. destruct (0 <=? a0); lia.
    + subst a0. done.
Qed.

Lemma append_wf s text meta :
  wf s ->
  exists s',
    append text meta s = (Ok (), s')
    /\ wf s'
    /\ age s' = <[Z.to_nat (FiniteList.pos (txt s)) := 0]> (age s)
    /\ rows_of s' !! Z.to_nat (FiniteList.pos (txt s)) = Some (embed text)
    /\ (Z.to_nat (FiniteList.pos (txt s)) < length (FiniteList.data (txt s')))%nat.
Proof.
  intros (Hm & Hfm & Hn & Hp & Hpn & Hal & Hage & Hidx & Hrow).
  set (n := length (FiniteList.data (txt s))) in *.
  assert (Hnl : length (FiniteList.data (txt s)) = n) by done.
  clearbody n.
  set (p := Z.to_nat (FiniteList.pos (txt s))).
  assert (Hpz : FiniteList.pos (txt s) = Z.of_nat p) by (unfold p; lia).
  assert (Hage1 : t_set (age s) (FiniteList.pos (txt s)) 0 = Ok (<[p := 0]> (age s))).
  { unfold t_set. rewrite py_setitem_eval by entry_lia. done. }
  destruct (decide (Z.of_nat n < HistoryDatabase.max s)) as [Hlt|Hfull].
  - (* the buffer grows: a new label *)
    assert (Hpn' : p = n) by (specialize (Hpn Hlt); lia).
    destruct (add1_novel embed_dims (idx s) n (embed text) Hidx (embed_dims_ok text))
      as (i' & Hadd & Hidx' & Hat & Hbefore).
    eexists. split; [|split; [|split; [|split]]].
    + unfold HistoryDatabase.append.
      erewrite bind_read; [|exact Hage1].
      rewrite bind_modify, bind_gets.
      erewrite bind_zoom; [|simpl; rewrite Hpz, Hpn'; exact Hadd].
      apply zoom_eval. simpl. apply fl_append_grow.
      unfold FiniteList.len, zlen. rewrite ?Hnl. entry_lia.
    + unfold HistoryDatabase.wf. simpl. rewrite length_app. simpl.
      rewrite ?Hnl. rewrite Hfm.
      assert (Hpos : 0 <= (FiniteList.pos (txt s) + 1) mod HistoryDatabase.max s
                          < HistoryDatabase.max s) by (apply Z.mod_pos_bound; lia).
      split_and!; try done; try entry_lia.
      * intros Hlt2. rewrite Hpz, Hpn'. rewrite Z.mod_small; entry_lia.
      * unfold zlen in *. by rewrite length_insert.
      * intros i a Hi.
        destruct (decide (i = p)) as [->|Hne].
        -- rewrite list_lookup_insert_eq in Hi
             by (unfold zlen in Hal; lia).
           injection Hi as <-. destruct (decide (p < n + 1)%nat); entry_lia.
        -- rewrite list_lookup_insert_ne in Hi by done.
           specialize (Hage i a Hi).
           destruct (decide (i < n)%nat); destruct (decide (i < n + 1)%nat); entry_lia.
      * by replace (n + 1)%nat with (S n) by entry_lia.
      * intros i e [[Hin Hi]|[-> <-]]%lookup_snoc_Some.
        -- rewrite Hbefore by entry_lia. by apply Hrow.
        -- simpl. rewrite <- Hat. f_equal. entry_lia.
    + done.
    + simpl. rewrite Hpn'. exact Hat.
    + simpl. rewrite length_app. simpl. rewrite ?Hnl. entry_lia.
  - (* the buffer is full: the label exists *)
    assert (Hnm : Z.of_nat n = HistoryDatabase.max s) by entry_lia.
    assert (Hpn' : (p < n)%nat) by entry_lia.
    destruct (add1_update embed_dims (idx s) n p (embed text) Hidx (embed_dims_ok text) Hpn')
      as (i' & Hadd & Hidx' & Hraw).
    eexists. split; [|split; [|split; [|split]]].
    + unfold HistoryDatabase.append.
      erewrite bind_read; [|exact Hage1].
      rewrite bind_modify, bind_gets.
      erewrite bind_zoom; [|simpl; rewrite Hpz; exact Hadd].
      apply zoom_eval. simpl. apply fl_append_over.
      * unfold FiniteList.len, zlen. rewrite ?Hnl. entry_lia.
      * entry_lia.
    + unfold HistoryDatabase.wf. simpl. rewrite length_insert.
      rewrite ?Hnl. rewrite Hfm.
      assert (Hpos : 0 <= (FiniteList.pos (txt s) + 1) mod HistoryDatabase.max s
                          < HistoryDatabase.max s) by (apply Z.mod_pos_bound; lia).
      split_and!; try done; try entry_lia.
      * unfold zlen in *. by rewrite length_insert.
      * intros i a Hi.
        destruct (decide (i = p)) as [->|Hne].
        -- rewrite list_lookup_insert_eq in Hi
             by (unfold zlen in Hal; lia).
           injection Hi as <-. destruct (decide (p < n)%nat); entry_lia.
        -- rewrite list_lookup_insert_ne in Hi by done.
           by apply Hage.
      * intros i e Hi. rewrite Hraw. fold p in Hi.
        destruct (decide (i = p)) as [->|Hne].
        -- rewrite list_lookup_insert_eq in Hi by entry_lia.
           injection Hi as <-.
           apply list_lookup_insert_eq.
           destruct Hidx as (_ & _ & _ & Hcap & _). unfold zlen in Hcap. entry_lia.
        -- rewrite list_lookup_insert_ne in Hi by done.
           rewrite list_lookup_insert_ne by done. by apply Hrow.
    + done.
    + simpl. rewrite Hraw. apply list_lookup_insert_eq.
      destruct Hidx as (_ & _ & _ & Hcap & _). unfold zlen in Hcap. entry_lia.
    + simpl. rewrite length_insert. rewrite ?Hnl. entry_lia.
Qed.
End HistoryWf.

Section KeepsZoom.
Context {St Sub : Type} (R : St -> St -> Prop).

Lemma keeps_zoom {A} (proj : St -> Sub) (upd : Sub -> St -> St) (m : M Sub A) :
  (forall x s, R s (upd x s)) -> keeps R (zoom proj upd m).
Proof. intros Hu s. unfold zoom. destruct (m (proj s)) as [r x]. simpl. apply Hu. Qed.
End KeepsZoom.

Section HistoryScores.
Context {T : Type} `{Numeric T} {Meta : Type}.
Variable embed_dims : Z.
Variable embed : string -> list T.
Hypothesis embed_dims_ok : HistoryDatabase.embed_ok embed_dims embed.
Implicit Types s : HistoryDatabase.t T Meta.

#[local] Abbreviation wf := (HistoryDatabase.wf (Meta := Meta) embed_dims embed).
#[local] Abbreviation exec := (HistoryDatabase.exec (Meta := Meta) embed).
#[local] Abbreviation run := (HistoryDatabase.run (Meta := Meta) embed).
#[local] Abbreviation age := HistoryDatabase.age.
#[local] Abbreviation txt := HistoryDatabase.txt.
#[local] Abbreviation rows_of s :=
  (QuantizedEmbedding.raw (TorchVectorIndex.values (HistoryDatabase.idx s))).

Lemma exec_wf o s : wf s -> wf (exec o s).
Proof.
  intros Hwf. destruct o as [text meta| |]; simpl; [| |done].
  - destruct (append_wf embed_dims embed embed_dims_ok s text meta Hwf)
      as (s' & -> & Hwf' & _). done.
  - by apply step_wf.
Qed.

Lemma run_wf ops s : wf s -> wf (run ops s).
Proof.
  revert s. induction ops as [|o ops IH]; intros s Hwf; simpl; [done|].
  apply IH. by apply exec_wf.
Qed.

Lemma exec_max o s : HistoryDatabase.max (exec o s) = HistoryDatabase.max s.
Proof.
  destruct o as [text meta| |]; simpl; [|done..].
  assert (Hpre : PreOrder (fun a b : HistoryDatabase.t T Meta =>
                    HistoryDatabase.max b = HistoryDatabase.max a)).
  { split; [by intros ?|]. intros a b c. simpl. congruence. }
  enough (Hk : keeps (fun a b : HistoryDatabase.t T Meta =>
                HistoryDatabase.max b = HistoryDatabase.max a)
                (HistoryDatabase.append embed text meta)) by apply Hk.
  unfold HistoryDatabase.append.
  repeat first
    [ apply keeps_bind; [done| |intros ?]
    | by apply keeps_gets
    | by apply keeps_read
    | apply keeps_modify; intros ?; reflexivity
    | apply keeps_zoom; intros ? ?; reflexivity ].
Qed.

Lemma run_max ops s : HistoryDatabase.max (run ops s) = HistoryDatabase.max s.
Proof.
  revert s. induction ops as [|o ops IH]; intros s; simpl; [done|].
  by rewrite IH, exec_max.
Qed.

Lemma reachable_wf s :
  HistoryDatabase.reachable embed_dims embed s -> 0 < HistoryDatabase.max s -> wf s.
Proof.
  intros (maxlen & ops & ->) Hm. rewrite run_max in Hm. simpl in Hm.
  apply run_wf. by apply init_wf.
Qed.

Lemma filter_ages s :
  wf s ->
  filter (fun a => 0 <= a) (age s)
  = take (length (FiniteList.data (txt s))) (age s).
Proof.
  intros (_ & _ & _ & _ & _ & _ & Hage & _).
  set (n := length (FiniteList.data (txt s))) in *.
  rewrite <- (take_drop n (age s)) at 1. rewrite filter_app.
  rewrite filter_all, filter_none; [by rewrite app_nil_r| |].
  - apply Forall_forall. intros a [j Hj]%list_elem_of_lookup.
    rewrite lookup_drop in Hj. specialize (Hage _ _ Hj).
    destruct (decide (n + j < n)%nat); [lia|].
    unfold HistoryDatabase.unset in Hage. lia.
  - apply Forall_forall. intros a (j & Hj & Hlt)%elem_of_take.
    specialize (Hage _ _ Hj). by destruct (decide (j < n)%nat).
Qed.

(** On a well-formed history the tensor [sim] of [search] is the
    elementwise product of the weights of the ages and the raw
    similarities, slot by slot. *)
Lemma decayed_wf s query disco :
  wf s ->
  HistoryDatabase.decayed embed s query disco
  = Ok (zip_with smul
          (map disco (take (length (FiniteList.data (txt s))) (age s)))
          (map (dot (embed query))
               (take (length (FiniteList.data (txt s))) (rows_of s)))).
Proof.
  intros Hwf. pose proof (filter_ages s Hwf) as Hfil.
  destruct Hwf as (Hm & _ & Hn & _ & _ & Hal & _ & Hidx & _).
  destruct Hidx as (Hi & _ & _ & Hcap & _).
  set (n := length (FiniteList.data (txt s))) in *.
  assert (Hsize : TorchVectorIndex.size (HistoryDatabase.idx s) = Z.of_nat n).
  { unfold TorchVectorIndex.size, OrderedSet.len, zlen.
    by rewrite Hi, positions_length. }
  unfold HistoryDatabase.decayed. rewrite Hfil.
  unfold TorchVectorIndex.simil, QuantizedEmbedding.similarity.
  rewrite Hsize, py_slice_prefix by lia. cbn [obind map].
  rewrite Nat2Z.id. unfold t_mul.
  assert (Hlen : zlen (map disco (take n (HistoryDatabase.age s)))
                 = zlen (map (dot (embed query))
                           (take n (QuantizedEmbedding.raw
                              (TorchVectorIndex.values (HistoryDatabase.idx s)))))).
  { unfold zlen in *. rewrite !length_map, !length_take. lia. }
  by rewrite Hlen, Z.eqb_refl.
Qed.

Lemma decayed_lookup s query disco p a row :
  wf s -> (p < length (FiniteList.data (txt s)))%nat ->
  age s !! p = Some a -> rows_of s !! p = Some row ->
  exists sims,
    HistoryDatabase.decayed embed s query disco = Ok sims
    /\ sims !! p = Some (smul (disco a) (dot (embed query) row)).
Proof.
  intros Hwf Hp Ha Hrow. eexists. split; [by apply decayed_wf|].
  rewrite lookup_zip_with, !list_lookup_fmap, !lookup_take_lt by done.
  by rewrite Ha, Hrow.
Qed.

(** After [k] calls of [step] a set age has grown by [k], up to
    [2^24] where it stays; the buffer and the index are as before. *)
Lemma steps_age k s p a :
  age s !! p = Some a -> 0 <= a <= 2 ^ 24 ->
  age (run (replicate k HistoryDatabase.OpStep) s) !! p
  = Some (Z.min (a + Z.of_nat k) (2 ^ 24))
  /\ txt (run (replicate k HistoryDatabase.OpStep) s) = txt s
  /\ HistoryDatabase.idx (run (replicate k HistoryDatabase.OpStep) s)
     = HistoryDatabase.idx s.
Proof.
  revert s a. induction k as [|k IH]; intros s a Ha Hge.
  - simpl. split; [|done]. rewrite Ha. f_equal. lia.
  - change (run (replicate (S k) HistoryDatabase.OpStep) s)
      with (run (replicate k HistoryDatabase.OpStep) (HistoryDatabase.step s).2).
    destruct (IH (HistoryDatabase.step s).2 (Z.min (a + 1) (2 ^ 24)))
      as (Hage & Htxt & Hidx).
    + simpl. rewrite list_lookup_fmap, Ha. simpl.
      rewrite f32_step by lia. by case_decide; [lia|].
    + lia.
    + rewrite Hage, Htxt, Hidx. split; [|done]. f_equal. lia.
Qed.
End HistoryScores.

(** ** Exponential decay *)

Ltac real_ops := cbn [dot sadd smul szero R_numeric foldr zip_with] in *.

Lemma f32_0 : f32 0 = 0%R.
Proof. apply f32_exact. apply (is_f32_Z 0). reflexivity. Qed.

Lemma f32_1 : f32 1 = 1%R.
Proof. apply f32_exact. apply (is_f32_Z 1). reflexivity. Qed.

Lemma exp_le_1 x : (x <= 0)%R -> (exp x <= 1)%R.
Proof.
  intros Hx. rewrite <- exp_0. destruct (Req_dec x 0) as [->|Hne]; [lra|].
  left. apply exp_increasing. lra.
Qed.

(** The correctly rounded exponential is faithful. *)
Lemma exp32_faithful : faithful_exp exp32.
Proof.
  intros x lo hi Hlo Hhi [Hl Hh]. unfold exp32. split.
  - by apply f32_ge_exact.
  - by apply f32_le_exact.
Qed.

Section FaithfulExp.
Variable texp : R -> R.
Hypothesis texp_faithful : faithful_exp texp.

Lemma texp_below x y : is_f32 y -> (exp x <= y)%R -> (0 <= texp x <= y)%R.
Proof.
  intros Hy Hx. apply texp_faithful; [apply (is_f32_Z 0); reflexivity|done|].
  split; [left; apply exp_pos|done].
Qed.

(** A faithful routine is one the decay can use. *)
Lemma faithful_decay_exp : decay_exp texp.
Proof.
  pose proof (is_f32_Z 1 ltac:(reflexivity)) as H1. split.
  - destruct (texp_faithful 0%R 1%R 1%R H1 H1); [rewrite exp_0; lra|lra].
  - intros x Hx. apply texp_below; [done|]. by apply exp_le_1.
Qed.
End FaithfulExp.

Section DecayWeights.
Variable texp : R -> R.
Hypothesis texp_ok : decay_exp texp.

(** The rounded exponent of the decay is never positive. *)
Lemma decay_exponent rate a :
  (0 < rate)%R -> 0 <= a -> (f32 (f32 (- rate) * IZR a) <= 0)%R.
Proof.
  intros Hr Ha.
  pose proof (is_f32_Z 0 ltac:(reflexivity)) as H0.
  assert (Hn : (f32 (- rate) <= 0)%R) by (apply f32_le_exact; [done|lra]).
  apply f32_le_exact; [done|]. apply IZR_le in Ha. nra.
Qed.

(** The weight of the age 0 is exactly 1; every weight lies in [0, 1]. *)
Lemma exp_disco_fresh rate : exp_disco texp rate 0 = 1%R.
Proof.
  unfold exp_disco. rewrite Rmult_0_r, f32_0. apply texp_ok.
Qed.

Lemma exp_disco_unit rate a :
  (0 < rate)%R -> 0 <= a -> (0 <= exp_disco texp rate a <= 1)%R.
Proof.
  intros Hr Ha. unfold exp_disco. apply texp_ok. by apply decay_exponent.
Qed.

(** A rate so small that the exponent rounds to zero has no effect. *)
Lemma exp_disco_vanishing rate a :
  f32 (f32 (- rate) * IZR a) = 0%R -> exp_disco texp rate a = 1%R.
Proof. intros Hz. unfold exp_disco. rewrite Hz. apply texp_ok. Qed.
End DecayWeights.

(** A similarity computed in float32 is a float32. *)
Lemma dot32_is_f32 (u v : list R) : is_f32 (dot (H := F32_numeric) u v).
Proof.
  unfold dot. destruct (zip_with smul u v) as [|x l]; simpl.
  - apply (is_f32_Z 0). reflexivity.
  - apply f32_is_f32.
Qed.

Lemma exp32_decay : decay_exp exp32.
Proof. apply faithful_decay_exp, exp32_faithful. Qed.

Section FreshScores.
Context {T : Type} `{Numeric T} {Meta : Type}.
Variable embed_dims : Z.
Variable embed : string -> list T.
Hypothesis embed_dims_ok : HistoryDatabase.embed_ok embed_dims embed.
Implicit Types s : HistoryDatabase.t T Meta.

(** The score of a fresh entry, right after [append] and after [k]
    further calls of [step]: the weight of the age 0, and of the age
    [k], times the raw similarity of the entry with the query. *)
Lemma append_steps_scores s text meta query disco k :
  HistoryDatabase.wf embed_dims embed s ->
  Z.of_nat k <= 2 ^ 24 ->
  exists s1 sims1 simsk,
    HistoryDatabase.append embed text meta s = (Ok (), s1)
    /\ HistoryDatabase.decayed embed s1 query disco = Ok sims1
    /\ HistoryDatabase.decayed embed
         (HistoryDatabase.run embed (replicate k HistoryDatabase.OpStep) s1) query disco
       = Ok simsk
    /\ sims1 !! Z.to_nat (FiniteList.pos (HistoryDatabase.txt s))
       = Some (smul (disco 0%Z) (dot (embed query) (embed text)))
    /\ simsk !! Z.to_nat (FiniteList.pos (HistoryDatabase.txt s))
       = Some (smul (disco (Z.of_nat k)) (dot (embed query) (embed text))).
Proof.
  intros Hwf Hk.
  destruct (append_wf embed_dims embed embed_dims_ok s text meta Hwf)
    as (s1 & Happ & Hwf1 & Hage & Hrow & Hp).
  set (p := Z.to_nat (FiniteList.pos (HistoryDatabase.txt s))) in *.
  assert (Ha0 : HistoryDatabase.age s1 !! p = Some 0).
  { rewrite Hage. apply list_lookup_insert_eq.
    destruct Hwf as (_ & _ & _ & Hpos & _ & Hal & _). unfold zlen in Hal. lia. }
  destruct (steps_age embed k s1 p 0 Ha0) as (Hak & Htk & Hik); [lia|].
  replace (Z.min (0 + Z.of_nat k) (2 ^ 24)) with (Z.of_nat k) in Hak by lia.
  set (sk := HistoryDatabase.run embed (replicate k HistoryDatabase.OpStep) s1) in *.
  assert (Hwfk : HistoryDatabase.wf embed_dims embed sk)
    by (by apply run_wf).
  destruct (decayed_lookup embed_dims embed s1 query disco p 0 (embed text) Hwf1 Hp Ha0 Hrow)
    as (sims1 & Hd1 & Hl1).
  destruct (decayed_lookup embed_dims embed sk query disco p (Z.of_nat k) (embed text) Hwfk)
    as (simsk & Hdk & Hlk).
  { by rewrite Htk. }
  { exact Hak. }
  { by rewrite Hik. }
  exists s1, sims1, simsk. split_and!; done.
Qed.
End FreshScores.

Section ExponentialDecay.
Context {Meta : Type}.
Variable embed_dims : Z.
Variable embed : string -> list R.
Hypothesis embed_dims_ok : HistoryDatabase.embed_ok embed_dims embed.
Variable texp : R -> R.
Hypothesis texp_ok : decay_exp texp.
Implicit Types s : HistoryDatabase.t R Meta.

#[local] Abbreviation append32 := (HistoryDatabase.append (H := F32_numeric) (Meta := Meta) embed).
#[local] Abbreviation decayed32 := (HistoryDatabase.decayed (H := F32_numeric) (Meta := Meta) embed).
#[local] Abbreviation run32 := (HistoryDatabase.run (H := F32_numeric) (Meta := Meta) embed).
#[local] Abbreviation dot32 := (dot (H := F32_numeric)).

(** The float32 scores of a fresh entry under the default decay: the
    raw similarity right after [append], and the rounded product of
    the weight and the raw similarity after [k] calls of [step]. *)
Lemma decay_scores s text meta query (rate : R) k :
  HistoryDatabase.wf embed_dims embed s ->
  Z.of_nat k <= 2 ^ 24 ->
  exists s1 sims1 simsk,
    append32 text meta s = (Ok (), s1)
    /\ decayed32 s1 query (disco_of texp (DiscFloat rate)) = Ok sims1
    /\ decayed32 (run32 (replicate k HistoryDatabase.OpStep) s1) query
         (disco_of texp (DiscFloat rate))
       = Ok simsk
    /\ sims1 !! Z.to_nat (FiniteList.pos (HistoryDatabase.txt s))
       = Some (dot32 (embed query) (embed text))
    /\ simsk !! Z.to_nat (FiniteList.pos (HistoryDatabase.txt s))
       = Some (f32 (exp_disco texp rate (Z.of_nat k) * dot32 (embed query) (embed text))).
Proof.
  intros Hwf Hk.
  destruct (append_steps_scores (H := F32_numeric) embed_dims embed embed_dims_ok
              s text meta query (exp_disco texp rate) k Hwf Hk)
    as (s1 & sims1 & simsk & Happ & Hd1 & Hdk & Hl1 & Hlk).
  exists s1, sims1, simsk. split_and!; try done.
  rewrite Hl1. f_equal. cbn [smul F32_numeric].
  rewrite (exp_disco_fresh texp texp_ok), Rmult_1_l.
  apply f32_exact, dot32_is_f32.
Qed.

End ExponentialDecay.

Lemma hist_R2_wf embed :
  HistoryDatabase.embed_ok 2 embed ->
  HistoryDatabase.wf (Meta := string) 2 embed hist_R2.
Proof. intros _. apply init_wf. lia. Qed.

Lemma embed_null_ok : HistoryDatabase.embed_ok 2 embed_null.
Proof. by intros text. Qed.

Lemma embed_east_ok : HistoryDatabase.embed_ok 2 embed_east.
Proof. by intros text. Qed.

Lemma embed_turn_ok : HistoryDatabase.embed_ok 2 embed_turn.
Proof. intros text. unfold embed_turn. by case_decide. Qed.

(** The similarities of the scenarios, in float32. *)
Lemma dot32_east : dot (H := F32_numeric) [1; 0]%R [1; 0]%R = 1%R.
Proof.
  unfold dot. cbn [zip_with foldr sadd smul szero F32_numeric].
  rewrite Rmult_1_r, Rmult_0_r, f32_1, f32_0, Rplus_0_r, f32_0, Rplus_0_r. apply f32_1.
Qed.

Lemma dot32_null : dot (H := F32_numeric) [0; 0]%R [0; 0]%R = 0%R.
Proof.
  unfold dot. cbn [zip_with foldr sadd smul szero F32_numeric].
  rewrite !Rmult_0_r, f32_0, Rplus_0_r, f32_0, Rplus_0_r. apply f32_0.
Qed.

Lemma dot32_turn : dot (H := F32_numeric) [-1; 0]%R [1; 0]%R = (-1)%R.
Proof.
  assert (Hm1 : f32 (-1) = (-1)%R) by (apply f32_exact, (is_f32_Z (-1)); reflexivity).
  unfold dot. cbn [zip_with foldr sadd smul szero F32_numeric].
  rewrite Rmult_1_r, Rmult_0_r, Hm1, f32_0, Rplus_0_r, f32_0, Rplus_0_r. exact Hm1.
Qed.

(** With the rate 1/5 the weight of the age 5 is at most 3/4, whatever
    faithful exponential is used. *)
Lemma weight_fifth texp :
  faithful_exp texp -> (0 <= exp_disco texp (1 / 5) 5 <= 3 / 4)%R.
Proof.
  intros Hf. unfold exp_disco.
  assert (H34 : is_f32 (3 / 4)%R).
  { replace (3 / 4)%R with (IZR 3 / 2 ^ 2)%R by (simpl; lra).
    apply is_f32_dyadic; [reflexivity|lia]. }
  assert (H18 : is_f32 (- (1 / 8))%R).
  { replace (- (1 / 8))%R with (IZR (-1) / 2 ^ 3)%R by (simpl; lra).
    apply is_f32_dyadic; [reflexivity|lia]. }
  assert (H58 : is_f32 (- (5 / 8))%R).
  { replace (- (5 / 8))%R with (IZR (-5) / 2 ^ 3)%R by (simpl; lra).
    apply is_f32_dyadic; [reflexivity|lia]. }
  apply (texp_below texp Hf); [done|].
  assert (Hr : (f32 (- (1 / 5)) <= - (1 / 8))%R) by (apply f32_le_exact; [done|lra]).
  assert (Harg : (f32 (f32 (- (1 / 5)) * 5) <= - (5 / 8))%R)
    by (apply f32_le_exact; [done|lra]).
  assert (Hexp : (exp (- (5 / 8)) <= 3 / 4)%R).
  { rewrite exp_Ropp. pose proof (exp_ineq1 (5 / 8) ltac:(lra)) as He.
    assert (Hinv : (/ exp (5 / 8) < / (1 + 5 / 8))%R)
      by (apply Rinv_lt_contravar; [nra|lra]).
    lra. }
  eapply Rle_trans; [|exact Hexp].
  destruct (Req_dec (f32 (f32 (- (1 / 5)) * 5)) (- (5 / 8))) as [->|Hne]; [lra|].
  left. apply exp_increasing. lra.
Qed.

(** The rate [2^-200] is positive and rounds to zero. *)
Lemma tiny_rate : (0 < / 2 ^ 200)%R /\ f32 (f32 (- / 2 ^ 200) * 5) = 0%R.
Proof.
  assert (Hp : (0 < / 2 ^ 200)%R) by (apply Rinv_0_lt_compat, pow_lt; lra).
  split; [done|].
  assert (Hz : f32 (- / 2 ^ 200) = 0%R).
  { apply f32_underflow. rewrite Rabs_Ropp, Rabs_pos_eq by lra.
    unfold f32_unit.
    replace (/ 2 ^ 149 / 2)%R with (/ 2 ^ 150)%R.
    - apply Rinv_lt_contravar; [apply Rmult_lt_0_compat; apply pow_lt; lra|].
      apply Rlt_pow; [lra|lia].
    - change (2 ^ 150)%R with (2 * 2 ^ 149)%R. field; try (apply pow_nonzero; lra). }
  rewrite Hz, Rmult_0_l. apply f32_0.
Qed.



(** ** Ages over the life of a history *)

Section AgeLifecycle.
Context {T : Type} `{Numeric T} {Meta : Type}.
Variable embed_dims : Z.
Variable embed : string -> list T.
Implicit Types s : HistoryDatabase.t T Meta.

#[local] Abbreviation append := (HistoryDatabase.append (Meta := Meta) embed).
#[local] Abbreviation step := (HistoryDatabase.step (T := T) (Meta := Meta)).
#[local] Abbreviation run := (HistoryDatabase.run (Meta := Meta) embed).
#[local] Abbreviation age := HistoryDatabase.age.
#[local] Abbreviation txt := HistoryDatabase.txt.

(** C8, as the code has it.  In every history a client can hold the
    ages lie between the unset value and [2^24]; [step] leaves the
    unset ones, adds one to each age below [2^24] and leaves an age of
    [2^24] as it is, float32 having no [2^24 + 1]; an [append] that
    returns has put 0 at the slot it wrote (the cursor before the
    call), and [append] does return when the capacity is positive and
    the embedder keeps its dimension, which is not 1 (with one
    dimension [squeeze()] leaves a 0-d tensor and [add] raises
    TypeError); under any calls of [append], [step] and [search],
    returning or raising, a slot whose age is set keeps a set age. *)
Theorem age_lifecycle s :
  HistoryDatabase.reachable embed_dims embed s ->
  (forall i a, age s !! i = Some a ->
     HistoryDatabase.unset <= a <= 2 ^ 24
     /\ age (step s).2 !! i
        = Some (if decide (a = HistoryDatabase.unset) then HistoryDatabase.unset
                else if decide (a = 2 ^ 24) then 2 ^ 24
                else a + 1))
  /\ (forall text meta s', append text meta s = (Ok (), s') ->
        age s' !! Z.to_nat (FiniteList.pos (txt s)) = Some 0)
  /\ (HistoryDatabase.embed_ok embed_dims embed -> embed_dims <> 1 ->
      0 < HistoryDatabase.max s ->
      forall text meta, exists s', append text meta s = (Ok (), s'))
  /\ (forall ops i a, age s !! i = Some a -> a <> HistoryDatabase.unset ->
        exists a', age (run ops s) !! i = Some a' /\ a' <> HistoryDatabase.unset).
Proof.
  intros Hr. pose proof (reachable_ages_ok embed_dims embed s Hr) as Hok.
  assert (Hp : 0 <= FiniteList.pos (txt s))
    by (destruct Hok as [_ [[_ ?]|(_ & -> & _)]]; lia).
  split_and!.
  - intros i a Hi.
    destruct Hok as [Hall _]. rewrite Forall_forall in Hall.
    pose proof (Hall a (list_elem_of_lookup_2 _ _ _ Hi)) as Hge.
    split; [done|].
    simpl. rewrite list_lookup_fmap, Hi. simpl. f_equal.
    unfold HistoryDatabase.unset in *. rewrite f32_step by done.
    repeat case_decide; lia.
  - intros text meta s' Happ. by eapply append_resets_age.
  - intros Hemb _ Hm text meta.
    pose proof (reachable_wf embed_dims embed Hemb s Hr Hm) as Hwf.
    destruct (append_wf embed_dims embed Hemb s text meta Hwf) as (s' & Happ & _).
    eauto.
  - intros ops i a Hi Hne.
    destruct Hok as [Hall Hc]. rewrite Forall_forall in Hall.
    pose proof (Hall a (list_elem_of_lookup_2 _ _ _ Hi)) as Hge.
    unfold HistoryDatabase.unset in *.
    destruct (run_keeps_written embed ops s i a) as (a' & Hi' & Ha');
      [by split; [apply Forall_forall|]|done|lia|].
    exists a'. split; [done|lia].
Qed.
End AgeLifecycle.

Lemma hist_ab_reachable : HistoryDatabase.reachable 2 embed_ab hist_ab.
Proof.
  by exists 4, [HistoryDatabase.OpAppend "a"%string None;
                HistoryDatabase.OpAppend "b"%string None].
Qed.

(** C8 as stated fails: [step] does not add one to every set age.
    After [2^24] calls of [step] the two entries of the history have
    the age [2^24], and a further [step] leaves it there. *)
Lemma step_stops_counting :
  exists s : HistoryDatabase.t Z string,
    HistoryDatabase.reachable 2 embed_ab s
    /\ HistoryDatabase.age s !! 0%nat = Some (2 ^ 24)
    /\ HistoryDatabase.age (HistoryDatabase.step s).2 !! 0%nat = Some (2 ^ 24)
    /\ HistoryDatabase.age (HistoryDatabase.step s).2 !! 0%nat <> Some (2 ^ 24 + 1).
Proof.
  assert (Hgen : forall n : nat, Z.of_nat n = 2 ^ 24 ->
    let s := HistoryDatabase.run embed_ab (replicate n HistoryDatabase.OpStep) hist_ab in
    HistoryDatabase.reachable 2 embed_ab s
    /\ HistoryDatabase.age s !! 0%nat = Some (2 ^ 24)
    /\ HistoryDatabase.age (HistoryDatabase.step s).2 !! 0%nat = Some (2 ^ 24)
    /\ HistoryDatabase.age (HistoryDatabase.step s).2 !! 0%nat <> Some (2 ^ 24 + 1)).
  { intros n Hn s.
    assert (Ha0 : HistoryDatabase.age hist_ab !! 0%nat = Some 0) by reflexivity.
    destruct (steps_age embed_ab n hist_ab 0%nat 0 Ha0) as (Hage & _); [lia|].
    fold s in Hage. replace (Z.min (0 + Z.of_nat n) (2 ^ 24)) with (2 ^ 24) in Hage by lia.
    assert (Hstep : HistoryDatabase.age (HistoryDatabase.step s).2 !! 0%nat = Some (2 ^ 24)).
    { cbn [HistoryDatabase.step modify snd HistoryDatabase.age HistoryDatabase.set_age].
      rewrite list_lookup_fmap, Hage. reflexivity. }
    split_and!; [|exact Hage|exact Hstep|rewrite Hstep; discriminate].
    exists 4, ([HistoryDatabase.OpAppend "a"%string None;
                HistoryDatabase.OpAppend "b"%string None]
               ++ replicate n HistoryDatabase.OpStep).
    unfold s, hist_ab, HistoryDatabase.run. by rewrite foldl_app. }
  eexists. apply (Hgen (Z.to_nat (2 ^ 24))). apply Z2Nat.id. apply Z.pow_nonneg. lia.
Qed.

Lemma age_lifecycle_witness :
  HistoryDatabase.age (HistoryDatabase.step hist_ab).2 = [1; 1; -1; -1]
  /\ (exists s', HistoryDatabase.append embed_ab "c" None hist_ab = (Ok (), s')
                /\ HistoryDatabase.age s' !! 2%nat = Some 0)
  /\ exists a',
      HistoryDatabase.age
        (HistoryDatabase.run embed_ab
           [HistoryDatabase.OpStep; HistoryDatabase.OpAppend "c"%string None;
            HistoryDatabase.OpSearch "a"%string 5 (fun _ => 1) 0; HistoryDatabase.OpStep]
           hist_ab) !! 0%nat = Some a'
      /\ a' <> HistoryDatabase.unset.
Proof.
  destruct (age_lifecycle 2 embed_ab hist_ab hist_ab_reachable)
    as (Hstep & Hreset & Htotal & Hkeep).
  split; [|split].
  - apply list_eq. intros i.
    destruct (HistoryDatabase.age hist_ab !! i) as [a|] eqn:E.
    + destruct (Hstep i a E) as [_ Hs]. rewrite Hs.
      do 4 (destruct i as [|i]; [vm_compute in E; injection E as <-; reflexivity|]).
      vm_compute in E. discriminate E.
    + do 4 (destruct i as [|i]; [vm_compute in E; discriminate E|]).
      reflexivity.
  - destruct (Htotal (fun t => ltac:(unfold embed_ab; repeat case_decide; reflexivity))
                ltac:(lia) ltac:(reflexivity) "c"%string None) as [s' Hs'].
    exists s'. split; [exact Hs'|]. exact (Hreset _ _ _ Hs').
  - apply (Hkeep _ 0%nat 0); [reflexivity|]. unfold HistoryDatabase.unset. lia.
Defined.

(** ** The ring buffer, for every capacity *)

Section RingBufferGeneral.
Context {A : Type}.
Implicit Types f : FiniteList.t A.

(** Reading [c] entries downward from index [b + c - 1]. *)
Lemma omap_lookup_down (l : list A) (b c : nat) :
  (b + c <= length l)%nat ->
  omap (fun i : Z => l !! Z.to_nat i)
       (map (fun i : nat => Z.of_nat (b + c) - 1 + Z.of_nat i * -1) (seq 0 c))
  = reverse (take c (drop b l)).
Proof.
  revert b. induction c as [|c IH]; intros b Hle; [done|].
  destruct (lookup_lt_is_Some_2 (drop b l) c) as [x Hx];
    [rewrite length_drop; lia|].
  rewrite (take_S_r _ _ _ Hx), reverse_snoc.
  rewrite lookup_drop in Hx.
  cbn [seq map]. rewrite <- seq_shift, map_map. cbn [omap list_omap].
  replace (Z.to_nat (Z.of_nat (b + S c) - 1 + Z.of_nat 0 * -1)) with (b + c)%nat by lia.
  rewrite Hx. f_equal. rewrite <- (IH b) by lia.
  unfold omap. f_equal. apply map_ext. intros i. lia.
Qed.

(** [range(lo, hi, -1)] for [hi <= lo]. *)
Lemma py_range_down (lo hi : Z) :
  hi <= lo ->
  py_range lo hi (-1)
  = Ok (map (fun i : nat => lo + Z.of_nat i * -1) (seq 0 (Z.to_nat (lo - hi)))).
Proof.
  intros Hle. unfold py_range. simpl.
  do 3 f_equal. change (- (-1)) with 1. rewrite Z.div_1_r. lia.
Qed.

(** [l[p-1::-1]] for a cursor [1 <= p <= len(l)]: the first [p] items,
    last first. *)
Lemma py_slice_down_from (l : list A) (p : nat) :
  (1 <= p <= length l)%nat ->
  py_slice l (Some (Z.of_nat p - 1)) None (-1) = reverse (take p l).
Proof.
  intros Hp. unfold py_slice, adjust_bound, zlen. cbv zeta.
  assert (E1 : (Z.of_nat p - 1 <? 0) = false) by (apply Z.ltb_ge; lia).
  assert (E2 : (Z.of_nat (length l) <=? Z.of_nat p - 1) = false) by (apply Z.leb_gt; lia).
  rewrite E1, E2. change (-1 <? 0) with true. cbv iota.
  rewrite py_range_down by lia.
  replace (Z.to_nat (Z.of_nat p - 1 - -1)) with p by lia.
  cbv iota beta.
  etrans; [|exact (omap_lookup_down l 0 p ltac:(simpl; lia))].
  f_equal; try (apply map_ext; intros i; simpl; lia).
Qed.

(** [l[-1::-1]]: the whole list, last first. *)
Lemma py_slice_down_all (l : list A) :
  l <> [] -> py_slice l (Some (-1)) None (-1) = reverse l.
Proof.
  intros Hne. assert (Hlen : (1 <= length l)%nat) by (destruct l; [done|simpl; lia]).
  unfold py_slice, adjust_bound, zlen. cbv zeta.
  change (-1 <? 0) with true. cbv iota.
  assert (E1 : (-1 + Z.of_nat (length l) <? 0) = false) by (apply Z.ltb_ge; lia).
  rewrite E1.
  rewrite py_range_down by lia.
  replace (Z.to_nat (-1 + Z.of_nat (length l) - -1)) with (length l) by lia.
  cbv iota beta.
  trans (reverse (take (length l) (drop 0 l))); [|by rewrite drop_0, firstn_all].
  rewrite <- omap_lookup_down by (simpl; lia).
  f_equal; try (apply map_ext; intros i; simpl; lia).
Qed.

(** [l[:p:-1]] for a cursor [0 <= p < len(l)]: the items behind index
    [p], last first; the item at [p] is not among them. *)
Lemma py_slice_down_to (l : list A) (p : nat) :
  (p < length l)%nat ->
  py_slice l None (Some (Z.of_nat p)) (-1) = reverse (drop (S p) l).
Proof.
  intros Hp. unfold py_slice, adjust_bound, zlen. cbv zeta.
  assert (E1 : (Z.of_nat p <? 0) = false) by (apply Z.ltb_ge; lia).
  assert (E2 : (Z.of_nat (length l) <=? Z.of_nat p) = false) by (apply Z.leb_gt; lia).
  rewrite E1, E2. change (-1 <? 0) with true. cbv iota.
  rewrite py_range_down by lia.
  replace (Z.to_nat (Z.of_nat (length l) - 1 - Z.of_nat p)) with (length l - S p)%nat by lia.
  cbv iota beta.
  rewrite <- (take_ge (drop (S p) l) (length l - S p)) by (rewrite length_drop; lia).
  rewrite <- omap_lookup_down by lia.
  f_equal; try (apply map_ext; intros i; simpl; lia).
Qed.

Lemma init_wf_ring (maxlen : Z) : 0 < maxlen -> FiniteList.wf (FiniteList.init (A := A) maxlen).
Proof.
  intros Hm. unfold FiniteList.wf, FiniteList.len, zlen. simpl. lia.
Qed.

(** [append] returns on such a buffer and keeps it in shape. *)
Lemma append_wf_ring f item :
  FiniteList.wf f ->
  exists f', FiniteList.append item f = (Ok (), f') /\ FiniteList.wf f'
             /\ FiniteList.max f' = FiniteList.max f.
Proof.
  intros (Hm & Hlen & Hpos & Hfill).
  assert (Hmod : 0 <= (FiniteList.pos f + 1) mod FiniteList.max f < FiniteList.max f)
    by (apply Z.mod_pos_bound; lia).
  destruct (decide (FiniteList.len f < FiniteList.max f)) as [Hlt|Hfull].
  - eexists. split; [by apply fl_append_grow|].
    unfold FiniteList.wf, FiniteList.len, zlen in *. simpl. rewrite length_app. simpl.
    split_and!; try lia.
    intros Hlt2. rewrite (Hfill Hlt). rewrite Z.mod_small; lia.
  - eexists. split; [apply fl_append_over; lia|].
    unfold FiniteList.wf, FiniteList.len, zlen in *. simpl. rewrite length_insert.
    split_and!; lia.
Qed.

Lemma appends_wf_ring items f :
  FiniteList.wf f ->
  exists f', FiniteList.appends f items = (Ok (), f') /\ FiniteList.wf f'.
Proof.
  revert f. induction items as [|x items IH]; intros f Hwf; simpl; [eauto|].
  destruct (append_wf_ring f x Hwf) as (f1 & -> & Hwf1 & _). by apply IH.
Qed.

(** What [values()] returns on every buffer that [init] and [append]
    produce.  While the buffer fills it is all items, most recent first.
    Once the buffer is full the item at the cursor, the oldest, is left
    out; with the cursor at 0 all but the oldest come twice. *)
Lemma values_spec f :
  FiniteList.wf f ->
  FiniteList.values f
  = if FiniteList.len f <? FiniteList.max f then reverse (FiniteList.data f)
    else if FiniteList.pos f =? 0 then
      reverse (FiniteList.data f) ++ reverse (drop 1 (FiniteList.data f))
    else
      reverse (take (Z.to_nat (FiniteList.pos f)) (FiniteList.data f))
        ++ reverse (drop (S (Z.to_nat (FiniteList.pos f))) (FiniteList.data f)).
Proof.
  intros (Hm & Hlen & Hpos & Hfill).
  unfold FiniteList.values, FiniteList.empty, FiniteList.full.
  unfold FiniteList.len, zlen in *.
  set (n := length (FiniteList.data f)) in *.
  set (p := Z.to_nat (FiniteList.pos f)).
  assert (Hp : FiniteList.pos f = Z.of_nat p) by (unfold p; lia).
  destruct (Z.of_nat n =? 0) eqn:E0.
  { apply Z.eqb_eq in E0.
    assert (Hnil : FiniteList.data f = []) by (apply length_zero_iff_nil; lia).
    assert (E1 : (Z.of_nat n <? FiniteList.max f) = true) by (apply Z.ltb_lt; lia).
    by rewrite E1, Hnil. }
  apply Z.eqb_neq in E0.
  assert (Hne : FiniteList.data f <> []) by (intros Hnil; unfold n in E0; rewrite Hnil in E0; done).
  destruct (Z.of_nat n <? FiniteList.max f) eqn:E1.
  - apply Z.ltb_lt in E1.
    assert (E2 : (Z.of_nat n =? FiniteList.max f) = false) by (apply Z.eqb_neq; lia).
    rewrite E2, Hp. specialize (Hfill E1).
    rewrite py_slice_down_from by (fold n; lia).
    rewrite take_ge by (fold n; lia). done.
  - apply Z.ltb_ge in E1.
    assert (E2 : (Z.of_nat n =? FiniteList.max f) = true) by (apply Z.eqb_eq; lia).
    rewrite E2.
    destruct (FiniteList.pos f =? 0) eqn:E3.
    + apply Z.eqb_eq in E3. rewrite E3.
      rewrite py_slice_down_all by done.
      by rewrite (py_slice_down_to _ 0) by (fold n; lia).
    + apply Z.eqb_neq in E3. rewrite Hp.
      rewrite py_slice_down_from by (fold n; lia).
      by rewrite py_slice_down_to by (fold n; lia).
Qed.

(** On a full buffer with the cursor away from 0, [values()] is one item
    short. *)
Corollary values_full_length f :
  FiniteList.wf f -> FiniteList.len f = FiniteList.max f -> FiniteList.pos f <> 0 ->
  zlen (FiniteList.values f) = FiniteList.len f - 1.
Proof.
  intros Hwf Hfull Hpos. rewrite (values_spec f Hwf).
  destruct Hwf as (Hm & Hlen & Hp & _).
  assert (E1 : (FiniteList.len f <? FiniteList.max f) = false) by (apply Z.ltb_ge; lia).
  assert (E2 : (FiniteList.pos f =? 0) = false) by (by apply Z.eqb_neq).
  rewrite E1, E2. unfold FiniteList.len, zlen in *.
  rewrite length_app, !length_reverse, length_take, length_drop. lia.
Qed.

(** While the buffer fills, [values()] is right. *)
Corollary values_filling f :
  FiniteList.wf f -> FiniteList.len f < FiniteList.max f ->
  FiniteList.values f = reverse (FiniteList.data f).
Proof.
  intros Hwf Hlt. rewrite (values_spec f Hwf).
  assert (E1 : (FiniteList.len f <? FiniteList.max f) = true) by (apply Z.ltb_lt; lia).
  by rewrite E1.
Qed.

Lemma omapM_lookup {B C} (g : B -> outcome C) (l : list B) (r : list C) :
  length r = length l ->
  (forall (i : nat) x y, l !! i = Some x -> r !! i = Some y -> g x = Ok y) ->
  omapM g l = Ok r.
Proof.
  revert r. induction l as [|x l IH]; intros [|y r] Hlen Hall; try done.
  simpl. rewrite (Hall 0%nat x y) by done. simpl.
  rewrite (IH r); [done|by simplify_eq/=|].
  intros i x' y' Hx Hy. by apply (Hall (S i)).
Qed.

(** The backward addressing of a single index, on a buffer with the
    cursor at [p]. *)
Lemma getitem_int_spec f (i : nat) :
  FiniteList.wf f -> (i < length (FiniteList.data f))%nat ->
  FiniteList.getitem_int f (Z.of_nat i)
  = match (reverse (take (Z.to_nat (FiniteList.pos f)) (FiniteList.data f))
             ++ reverse (drop (Z.to_nat (FiniteList.pos f)) (FiniteList.data f))) !! i with
    | Some x => Ok x
    | None => Raise IndexError
    end.
Proof.
  intros (Hm & Hlen & Hpos & Hfill) Hi.
  unfold FiniteList.getitem_int, FiniteList.len, zlen in *. cbv zeta.
  set (d := FiniteList.data f) in *. set (n := length d) in *.
  set (p := Z.to_nat (FiniteList.pos f)).
  assert (Hp : FiniteList.pos f = Z.of_nat p) by (unfold p; lia).
  assert (Hpn : (p <= n)%nat) by lia.
  assert (E1 : (Z.of_nat n <=? Z.of_nat i) = false) by (apply Z.leb_gt; lia).
  assert (E2 : (Z.of_nat i <? - Z.of_nat n) = false) by (apply Z.ltb_ge; lia).
  rewrite E1, E2, Hp. simpl.
  destruct (decide (i < p)%nat) as [Hlt|Hge].
  - rewrite lookup_app_l by (rewrite length_reverse, length_take; lia).
    rewrite reverse_lookup by (rewrite length_take; lia).
    rewrite length_take, lookup_take_lt by lia.
    rewrite Nat.min_l by (fold n; lia).
    rewrite Z.mod_small by lia.
    replace (Z.of_nat p - 1 - Z.of_nat i) with (Z.of_nat (p - S i)) by lia.
    destruct (lookup_lt_is_Some_2 d (p - S i)) as [x Hx]; [fold n; lia|].
    by rewrite Hx, (py_index_eval _ _ _ Hx).
  - rewrite lookup_app_r by (rewrite length_reverse, length_take; lia).
    rewrite length_reverse, length_take.
    rewrite Nat.min_l by (fold n; lia).
    rewrite reverse_lookup by (rewrite length_drop; fold n; lia).
    rewrite length_drop, lookup_drop. fold n.
    replace ((Z.of_nat p - 1 - Z.of_nat i) mod Z.of_nat n)
      with (Z.of_nat (p + (n - p - S (i - p))))
      by (apply (Z.mod_unique _ _ (-1)); lia).
    destruct (lookup_lt_is_Some_2 d (p + (n - p - S (i - p)))) as [x Hx]; [fold n; lia|].
    by rewrite Hx, (py_index_eval _ _ _ Hx).
Qed.

(** While the buffer fills, index [i] reads the item stored at position
    [len - 1 - i], not the one at position [i]. *)
Corollary getitem_int_filling f (i : nat) :
  FiniteList.wf f -> FiniteList.len f < FiniteList.max f ->
  (i < length (FiniteList.data f))%nat ->
  FiniteList.getitem_int f (Z.of_nat i)
  = match FiniteList.data f !! (length (FiniteList.data f) - S i)%nat with
    | Some x => Ok x
    | None => Raise IndexError
    end.
Proof.
  intros Hwf Hlt Hi. rewrite (getitem_int_spec f i Hwf Hi).
  destruct Hwf as (_ & _ & _ & Hfill). specialize (Hfill Hlt).
  unfold FiniteList.len, zlen in Hfill. rewrite Hfill, Nat2Z.id.
  rewrite take_ge, drop_ge, app_nil_r by lia.
  by rewrite reverse_lookup.
Qed.

(** Reading the buffer through [__getitem__], index by index, gives
    every item, most recent first. *)
Lemma items_by_index_spec f :
  FiniteList.wf f ->
  FiniteList.items_by_index f
  = Ok (reverse (take (Z.to_nat (FiniteList.pos f)) (FiniteList.data f))
          ++ reverse (drop (Z.to_nat (FiniteList.pos f)) (FiniteList.data f))).
Proof.
  intros Hwf. unfold FiniteList.items_by_index, FiniteList.getitem_list.
  assert (Hlen : length (reverse (take (Z.to_nat (FiniteList.pos f)) (FiniteList.data f))
                   ++ reverse (drop (Z.to_nat (FiniteList.pos f)) (FiniteList.data f)))
                 = length (FiniteList.data f)).
  { rewrite <- reverse_app, length_reverse, length_app, length_take, length_drop.
    destruct Hwf as (Hm & Hl & Hpos & Hfill). unfold FiniteList.len, zlen in *. lia. }
  apply omapM_lookup.
  - by rewrite length_map, length_seq.
  - intros i x y Hx Hy.
    apply list_lookup_fmap_Some in Hx as (j & -> & Hj).
    apply lookup_seq in Hj as [-> Hj]. simpl.
    by rewrite (getitem_int_spec f i Hwf Hj), Hy.
Qed.

(** On a full buffer with the cursor away from 0, [values()] and the
    index-by-index reading differ by exactly the oldest item, the one
    at the cursor. *)
Corollary values_omits_oldest f x :
  FiniteList.wf f -> FiniteList.len f = FiniteList.max f -> FiniteList.pos f <> 0 ->
  FiniteList.data f !! Z.to_nat (FiniteList.pos f) = Some x ->
  FiniteList.items_by_index f = Ok (FiniteList.values f ++ [x]).
Proof.
  intros Hwf Hfull Hpos Hx. rewrite (items_by_index_spec f Hwf), (values_spec f Hwf).
  assert (E1 : (FiniteList.len f <? FiniteList.max f) = false) by (apply Z.ltb_ge; lia).
  assert (E2 : (FiniteList.pos f =? 0) = false) by (by apply Z.eqb_neq).
  rewrite E1, E2. f_equal. rewrite <- app_assoc. f_equal.
  rewrite (drop_S _ _ _ Hx), reverse_cons. done.
Qed.

(** A failure of [__getitem__] is an IndexError. *)
Lemma getitem_int_raises f i e :
  FiniteList.getitem_int f i = Raise e -> e = IndexError.
Proof.
  unfold FiniteList.getitem_int, py_index.
  repeat match goal with
         | |- context [if ?b then _ else _] => destruct b
         | |- context [match ?o with Some _ => _ | None => _ end] => destruct o
         end; by intros [=].
Qed.

Lemma getitem_list_raises f idxs i :
  i ∈ idxs -> FiniteList.len f <= i -> FiniteList.getitem_list f idxs = Raise IndexError.
Proof.
  intros Hin Hi. unfold FiniteList.getitem_list.
  induction idxs as [|j idxs IH]; [by apply elem_of_nil in Hin|].
  simpl. destruct (FiniteList.getitem_int f j) as [x|e] eqn:E.
  - apply elem_of_cons in Hin as [->|Hin].
    + unfold FiniteList.getitem_int in E.
      assert (E1 : (FiniteList.len f <=? j) = true) by (apply Z.leb_le; lia).
      rewrite E1 in E. done.
    + simpl. by rewrite IH.
  - simpl. by rewrite (getitem_int_raises f j e E).
Qed.

(** A slice whose stop lies beyond the size is not clamped: it raises. *)
Lemma slice_beyond_size_raises f stop :
  FiniteList.len f < stop ->
  FiniteList.getitem_slice f (Slice None (Some stop) None) = Raise IndexError.
Proof.
  intros Hstop. unfold FiniteList.getitem_slice, slice_to_indices, py_range. simpl.
  assert (Hlen : 0 <= FiniteList.len f) by (unfold FiniteList.len, zlen; lia).
  rewrite Z.max_l by lia.
  apply (getitem_list_raises f _ (FiniteList.len f)); [|lia].
  apply list_elem_of_fmap. exists (Z.to_nat (FiniteList.len f)). split; [lia|].
  apply elem_of_seq. rewrite Z.div_1_r. lia.
Qed.

(** A negative stop does not count from the end: the slice is empty. *)
Lemma slice_negative_stop_empty f stop :
  stop <= 0 ->
  FiniteList.getitem_slice f (Slice None (Some stop) None) = Ok [].
Proof.
  intros Hstop. unfold FiniteList.getitem_slice, slice_to_indices, py_range. simpl.
  rewrite Z.max_l by lia.
  replace (Z.max 0 ((stop - 0 + 1 - 1) / 1)) with 0 by (rewrite Z.div_1_r; lia).
  done.
Qed.
End RingBufferGeneral.

(** * Further properties *)

(** ** The ring buffer: what it holds *)

Section RingContent.
Context {A : Type}.
Implicit Types f : FiniteList.t A.

(** The items of a buffer, most recent first: the part in front of the
    cursor backwards, then the part from the cursor on backwards. *)
#[local] Abbreviation logical f :=
  (reverse (take (Z.to_nat (FiniteList.pos f)) (FiniteList.data f))
     ++ reverse (drop (Z.to_nat (FiniteList.pos f)) (FiniteList.data f))).

Lemma append_content f item :
  FiniteList.wf f ->
  exists f', FiniteList.append item f = (Ok (), f')
    /\ FiniteList.wf f'
    /\ FiniteList.max f' = FiniteList.max f
    /\ logical f' = take (Z.to_nat (FiniteList.max f)) (item :: logical f).
Proof.
  intros Hwf. pose proof Hwf as (Hm & Hlen & Hpos & Hfill).
  destruct (append_wf_ring f item Hwf) as (f' & Hf' & Hwf' & Hmax).
  exists f'. split_and!; try done.
  unfold FiniteList.len, zlen in *.
  set (d := FiniteList.data f) in *. set (C := FiniteList.max f) in *.
  assert (Hmod : 0 <= (FiniteList.pos f + 1) mod C < C) by (apply Z.mod_pos_bound; lia).
  destruct (decide (Z.of_nat (length d) < C)) as [Hlt|Hfull].
  - rewrite fl_append_grow in Hf' by (unfold FiniteList.len, zlen; fold d C; lia).
    injection Hf' as <-. cbn [FiniteList.pos FiniteList.data FiniteList.max]. fold d C.
    rewrite (Hfill Hlt), Nat2Z.id.
    rewrite (take_ge d (length d)), (drop_ge d (length d)), app_nil_r by lia.
    assert (Hall : take (Z.to_nat C) (item :: reverse d) = item :: reverse d).
    { apply take_ge. simpl. rewrite length_reverse. lia. }
    rewrite Hall.
    destruct (decide (Z.of_nat (length d) + 1 < C)) as [Hlt2|Hge2].
    + rewrite Z.mod_small by lia.
      rewrite take_ge, drop_ge, app_nil_r by (rewrite length_app; simpl; lia).
      by rewrite reverse_snoc.
    + replace (Z.of_nat (length d) + 1) with C by lia.
      rewrite Z.mod_same by lia. change (Z.to_nat 0) with 0%nat.
      by rewrite take_0, drop_0, reverse_nil, app_nil_l, reverse_snoc.
  - rewrite fl_append_over in Hf' by (unfold FiniteList.len, zlen; fold d C; lia).
    injection Hf' as <-. cbn [FiniteList.pos FiniteList.data FiniteList.max]. fold d C.
    set (p := Z.to_nat (FiniteList.pos f)).
    assert (Hp : FiniteList.pos f = Z.of_nat p) by (unfold p; lia).
    destruct (lookup_lt_is_Some_2 d p) as [y Hy]; [lia|].
    pose proof (take_drop_middle d p y Hy) as Hsplit.
    assert (Hl1 : length (take p d) = p) by (rewrite length_take; lia).
    set (l1 := take p d) in *. set (l2 := drop (S p) d) in *.
    assert (Hd : drop p d = y :: l2) by (unfold l2; by rewrite (drop_S _ _ _ Hy)).
    assert (Hins : <[p := item]> d = l1 ++ item :: l2).
    { rewrite <- Hsplit at 1. rewrite insert_app_r_alt by lia.
      by replace (p - length l1)%nat with 0%nat by lia. }
    assert (HC : Z.to_nat C = (length l1 + S (length l2))%nat).
    { rewrite <- Hsplit in Hfull, Hlen. rewrite length_app in Hfull, Hlen.
      simpl in Hfull, Hlen. lia. }
    rewrite Hins, Hd, reverse_cons.
    assert (Htake : take (Z.to_nat C) (item :: reverse l1 ++ reverse l2 ++ [y])
                    = item :: reverse l1 ++ reverse l2).
    { rewrite HC. replace (length l1 + S (length l2))%nat
        with (S (length (reverse l1 ++ reverse l2)))
        by (rewrite length_app, !length_reverse; lia).
      simpl. f_equal. rewrite app_assoc. by rewrite take_app_length. }
    rewrite Htake.
    destruct (decide (Z.of_nat p + 1 < C)) as [Hlt2|Hge2].
    + rewrite Hp, Z.mod_small by lia.
      replace (Z.to_nat (Z.of_nat p + 1)) with (length (l1 ++ [item]))
        by (rewrite length_app; simpl; lia).
      replace (l1 ++ item :: l2) with ((l1 ++ [item]) ++ l2) by (by rewrite <- app_assoc).
      rewrite take_app_length, drop_app_length.
      by rewrite reverse_snoc.
    + assert (Hl2 : l2 = []) by (apply length_zero_iff_nil; lia).
      replace (FiniteList.pos f + 1) with C by lia.
      rewrite Z.mod_same by lia. change (Z.to_nat 0) with 0%nat.
      rewrite take_0, drop_0, reverse_nil, app_nil_l, Hl2, reverse_snoc.
      by rewrite reverse_nil, app_nil_r.
Qed.

Lemma appends_content xs f ys :
  FiniteList.wf f ->
  logical f = take (Z.to_nat (FiniteList.max f)) (reverse ys) ->
  exists f', FiniteList.appends f xs = (Ok (), f')
    /\ FiniteList.wf f'
    /\ FiniteList.max f' = FiniteList.max f
    /\ logical f' = take (Z.to_nat (FiniteList.max f)) (reverse (ys ++ xs)).
Proof.
  revert f ys. induction xs as [|x xs IH]; intros f ys Hwf HL.
  - exists f. by rewrite app_nil_r.
  - destruct (append_content f x Hwf) as (f1 & Hf1 & Hwf1 & Hmax1 & HL1).
    destruct (IH f1 (ys ++ [x]) Hwf1) as (f2 & Hf2 & Hwf2 & Hmax2 & HL2).
    { rewrite Hmax1, HL1, HL, reverse_snoc.
      destruct (Z.to_nat (FiniteList.max f)) as [|c]; [done|]. simpl. f_equal.
      by rewrite take_take, Nat.min_l by lia. }
    exists f2. simpl. rewrite Hf1. split_and!; try done; [congruence|].
    by rewrite HL2, Hmax1, <- app_assoc.
Qed.

(** X1. A buffer of positive capacity [C] takes every append, and after
    the items [xs] have been appended to a new buffer, reading it index
    by index gives the last [C] of them, most recent first. *)
Theorem ring_keeps_last_items (C : Z) (xs : list A) :
  0 < C ->
  exists f, FiniteList.appends (FiniteList.init C) xs = (Ok (), f)
    /\ FiniteList.len f = Z.min (zlen xs) C
    /\ FiniteList.items_by_index f = Ok (take (Z.to_nat C) (reverse xs)).
Proof.
  intros HC.
  destruct (appends_content xs (FiniteList.init C) [] (init_wf_ring C HC))
    as (f & Hf & Hwf & Hmax & HL).
  { cbn. by destruct (Z.to_nat C). }
  exists f. split; [done|]. simpl in *.
  assert (Hitems : FiniteList.items_by_index f = Ok (take (Z.to_nat C) (reverse xs))).
  { by rewrite (items_by_index_spec f Hwf), HL. }
  split; [|done].
  unfold FiniteList.items_by_index, FiniteList.getitem_list in Hitems.
  apply omapM_length in Hitems.
  rewrite length_map, length_seq, length_take, length_reverse in Hitems.
  unfold FiniteList.len, zlen. lia.
Qed.
End RingContent.

Lemma ring_keeps_last_items_witness :
  exists f, FiniteList.appends (FiniteList.init 2) [1; 2; 3] = (Ok (), f)
    /\ FiniteList.len f = Z.min (zlen [1; 2; 3]) 2
    /\ FiniteList.items_by_index f = Ok (take (Z.to_nat 2) (reverse [1; 2; 3])).
Proof. apply (ring_keeps_last_items 2 [1; 2; 3]). lia. Defined.

(** ** The ring buffer: indexes and slices *)

Section RingIndexing.
Context {A : Type}.
Implicit Types f : FiniteList.t A.

(** X2. Negative indexes count from the oldest item: [self[-(i+1)]] is
    [self[len(self)-1-i]] on every buffer, whatever its cursor. *)
Theorem getitem_negative_index f (i : Z) :
  0 <= i < FiniteList.len f ->
  FiniteList.getitem_int f (- (i + 1))
  = FiniteList.getitem_int f (FiniteList.len f - 1 - i).
Proof.
  intros Hi. unfold FiniteList.getitem_int. cbv zeta.
  set (n := FiniteList.len f) in *.
  assert (E1 : (n <=? - (i + 1)) = false) by (apply Z.leb_gt; lia).
  assert (E2 : (- (i + 1) <? - n) = false) by (apply Z.ltb_ge; lia).
  assert (E3 : (n <=? n - 1 - i) = false) by (apply Z.leb_gt; lia).
  assert (E4 : (n - 1 - i <? - n) = false) by (apply Z.ltb_ge; lia).
  rewrite E1, E2, E3, E4. simpl. f_equal.
  replace (FiniteList.pos f - 1 - - (i + 1)) with (FiniteList.pos f + i) by lia.
  replace (FiniteList.pos f - 1 - (n - 1 - i)) with (FiniteList.pos f + i + (-1) * n) by lia.
  by rewrite Z_mod_plus_full.
Qed.

(** X3. A buffer whose capacity is not positive stores nothing: every
    [append] raises IndexError and leaves the buffer as it was. *)
Theorem append_without_capacity_raises (maxlen : Z) (item : A) :
  maxlen <= 0 ->
  FiniteList.append item (FiniteList.init maxlen)
  = (Raise IndexError, FiniteList.init maxlen).
Proof.
  intros Hm. unfold FiniteList.append, FiniteList.init, FiniteList.len, zlen.
  cbn [FiniteList.max FiniteList.data FiniteList.pos length].
  change (Z.of_nat 0) with 0.
  assert (E : (0 <? maxlen) = false) by (apply Z.ltb_ge; lia).
  by rewrite E.
Qed.

Lemma py_range_up_bounds (lo hi step : Z) idxs :
  0 < step -> py_range lo hi step = Ok idxs ->
  Forall (fun i => lo <= i < hi) idxs.
Proof.
  intros Hstep. unfold py_range.
  assert (E1 : (step =? 0) = false) by (apply Z.eqb_neq; lia).
  assert (E2 : (0 <? step) = true) by (apply Z.ltb_lt; lia).
  rewrite E1, E2. intros [= <-].
  apply Forall_forall. intros i (j & -> & Hj)%list_elem_of_fmap.
  apply elem_of_seq in Hj.
  assert (Hc : Z.of_nat j < Z.max 0 ((hi - lo + step - 1) / step)) by lia.
  assert (Hq : Z.of_nat j + 1 <= (hi - lo + step - 1) / step) by lia.
  assert (Hmul : step * ((hi - lo + step - 1) / step) <= hi - lo + step - 1)
    by (apply Z.mul_div_le; lia).
  nia.
Qed.

Lemma py_range_up_empty (lo hi step : Z) :
  0 < step -> hi <= lo -> py_range lo hi step = Ok [].
Proof.
  intros Hstep Hle. unfold py_range.
  assert (E1 : (step =? 0) = false) by (apply Z.eqb_neq; lia).
  assert (E2 : (0 <? step) = true) by (apply Z.ltb_lt; lia).
  rewrite E1, E2.
  assert (Hq : (hi - lo + step - 1) / step <= 0).
  { apply Z.lt_succ_r. apply Z.div_lt_upper_bound; lia. }
  by replace (Z.max 0 ((hi - lo + step - 1) / step)) with 0 by lia.
Qed.

Lemma getitem_of_items f L (i : Z) :
  FiniteList.items_by_index f = Ok L -> 0 <= i < FiniteList.len f ->
  exists x, L !! Z.to_nat i = Some x /\ FiniteList.getitem_int f i = Ok x.
Proof.
  intros HL Hi. unfold FiniteList.items_by_index, FiniteList.getitem_list in HL.
  apply omapM_Forall2 in HL. unfold FiniteList.len, zlen in Hi.
  destruct (Forall2_lookup_l _ _ _ (Z.to_nat i) (Z.of_nat (Z.to_nat i)) HL) as (x & Hx & Hget).
  { rewrite list_lookup_fmap, lookup_seq_lt by lia. done. }
  exists x. split; [done|]. by rewrite Z2Nat.id in Hget by lia.
Qed.

Lemma getitem_list_of_items f L idxs :
  FiniteList.items_by_index f = Ok L ->
  Forall (fun i => 0 <= i < FiniteList.len f) idxs ->
  FiniteList.getitem_list f idxs = Ok (omap (fun i => L !! Z.to_nat i) idxs).
Proof.
  intros HL. unfold FiniteList.getitem_list.
  induction 1 as [|i idxs Hi _ IH]; [done|].
  destruct (getitem_of_items f L i HL Hi) as (x & Hx & Hget).
  cbn [omapM omap list_omap]. rewrite Hget, Hx. simpl.
  unfold omap in IH. by rewrite IH.
Qed.

(** X4. With a positive step and a stop that is omitted or lies within
    [0 .. len(self)], [self[start:stop:step]] is the built-in slice of
    the items read index by index: the start bound may be negative or
    out of range and is adjusted as the built-in rules say. *)
Theorem slice_with_stop_in_range f slc L :
  FiniteList.items_by_index f = Ok L ->
  (forall b, slice_stop slc = Some b -> 0 <= b <= FiniteList.len f) ->
  (forall s, slice_step slc = Some s -> 0 < s) ->
  FiniteList.getitem_slice f slc
  = Ok (py_slice L (slice_start slc) (slice_stop slc) (default 1 (slice_step slc))).
Proof.
  intros HL Hstop Hstep.
  assert (Hn : zlen L = FiniteList.len f).
  { unfold FiniteList.items_by_index, FiniteList.getitem_list in HL.
    apply omapM_length in HL. unfold zlen, FiniteList.len.
    by rewrite HL, length_map, length_seq. }
  assert (Hn0 : 0 <= FiniteList.len f) by (unfold FiniteList.len, zlen; lia).
  unfold FiniteList.getitem_slice, slice_to_indices, py_slice. cbv zeta.
  rewrite Hn. set (n := FiniteList.len f) in *.
  set (step := default 1 (slice_step slc)).
  assert (Hs : 0 < step).
  { unfold step. destruct (slice_step slc) as [s|]; simpl; [by apply Hstep|lia]. }
  assert (E0 : (step <? 0) = false) by (apply Z.ltb_ge; lia).
  rewrite E0.
  set (stop := default n (slice_stop slc)).
  assert (Hb : 0 <= stop <= n).
  { unfold stop. destruct (slice_stop slc) as [b|]; simpl; [by apply Hstop|lia]. }
  assert (Hhi : match slice_stop slc with
                | Some s => adjust_bound n step s
                | None => n
                end = stop).
  { unfold stop. destruct (slice_stop slc) as [b|]; simpl; [|done].
    specialize (Hstop b eq_refl). unfold adjust_bound. rewrite E0.
    destruct (b <? 0) eqn:Eb; [apply Z.ltb_lt in Eb; lia|].
    destruct (n <=? b) eqn:Eb2; [apply Z.leb_le in Eb2; lia|done]. }
  rewrite Hhi.
  set (start := Z.max 0 (if default 0 (slice_start slc) <? 0
                         then default 0 (slice_start slc) + n
                         else default 0 (slice_start slc))).
  set (lo := match slice_start slc with
             | Some s => adjust_bound n step s
             | None => 0
             end).
  assert (Hstart : 0 <= start) by (unfold start; lia).
  assert (Hlo : lo = start \/ (stop <= lo /\ stop <= start)).
  { unfold lo, start. destruct (slice_start slc) as [a|]; simpl; [|left; lia].
    unfold adjust_bound. rewrite E0.
    destruct (a <? 0) eqn:Ea.
    - apply Z.ltb_lt in Ea. destruct (a + n <? 0) eqn:Ea2.
      + apply Z.ltb_lt in Ea2. left. lia.
      + apply Z.ltb_ge in Ea2. left. lia.
    - apply Z.ltb_ge in Ea. destruct (n <=? a) eqn:Ea2.
      + apply Z.leb_le in Ea2. right. lia.
      + apply Z.leb_gt in Ea2. left. lia. }
  destruct Hlo as [->|[Hl1 Hl2]].
  - destruct (py_range start stop step) as [idxs|e] eqn:Hr.
    + simpl. apply getitem_list_of_items; [done|].
      eapply Forall_impl; [exact (py_range_up_bounds _ _ _ _ Hs Hr)|].
      simpl. intros i Hi. fold n. lia.
    + unfold py_range in Hr.
      assert (E1 : (step =? 0) = false) by (apply Z.eqb_neq; lia).
      by rewrite E1 in Hr.
  - by rewrite !py_range_up_empty by lia.
Qed.
End RingIndexing.

Lemma getitem_negative_index_witness :
  FiniteList.getitem_int ring5 (- (0 + 1))
  = FiniteList.getitem_int ring5 (FiniteList.len ring5 - 1 - 0).
Proof. apply (getitem_negative_index ring5 0). vm_compute. split; [discriminate|reflexivity]. Defined.

Lemma append_without_capacity_raises_witness :
  FiniteList.append "A"%string (FiniteList.init 0)
  = (Raise IndexError, FiniteList.init 0).
Proof. apply (append_without_capacity_raises 0 "A"%string). lia. Defined.

Lemma slice_with_stop_in_range_witness :
  FiniteList.getitem_slice ring5 (Slice (Some (-3)) (Some 3) None)
  = Ok (py_slice ["E"; "D"; "C"; "B"]%string (Some (-3)) (Some 3) (default 1 None)).
Proof.
  apply (slice_with_stop_in_range ring5 (Slice (Some (-3)) (Some 3) None)).
  - reflexivity.
  - intros b [= <-]. vm_compute. split; discriminate.
  - intros s [=].
Defined.

(** ** The conversation history: alignment, search, latest entry *)

Lemma length_omap_le {A B} (g : A -> option B) (l : list A) :
  (length (omap g l) <= length l)%nat.
Proof.
  induction l as [|x l IH]; [done|]. cbn [omap list_omap].
  destruct (g x); simpl; lia.
Qed.

Section HistoryUse.
Context {T : Type} `{Numeric T} `{!NumericLaws T} {Meta : Type}.
Variable embed_dims : Z.
Variable embed : string -> list T.
Hypothesis embed_dims_ok : HistoryDatabase.embed_ok embed_dims embed.
Implicit Types s : HistoryDatabase.t T Meta.

Lemma history_ring_wf s :
  HistoryDatabase.wf embed_dims embed s -> FiniteList.wf (HistoryDatabase.txt s).
Proof.
  intros (Hm & Hfm & Hn & Hp & Hpn & _).
  unfold FiniteList.wf, FiniteList.len, zlen. rewrite Hfm. split_and!; try lia.
Qed.


(** X6. On such a history [search] returns for every query and every
    [k >= 0], and it returns at most [min(k, len)] entries. *)
Theorem history_search_returns s query k disco cutoff :
  HistoryDatabase.reachable embed_dims embed s ->
  0 < HistoryDatabase.max s ->
  0 <= k ->
  exists r, HistoryDatabase.search embed s query k disco cutoff = Ok r
    /\ zlen r <= Z.min k (HistoryDatabase.len s).
Proof.
  intros Hreach Hmax Hk.
  pose proof (reachable_wf embed_dims embed embed_dims_ok s Hreach Hmax) as Hwf.
  pose proof (history_ring_wf s Hwf) as Hring.
  pose proof (items_by_index_spec _ Hring) as Hitems.
  unfold HistoryDatabase.search. cbv zeta.
  destruct (HistoryDatabase.len s =? 0) eqn:E0.
  { exists []. split; [done|]. apply Z.eqb_eq in E0. rewrite E0. unfold zlen. simpl. lia. }
  apply Z.eqb_neq in E0.
  rewrite (decayed_wf embed_dims embed s query disco Hwf). cbn [obind].
  set (sim := zip_with smul _ _).
  assert (Hsim : zlen sim = HistoryDatabase.len s).
  { unfold sim, zlen, HistoryDatabase.len, FiniteList.len, zlen.
    rewrite length_zip_with, !length_map, !length_take.
    destruct Hwf as (Hm & Hfm & Hn & Hp & Hpn & Hal & Hage & Hidx & Hrow).
    destruct Hidx as (_ & _ & _ & Hcap & _). unfold zlen in *. lia. }
  assert (Hlen0 : 0 <= HistoryDatabase.len s)
    by (unfold HistoryDatabase.len, FiniteList.len, zlen; lia).
  destruct (topk_some _ _ topk_ok sim (Z.min k (HistoryDatabase.len s))) as [tops Htops];
    [lia|].
  rewrite Htops. cbn [obind].
  pose proof (topk_length _ _ topk_ok _ _ _ Htops) as Htl.
  set (idxs := (filter _ tops).*1).
  assert (Hidxs : Forall (fun i : Z => 0 <= i < FiniteList.len (HistoryDatabase.txt s))
                    (map Z.of_nat idxs)).
  { apply Forall_forall. intros i (j & -> & Hj)%list_elem_of_fmap.
    unfold idxs in Hj. apply list_elem_of_fmap in Hj as ([j' v] & -> & Hjv).
    apply list_elem_of_filter in Hjv as [_ Hjv]. simpl.
    pose proof (topk_lookup _ _ topk_ok _ _ _ _ _ Htops Hjv) as Hl.
    apply lookup_lt_Some in Hl. unfold zlen, HistoryDatabase.len in Hsim. lia. }
  rewrite (getitem_list_of_items _ _ _ Hitems Hidxs).
  eexists. split; [done|].
  match goal with |- zlen (omap ?g ?l) <= _ => pose proof (length_omap_le g l) as Hle1 end.
  assert (Hle2 : (length idxs <= length tops)%nat).
  { unfold idxs. rewrite length_fmap. apply length_filter. }
  rewrite length_map in Hle1. unfold zlen in *. lia.
Qed.

Lemma append_returns_txt s text meta s' :
  HistoryDatabase.append embed text meta s = (Ok (), s') ->
  exists u, FiniteList.append (meta, text) (HistoryDatabase.txt s) = (Ok u, HistoryDatabase.txt s').
Proof.
  intros Happ. unfold HistoryDatabase.append in Happ. minv Happ.
  repeat match goal with
         | Hz : zoom _ _ _ _ = (Ok _, _) |- _ => apply zoom_ok in Hz as (? & ? & ->)
         end.
  simpl in *. eauto.
Qed.

End HistoryUse.

Lemma embed_ab_ok : HistoryDatabase.embed_ok 2 embed_ab.
Proof. intros text. unfold embed_ab. by repeat case_decide. Qed.


Lemma history_search_returns_witness :
  exists r, HistoryDatabase.search embed_ab hist_ab "a" 1 (fun _ => 1) 0 = Ok r
    /\ zlen r <= Z.min 1 (HistoryDatabase.len hist_ab).
Proof.
  apply (history_search_returns 2 embed_ab embed_ab_ok hist_ab "a"%string 1 (fun _ => 1) 0
           hist_ab_reachable); [reflexivity|lia].
Defined.


(** ** The conversation: what a turn reads from the shared history *)

Section ConversationTurn.
Variable embed_dims : Z.
Variable embed : string -> list R.
Hypothesis embed_dims_ok : HistoryDatabase.embed_ok embed_dims embed.

#[local] Abbreviation history_after := (Conversation.history_after embed_dims embed).
#[local] Abbreviation hwf := (HistoryDatabase.wf (Meta := string) embed_dims embed).

Lemma history_appends s (turns : list (string * string)) :
  hwf s -> Forall (fun a => a <= 0) (HistoryDatabase.age s) ->
  let s' := HistoryDatabase.run embed
              (map (fun ar : string * string => HistoryDatabase.OpAppend ar.2 (Some ar.1)) turns) s in
  hwf s'
  /\ Forall (fun a => a <= 0) (HistoryDatabase.age s')
  /\ FiniteList.len (HistoryDatabase.txt s) <= FiniteList.len (HistoryDatabase.txt s')
     <= FiniteList.len (HistoryDatabase.txt s) + zlen turns
  /\ (turns <> [] -> 0 < FiniteList.len (HistoryDatabase.txt s')).
Proof.
  revert s. induction turns as [|[agent resp] turns IH]; intros s Hwf Hage; simpl.
  - split_and!; try done; unfold zlen; simpl; lia.
  - destruct (append_wf embed_dims embed embed_dims_ok s resp (Some agent) Hwf)
      as (s1 & Happ & Hwf1 & Hage1 & _).
    rewrite Happ. simpl.
    destruct (IH s1 Hwf1) as (Hwf2 & Hage2 & Hlen2 & _).
    { rewrite Hage1. apply Forall_insert; [done|lia]. }
    destruct (append_returns_txt embed s resp (Some agent) s1 Happ) as [u Htxt].
    destruct (append_content (HistoryDatabase.txt s) (Some agent, resp)
                (history_ring_wf embed_dims embed s Hwf)) as (f' & Hf' & Hwf' & _ & HL).
    assert (Heq : (Ok (), f') = (Ok u, HistoryDatabase.txt s1))
      by (rewrite <- Hf'; exact Htxt).
    assert (Hs : f' = HistoryDatabase.txt s1) by congruence.
    clear Heq Htxt. subst f'.
    assert (Hgrow : FiniteList.len (HistoryDatabase.txt s)
                    <= FiniteList.len (HistoryDatabase.txt s1)
                    <= FiniteList.len (HistoryDatabase.txt s) + 1
                    /\ 0 < FiniteList.len (HistoryDatabase.txt s1)).
    { pose proof (history_ring_wf embed_dims embed s Hwf) as (Hmax & Hle & _).
      unfold FiniteList.append in Hf'.
      destruct (FiniteList.len (HistoryDatabase.txt s) <? FiniteList.max (HistoryDatabase.txt s))
        eqn:Efull.
      - destruct (FiniteList.max (HistoryDatabase.txt s) =? 0); [done|].
        injection Hf' as Hf'. rewrite <- Hf'. unfold FiniteList.len, zlen. simpl.
        rewrite length_app. simpl. lia.
      - destruct (py_setitem _ _ _) as [d|e] eqn:Hset; [|done].
        destruct (FiniteList.max (HistoryDatabase.txt s) =? 0); [done|].
        injection Hf' as Hf'. rewrite <- Hf'. unfold FiniteList.len. simpl.
        apply py_setitem_length in Hset. apply Z.ltb_ge in Efull.
        unfold FiniteList.len in *. lia. }
    split; [done|]. split; [done|].
    unfold zlen in *. simpl. split; [lia|]. intros _. lia.
Qed.

Lemma init_history_wf : hwf (Conversation.init_history embed_dims).
Proof. apply init_wf. lia. Qed.

Lemma history_after_facts turns :
  hwf (history_after turns)
  /\ Forall (fun a => a <= 0) (HistoryDatabase.age (history_after turns))
  /\ FiniteList.len (HistoryDatabase.txt (history_after turns)) <= zlen turns
  /\ (turns <> [] -> (HistoryDatabase.len (history_after turns) =? 0) = false).
Proof.
  destruct (history_appends (Conversation.init_history embed_dims) turns init_history_wf)
    as (Hwf & Hage & Hlen & Hpos).
  { unfold Conversation.init_history, HistoryDatabase.init.
    cbn [HistoryDatabase.age]. apply Forall_replicate. lia. }
  split_and!; try done.
  - apply Hlen.
  - intros Hne. apply Z.eqb_neq. specialize (Hpos Hne).
    unfold HistoryDatabase.len. unfold history_after, Conversation.history_after. lia.
Qed.


Lemma disc_unaged a : a <= 0 -> Conversation.disc a = 0%R.
Proof.
  intros Ha. unfold Conversation.disc.
  destruct (0 <? a) eqn:E; [apply Z.ltb_lt in E; lia|done].
Qed.

End ConversationTurn.

Lemma embed_sign_ok : HistoryDatabase.embed_ok 1 embed_sign.
Proof. intros text. unfold embed_sign. by case_decide. Qed.



(** ** Cumulative sums and batches *)

(** The sum of a list of integers. *)
#[local] Abbreviation zsum l := (foldr Z.add 0 l).

Lemma accumulate_from_zero l : accumulate l = accumulate_from 0 l.
Proof. by destruct l. Qed.

Lemma accumulate_from_sums t l :
  t :: accumulate_from t l
  = map (fun i => t + zsum (take i l)) (seq 0 (S (length l))).
Proof.
  revert t. induction l as [|x l IH]; intros t.
  - simpl. f_equal. lia.
  - cbn [accumulate_from length]. rewrite IH.
    change (seq 0 (S (S (length l)))) with (0%nat :: seq 1 (S (length l))).
    rewrite <- seq_shift, map_cons, map_map. f_equal; [simpl; lia|].
    apply map_ext. intros i. simpl. lia.
Qed.

(** X10. [cumsum(lengths)] has one entry more than [lengths], and its
    entry [i] is the sum of the first [i] lengths. *)
Theorem cumsum_prefix_sums (lengths : list Z) :
  cumsum lengths = map (fun i => zsum (take i lengths)) (seq 0 (S (length lengths))).
Proof.
  unfold cumsum. rewrite accumulate_from_zero, accumulate_from_sums.
  apply map_ext. intros i. lia.
Qed.

Lemma omap_cons_eq {A B} (g : A -> option B) (x : A) (l : list A) :
  omap g (x :: l) = match g x with Some y => y :: omap g l | None => omap g l end.
Proof. done. Qed.

Lemma omap_range_up {A} (l : list A) (a c : nat) :
  (a + c <= length l)%nat ->
  omap (fun i : Z => l !! Z.to_nat i)
       (map (fun i : nat => Z.of_nat a + Z.of_nat i * 1) (seq 0 c))
  = take c (drop a l).
Proof.
  intros Hle. rewrite <- (omap_lookup_seq l a c Hle).
  assert (Hgen : forall b, omap (fun i : Z => l !! Z.to_nat i)
             (map (fun i : nat => Z.of_nat a + Z.of_nat i * 1) (seq b c))
           = omap (fun i : nat => l !! i) (seq (a + b) c)).
  { clear Hle. induction c as [|c IH]; intros b; [done|].
    cbn [seq map]. rewrite !omap_cons_eq.
    replace (Z.to_nat (Z.of_nat a + Z.of_nat b * 1)) with (a + b)%nat by lia.
    rewrite (IH (S b)). by replace (a + S b)%nat with (S (a + b)) by lia. }
  rewrite Hgen. by rewrite Nat.add_0_r.
Qed.

(** [l[a:b]] for bounds in range. *)
Lemma py_slice_up {A} (l : list A) (a b : Z) :
  0 <= a <= b -> b <= zlen l ->
  py_slice l (Some a) (Some b) 1 = take (Z.to_nat (b - a)) (drop (Z.to_nat a) l).
Proof.
  intros Ha Hb. unfold py_slice, adjust_bound, py_range. cbv zeta.
  change (1 <? 0) with false. change (1 =? 0) with false. change (0 <? 1) with true.
  cbv iota.
  assert (E1 : (a <? 0) = false) by (apply Z.ltb_ge; lia).
  assert (E2 : (b <? 0) = false) by (apply Z.ltb_ge; lia).
  rewrite E1, E2.
  assert (Hlo : (if zlen l <=? a then zlen l else a) = a).
  { destruct (zlen l <=? a) eqn:E; [apply Z.leb_le in E; lia|done]. }
  assert (Hhi : (if zlen l <=? b then zlen l else b) = b).
  { destruct (zlen l <=? b) eqn:E; [apply Z.leb_le in E; lia|done]. }
  rewrite Hlo, Hhi.
  replace (Z.max 0 ((b - a + 1 - 1) / 1)) with (b - a) by (rewrite Z.div_1_r; lia).
  rewrite <- (omap_range_up l (Z.to_nat a) (Z.to_nat (b - a))) by (unfold zlen in Hb; lia).
  f_equal. apply map_ext. intros i. lia.
Qed.

(** [l[1:]] *)
Lemma py_slice_tail {A} (l : list A) : py_slice l (Some 1) None 1 = drop 1 l.
Proof.
  destruct l as [|x l]; [done|].
  transitivity (py_slice (x :: l) (Some 1) (Some (zlen (x :: l))) 1).
  - unfold py_slice, adjust_bound. cbv zeta.
    change (1 <? 0) with false. cbv iota.
    assert (E1 : (zlen (x :: l) <? 0) = false) by (apply Z.ltb_ge; unfold zlen; lia).
    by rewrite E1, Z.leb_refl.
  - rewrite py_slice_up by (unfold zlen; simpl; lia).
    apply take_ge. rewrite length_drop. unfold zlen. simpl. lia.
Qed.

(** [l[:-1]] *)
Lemma py_slice_init {A} (l : list A) :
  py_slice l None (Some (-1)) 1 = take (length l - 1) l.
Proof.
  destruct l as [|x l]; [done|].
  transitivity (py_slice (x :: l) (Some 0) (Some (zlen (x :: l) - 1)) 1).
  - unfold py_slice, adjust_bound. cbv zeta.
    change (1 <? 0) with false. change (-1 <? 0) with true. change (0 <? 0) with false.
    cbv iota.
    assert (E1 : (-1 + zlen (x :: l) <? 0) = false) by (apply Z.ltb_ge; unfold zlen; simpl; lia).
    assert (E2 : (zlen (x :: l) - 1 <? 0) = false) by (apply Z.ltb_ge; unfold zlen; simpl; lia).
    assert (E3 : (zlen (x :: l) <=? zlen (x :: l) - 1) = false) by (apply Z.leb_gt; lia).
    assert (E4 : (zlen (x :: l) <=? 0) = false) by (apply Z.leb_gt; unfold zlen; simpl; lia).
    rewrite E1, E2, E3, E4. by replace (-1 + zlen (x :: l)) with (zlen (x :: l) - 1) by lia.
  - rewrite py_slice_up by (unfold zlen; simpl; lia).
    rewrite drop_0. f_equal. unfold zlen. simpl. lia.
Qed.

Lemma cumul_bounds_from_zip t l :
  cumul_bounds_from t l
  = zip (take (length l) (t :: accumulate_from t l)) (accumulate_from t l).
Proof.
  revert t. induction l as [|x l IH]; intros t; [done|].
  cbn [cumul_bounds_from accumulate_from length]. rewrite IH. done.
Qed.

Lemma cumul_bounds_from_lookup t l i x :
  l !! i = Some x ->
  cumul_bounds_from t l !! i
  = Some (t + zsum (take i l), t + zsum (take i l) + x).
Proof.
  revert t i. induction l as [|y l IH]; intros t i Hi; [done|].
  destruct i as [|i]; simpl in *.
  - injection Hi as ->. f_equal. f_equal; lia.
  - rewrite (IH _ _ Hi). f_equal. f_equal; lia.
Qed.

Lemma cumul_bounds_from_length t l : length (cumul_bounds_from t l) = length l.
Proof. revert t. induction l as [|x l IH]; intros t; simpl; [done|]. by rewrite IH. Qed.

(** X11. [cumul_indices(lengths)] is what the generator
    [cumul_bounds(lengths)] yields, and its pair [i] runs from the sum
    of the first [i] lengths over the next length: the pairs follow one
    another without gap or overlap. *)
Theorem cumul_indices_bounds (lengths : list Z) :
  cumul_indices lengths = cumul_bounds lengths
  /\ length (cumul_indices lengths) = length lengths
  /\ forall i x, lengths !! i = Some x ->
       cumul_indices lengths !! i
       = Some (zsum (take i lengths), zsum (take i lengths) + x).
Proof.
  assert (Heq : cumul_indices lengths = cumul_bounds lengths).
  { unfold cumul_indices, cumul_bounds, cumsum. cbv zeta.
    rewrite py_slice_init, py_slice_tail, accumulate_from_zero, cumul_bounds_from_zip.
    simpl. rewrite drop_0.
    assert (Hlen : length (accumulate_from 0 lengths) = length lengths).
    { generalize 0. induction lengths as [|x l IH]; intros t; simpl; [done|].
      by rewrite IH. }
    by rewrite Hlen, Nat.sub_0_r. }
  rewrite Heq. split; [done|]. split.
  - apply cumul_bounds_from_length.
  - intros i x Hi. unfold cumul_bounds.
    rewrite (cumul_bounds_from_lookup 0 lengths i x Hi).
    by rewrite !Z.add_0_l.
Qed.

Lemma chunks_concat {A} (l : list A) (bs cnt : nat) :
  (0 < bs)%nat -> (length l <= cnt * bs)%nat ->
  concat (map (fun k => take bs (drop (k * bs) l)) (seq 0 cnt)) = l.
Proof.
  intros Hbs. revert l. induction cnt as [|cnt IH]; intros l Hlen.
  - simpl in *. symmetry. apply length_zero_iff_nil. lia.
  - cbn [seq map concat]. rewrite <- seq_shift, map_map.
    trans (take bs l ++ drop bs l); [|apply take_drop].
    change (0 * bs)%nat with 0%nat. rewrite drop_0. f_equal.
    etrans; [|apply (IH (drop bs l)); rewrite length_drop; lia].
    f_equal. apply map_ext. intros k. rewrite drop_drop. f_equal; simpl; lia.
Qed.

Lemma batch_indices_positive (n bs : Z) :
  0 <= n -> 0 < bs ->
  batch_indices n bs
  = Ok (map (fun k : nat => (Z.of_nat k * bs, Z.min (Z.of_nat k * bs + bs) n))
            (seq 0 (Z.to_nat ((n + bs - 1) / bs)))).
Proof.
  intros Hn Hbs. unfold batch_indices, py_range.
  assert (E1 : (bs =? 0) = false) by (apply Z.eqb_neq; lia).
  assert (E2 : (0 <? bs) = true) by (apply Z.ltb_lt; lia).
  rewrite E1, E2. cbn [obind]. rewrite map_map. f_equal.
  assert (Hq : 0 <= (n + bs - 1) / bs) by (apply Z.div_pos; lia).
  replace (Z.max 0 ((n - 0 + bs - 1) / bs)) with ((n + bs - 1) / bs)
    by (rewrite Z.sub_0_r; lia).
  apply map_ext. intros k. f_equal; lia.
Qed.

(** X12. For a positive [maxlen], [string_splitter(text, maxlen)] cuts
    the text into pieces that give the text back when they are joined;
    no piece is empty and none is longer than [maxlen]. *)
Theorem string_splitter_joins_back {A} (text : list A) (maxlen : Z) :
  0 < maxlen ->
  exists pieces, string_splitter text maxlen = Ok pieces
    /\ concat pieces = text
    /\ Forall (fun p => 0 < zlen p <= maxlen) pieces.
Proof.
  intros Hm. unfold string_splitter.
  assert (Hn : 0 <= zlen text) by (unfold zlen; lia).
  rewrite (batch_indices_positive _ _ Hn Hm). cbn [obind]. rewrite map_map.
  set (n := zlen text) in *. set (cnt := Z.to_nat ((n + maxlen - 1) / maxlen)).
  assert (Hq : 0 <= (n + maxlen - 1) / maxlen) by (apply Z.div_pos; lia).
  assert (Hlo : maxlen * ((n + maxlen - 1) / maxlen) <= n + maxlen - 1)
    by (apply Z.mul_div_le; lia).
  assert (Hhi : n + maxlen - 1 < maxlen * ((n + maxlen - 1) / maxlen) + maxlen).
  { pose proof (Z.mod_pos_bound (n + maxlen - 1) maxlen Hm) as Hmod.
    pose proof (Z.div_mod (n + maxlen - 1) maxlen) as Hdm. lia. }
  assert (Hpiece : forall k : nat, (k < cnt)%nat ->
            py_slice text (Some (Z.of_nat k * maxlen))
              (Some (Z.min (Z.of_nat k * maxlen + maxlen) n)) 1
            = take (Z.to_nat maxlen) (drop (k * Z.to_nat maxlen) text)
            /\ 0 < zlen (take (Z.to_nat maxlen) (drop (k * Z.to_nat maxlen) text)) <= maxlen).
  { intros k Hk.
    assert (Hkn : Z.of_nat k * maxlen < n) by (unfold cnt in Hk; nia).
    rewrite py_slice_up by (fold n; nia).
    replace (Z.to_nat (Z.of_nat k * maxlen)) with (k * Z.to_nat maxlen)%nat by nia.
    assert (Hlen : length (drop (k * Z.to_nat maxlen) text)
                   = Z.to_nat (n - Z.of_nat k * maxlen)).
    { rewrite length_drop. unfold n, zlen. nia. }
    split.
    - destruct (Z.min_spec (Z.of_nat k * maxlen + maxlen) n) as [[Hmin ->]|[Hmin ->]].
      + f_equal. lia.
      + rewrite take_ge by lia. symmetry. apply take_ge. lia.
    - unfold zlen. rewrite length_take, Hlen. lia. }
  exists (map (fun k => take (Z.to_nat maxlen) (drop (k * Z.to_nat maxlen) text)) (seq 0 cnt)).
  split_and!.
  - f_equal. apply map_ext_in. intros k Hk%in_seq. simpl.
    apply Hpiece. lia.
  - apply chunks_concat; [lia|]. unfold cnt. fold (zlen text) n.
    unfold n, zlen in *. nia.
  - apply Forall_forall. intros p (k & -> & Hk%elem_of_seq)%list_elem_of_fmap.
    apply Hpiece. lia.
Qed.

Lemma batch_loop_spec {A} (bs : Z) (fuel : nat) (gen : list A) :
  0 < bs -> (length gen < fuel)%nat ->
  exists batches, batch_loop fuel gen bs = Ok batches
    /\ concat batches = gen
    /\ forall i b, batches !! i = Some b ->
         0 < zlen b <= bs /\ ((S i < length batches)%nat -> zlen b = bs).
Proof.
  intros Hbs. revert gen. induction fuel as [|fuel IH]; intros gen Hlen; [lia|].
  cbn [batch_loop]. unfold islice.
  assert (E : (bs <? 0) = false) by (apply Z.ltb_ge; lia).
  rewrite E. cbn [obind fst snd].
  destruct gen as [|x gen].
  - rewrite take_nil. exists []. split_and!; try done.
  - destruct (Z.to_nat bs) as [|n] eqn:En; [lia|].
    cbn [take drop].
    destruct (IH (drop n gen)) as (more & Hmore & Hcat & Hall).
    { rewrite length_drop. simpl in Hlen. lia. }
    rewrite Hmore. cbn [obind].
    exists ((x :: take n gen) :: more). split_and!.
    + done.
    + simpl. rewrite Hcat. by rewrite take_drop.
    + intros i b Hi. destruct i as [|i]; simpl in Hi.
      * injection Hi as <-. unfold zlen. simpl. rewrite length_take. split; [lia|].
        intros Hmany. destruct more as [|b1 more]; [simpl in Hmany; lia|].
        destruct (Hall 0%nat b1 eq_refl) as [Hb1 _].
        assert (Hne : drop n gen <> []).
        { intros Hnil. rewrite Hnil in Hcat. simpl in Hcat.
          apply app_eq_nil in Hcat as [-> _]. unfold zlen in Hb1. simpl in Hb1. lia. }
        assert (Hgt : (n < length gen)%nat).
        { destruct (decide (n < length gen)%nat); [done|].
          exfalso. apply Hne. apply drop_ge. lia. }
        lia.
      * destruct (Hall i b Hi) as [Hb Hfull]. split; [done|].
        intros Hmany. apply Hfull. simpl in Hmany. lia.
Qed.


(** X14. A batch size that is not positive.  With 0, [batch_indices]
    and [string_splitter] raise ValueError while [batch_generator]
    yields no batch; with a negative size [Z.neg p] it is the other way
    round: [batch_generator] raises ValueError and [string_splitter]
    yields no piece, whatever the text. *)
Theorem batch_size_not_positive {A} (text gen : list A) (n : Z) (p : positive) :
  batch_indices n 0 = Raise ValueError
  /\ string_splitter text 0 = Raise ValueError
  /\ batch_generator gen 0 = Ok []
  /\ string_splitter text (Z.neg p) = Ok []
  /\ batch_generator gen (Z.neg p) = Raise ValueError.
Proof.
  split_and!; try done.
  unfold string_splitter, batch_indices, py_range.
  change (Z.neg p =? 0) with false. change (0 <? Z.neg p) with false. cbv iota.
  assert (Hq : (0 - zlen text - Z.neg p - 1) / - Z.neg p <= 0).
  { apply Z.lt_succ_r. apply Z.div_lt_upper_bound; unfold zlen; lia. }
  by replace (Z.max 0 ((0 - zlen text - Z.neg p - 1) / - Z.neg p)) with 0 by lia.
Qed.

Lemma string_splitter_joins_back_witness :
  exists pieces, string_splitter [1; 2; 3; 4; 5] 2 = Ok pieces
    /\ concat pieces = [1; 2; 3; 4; 5]
    /\ Forall (fun p => 0 < zlen p <= 2) pieces.
Proof. apply (string_splitter_joins_back [1; 2; 3; 4; 5] 2). lia. Defined.


(** ** Dictionaries, [groupby_dict] and [Bundle] *)

Section PyDictFacts.
Context {K V : Type} `{EqDecision K}.
Implicit Types d : PyDict.t K V.

Lemma find_key_None d k :
  k ∉ d.*1 -> list_find (fun kv : K * V => kv.1 = k) d = None.
Proof.
  intros Hk. apply list_find_None. apply Forall_forall. intros [k' v] Hin Heq.
  simpl in Heq. subst k'. apply Hk. apply list_elem_of_fmap. by exists (k, v).
Qed.

Lemma setitem_fresh d k v : k ∉ d.*1 -> PyDict.setitem d k v = d ++ [(k, v)].
Proof. intros Hk. unfold PyDict.setitem. by rewrite (find_key_None d k Hk). Qed.

Lemma update_fresh d kvs :
  NoDup (d ++ kvs).*1 -> PyDict.update d kvs = d ++ kvs.
Proof.
  revert d. induction kvs as [|[k v] kvs IH]; intros d Hnd.
  - by rewrite app_nil_r.
  - assert (Hk : k ∉ d.*1).
    { rewrite fmap_app in Hnd. apply NoDup_app in Hnd as (_ & Hdis & _).
      intros Hin. apply (Hdis k Hin). simpl. left. }
    change (PyDict.update d ((k, v) :: kvs))
      with (PyDict.update (PyDict.setitem d k v) kvs).
    rewrite (setitem_fresh d k v Hk).
    rewrite IH by (by rewrite <- app_assoc). by rewrite <- app_assoc.
Qed.

Lemma getitem_present d k v :
  NoDup d.*1 -> (k, v) ∈ d -> PyDict.getitem d k = Ok v.
Proof.
  intros Hnd Hin. unfold PyDict.getitem.
  destruct (list_find _ d) as [[i [k' v']]|] eqn:Hf.
  - apply list_find_Some in Hf as (Hi & Hk & _). simpl in Hk. subst k'.
    apply list_elem_of_lookup in Hin as [j Hj].
    assert (Hij : i = j).
    { eapply NoDup_lookup; [exact Hnd| |].
      - by rewrite list_lookup_fmap, Hi.
      - by rewrite list_lookup_fmap, Hj. }
    subst j. rewrite Hi in Hj. by injection Hj as ->.
  - apply list_find_None in Hf. rewrite Forall_forall in Hf.
    by specialize (Hf _ Hin).
Qed.

Lemma getitem_absent d k : k ∉ d.*1 -> PyDict.getitem d k = Raise KeyError.
Proof. intros Hk. unfold PyDict.getitem. by rewrite find_key_None. Qed.
End PyDictFacts.

Section SortedFacts.
Context {A K : Type} `{EqDecision K} (ltb : K -> K -> bool) (key : A -> K).
Hypothesis ltb_irrefl : forall x, ltb x x = false.
Hypothesis ltb_trans : forall x y z, ltb x y = true -> ltb y z = true -> ltb x z = true.
Hypothesis ltb_total : forall x y, ltb x y = false -> ltb y x = false -> x = y.

(** [a] may stand in front of [b]. *)
#[local] Abbreviation le a b := (ltb (key b) (key a) = false).

Lemma insert_by_elem x l z : z ∈ insert_by ltb key x l <-> z = x \/ z ∈ l.
Proof.
  induction l as [|y l IH]; simpl.
  - rewrite list_elem_of_singleton. split; [by left|].
    by intros [?|?%elem_of_nil].
  - destruct (ltb (key y) (key x)); rewrite !elem_of_cons; [rewrite IH|]; tauto.
Qed.

(** Sorting is stable: the items of one key keep their order. *)
Lemma filter_insert_by k x l :
  filter (fun y => key y = k) (insert_by ltb key x l)
  = if decide (key x = k) then x :: filter (fun y => key y = k) l
    else filter (fun y => key y = k) l.
Proof.
  induction l as [|y l IH]; simpl.
  - rewrite filter_cons, filter_nil. done.
  - destruct (ltb (key y) (key x)) eqn:E.
    + rewrite !filter_cons, IH.
      destruct (decide (key y = k)) as [Hy|Hy]; [|done].
      destruct (decide (key x = k)) as [Hx|Hx]; [|done].
      rewrite Hy, Hx, ltb_irrefl in E. done.
    + by rewrite (filter_cons _ x).
Qed.

Lemma filter_py_sorted k l :
  filter (fun y => key y = k) (py_sorted ltb key l) = filter (fun y => key y = k) l.
Proof.
  induction l as [|x l IH]; [done|].
  cbn [py_sorted foldr]. fold (py_sorted ltb key l).
  by rewrite filter_insert_by, filter_cons, IH.
Qed.

Lemma insert_by_sorted x l :
  StronglySorted (fun a b => le a b) l ->
  StronglySorted (fun a b => le a b) (insert_by ltb key x l).
Proof.
  induction 1 as [|y l Hs IH Hall]; simpl.
  - by repeat constructor.
  - destruct (ltb (key y) (key x)) eqn:E.
    + constructor; [done|]. apply Forall_forall. intros z Hz%insert_by_elem.
      destruct Hz as [->|Hz].
      * destruct (ltb (key x) (key y)) eqn:E2; [|done].
        pose proof (ltb_irrefl (key y)) as Hirr.
        by rewrite (ltb_trans _ _ _ E E2) in Hirr.
      * rewrite Forall_forall in Hall. by apply Hall.
    + constructor; [by constructor|]. constructor; [done|].
      apply Forall_forall. intros z Hz. rewrite Forall_forall in Hall.
      specialize (Hall z Hz). simpl in Hall.
      destruct (ltb (key z) (key x)) eqn:E2; [|done].
      destruct (ltb (key x) (key y)) eqn:E3.
      * by rewrite (ltb_trans _ _ _ E2 E3) in Hall.
      * rewrite (ltb_total _ _ E3 E) in E2. by rewrite E2 in Hall.
Qed.

Lemma py_sorted_sorted l : StronglySorted (fun a b => le a b) (py_sorted ltb key l).
Proof.
  induction l as [|x l IH]; [constructor|].
  cbn [py_sorted foldr]. by apply insert_by_sorted.
Qed.

(** In a sorted list the items behind a first item of another key do
    not have the key of the item in front. *)
Lemma sorted_no_later_key x y l z :
  StronglySorted (fun a b => le a b) (x :: y :: l) ->
  key x <> key y -> z ∈ y :: l -> key z <> key x.
Proof.
  intros Hs Hne Hz Heq. apply StronglySorted_inv in Hs as [Hs Hx].
  apply StronglySorted_inv in Hs as [_ Hy].
  rewrite Forall_forall in Hx, Hy.
  apply elem_of_cons in Hz as [->|Hz]; [by apply Hne|].
  pose proof (Hx y ltac:(left)) as Hxy. pose proof (Hy z Hz) as Hyz. simpl in *.
  rewrite Heq in Hyz. apply Hne. by apply ltb_total.
Qed.

(** The groups of a sorted list: one group per key, holding the items of
    that key in their order. *)
Lemma groupby_sorted l :
  StronglySorted (fun a b => le a b) l ->
  NoDup (groupby key l).*1
  /\ (forall k g, (k, g) ∈ groupby key l -> g = filter (fun y => key y = k) l /\ g <> [])
  /\ (forall y, y ∈ l -> key y ∈ (groupby key l).*1)
  /\ match l, groupby key l with
     | y :: _, (k, _) :: _ => k = key y
     | [], [] => True
     | _, _ => False
     end.
Proof.
  induction l as [|x l IH]; intros Hs.
  - simpl. split_and!; try done.
    + constructor.
    + by intros k g ?%elem_of_nil.
    + by intros y ?%elem_of_nil.
  - pose proof Hs as Hs0. apply StronglySorted_inv in Hs as [Hs Hx].
    destruct (IH Hs) as (Hnd & Hgrp & Hkeys & Hhead). clear IH.
    cbn [groupby]. destruct (groupby key l) as [|[k g] rest] eqn:HG.
    + destruct l as [|y l]; [|by rewrite HG in Hhead]. simpl.
      split_and!; try done.
      * apply NoDup_singleton.
      * intros k g [=-> ->]%list_elem_of_singleton. rewrite filter_cons, filter_nil.
        by rewrite decide_True.
      * intros y ->%list_elem_of_singleton. left.
    + destruct l as [|y l]; [by rewrite HG in Hhead|]. rewrite HG in Hhead. subst k.
      destruct (decide (key x = key y)) as [Heq|Hne].
      * split_and!; try done.
        -- intros k g' [[= -> ->]|Hin]%elem_of_cons.
           ++ rewrite filter_cons, decide_True by done.
              destruct (Hgrp (key y) g ltac:(left)) as [-> _]. done.
           ++ destruct (Hgrp k g' ltac:(by right)) as [-> Hne']. split; [|done].
              rewrite (filter_cons _ x). rewrite decide_False; [done|].
              intros Hk. simpl in Hnd. apply NoDup_cons in Hnd as [Hnotin _].
              apply Hnotin. rewrite <- Heq, Hk. apply list_elem_of_fmap.
              by exists (k, filter (fun y0 => key y0 = k) (y :: l)).
        -- intros z [->|Hz]%elem_of_cons; [rewrite Heq; simpl; left|by apply Hkeys].
      * assert (Hno : forall z, z ∈ y :: l -> key z <> key x)
          by (intros z Hz; by eapply sorted_no_later_key).
        assert (Hfresh : key x ∉ ((key y, g) :: rest).*1).
        { intros ([k' g'] & Hk & Hin)%list_elem_of_fmap. simpl in Hk. subst k'.
          destruct (Hgrp (key x) g' Hin) as [-> Hne'].
          apply Hne'. apply filter_none. apply Forall_forall. intros z Hz. by apply Hno. }
        split_and!; try done.
        -- rewrite fmap_cons. by apply NoDup_cons.
        -- intros k g' [[= -> ->]|Hin]%elem_of_cons.
           ++ split; [|done]. rewrite filter_cons, decide_True by done. f_equal.
              symmetry. apply filter_none. apply Forall_forall. intros z Hz. by apply Hno.
           ++ destruct (Hgrp k g' Hin) as [-> Hne']. split; [|done].
              rewrite (filter_cons _ x). rewrite decide_False; [done|].
              intros Hk. apply Hfresh. rewrite Hk. apply list_elem_of_fmap.
              by exists (k, filter (fun y0 => key y0 = k) (y :: l)).
        -- intros z [->|Hz]%elem_of_cons; [simpl; left|].
           rewrite fmap_cons. right. by apply Hkeys.
Qed.
End SortedFacts.

Section GroupByDict.
Context {A K : Type} `{EqDecision K} (ltb : K -> K -> bool).
Hypothesis ltb_irrefl : forall x, ltb x x = false.
Hypothesis ltb_trans : forall x y z, ltb x y = true -> ltb y z = true -> ltb x z = true.
Hypothesis ltb_total : forall x y, ltb x y = false -> ltb y x = false -> x = y.

(** X15. [groupby_dict(vals, grps)] maps every group that occurs to the
    values paired with it, in the order in which they were given, and
    holds no other key.  The keys are compared with [<], which has to
    be a strict total order on them. *)
Theorem groupby_dict_groups (vals : list A) (grps : list K) (k : K) :
  PyDict.getitem (groupby_dict ltb vals grps) k
  = match filter (fun p : A * K => p.2 = k) (zip vals grps) with
    | [] => Raise KeyError
    | ps => Ok ps.*1
    end.
Proof.
  unfold groupby_dict. cbv zeta.
  set (l := py_sorted ltb snd (zip vals grps)).
  pose proof (py_sorted_sorted ltb snd ltb_irrefl ltb_trans ltb_total (zip vals grps)) as Hs.
  fold l in Hs.
  destruct (groupby_sorted ltb snd ltb_total l Hs) as (Hnd & Hgrp & Hkeys & _).
  pose proof (filter_py_sorted ltb snd ltb_irrefl k (zip vals grps)) as Hfil. fold l in Hfil.
  set (G := groupby snd l) in *.
  set (kvs := map (fun kv : K * list (A * K) => (kv.1, kv.2.*1)) G).
  assert (Hk1 : kvs.*1 = G.*1).
  { unfold kvs. rewrite <- list_fmap_compose. by apply list_fmap_ext. }
  assert (Hd : PyDict.of_pairs kvs = kvs).
  { unfold PyDict.of_pairs. rewrite update_fresh; [done|]. simpl. by rewrite Hk1. }
  rewrite Hd, <- Hfil.
  destruct (decide (k ∈ G.*1)) as [Hin|Hout].
  - apply list_elem_of_fmap in Hin as ([k' g] & Hk & Hin). simpl in Hk. subst k'.
    destruct (Hgrp k g Hin) as [Hg Hne]. rewrite <- Hg.
    rewrite (getitem_present kvs k g.*1); [by destruct g| by rewrite Hk1 |].
    unfold kvs. apply list_elem_of_fmap. by exists (k, g).
  - rewrite getitem_absent by (by rewrite Hk1).
    destruct (filter _ l) as [|p ps] eqn:Hf; [done|].
    exfalso. apply Hout.
    assert (Hp : p ∈ filter (fun p : A * K => p.2 = k) l) by (rewrite Hf; left).
    apply list_elem_of_filter in Hp as [<- Hp]. by apply Hkeys.
Qed.
End GroupByDict.

Lemma groupby_dict_groups_witness :
  PyDict.getitem (groupby_dict Z.ltb ["a"; "b"; "c"; "d"]%string [2; 1; 2; 1]) 2
  = match filter (fun p : string * Z => p.2 = 2)
            (zip ["a"; "b"; "c"; "d"]%string [2; 1; 2; 1]) with
    | [] => Raise KeyError
    | ps => Ok ps.*1
    end.
Proof.
  apply (groupby_dict_groups Z.ltb).
  - intros x. apply Z.ltb_irrefl.
  - intros x y z Hxy%Z.ltb_lt Hyz%Z.ltb_lt. apply Z.ltb_lt. lia.
  - intros x y Hxy%Z.ltb_ge Hyx%Z.ltb_ge. lia.
Defined.

Section BundleFacts.
Context {V : Type}.

Lemma insert_by_fst (x : string * V) (l : list (string * V)) :
  map (fun kv : string * V => kv.1) (insert_by String.ltb fst x l)
  = insert_by String.ltb (fun k => k) x.1 (map (fun kv : string * V => kv.1) l).
Proof.
  induction l as [|y l IH]; [done|]. simpl.
  destruct (String.ltb y.1 x.1); simpl; [by rewrite IH|done].
Qed.

(** X16. [Bundle.values()] does not return the values: it returns the
    sorted keys, the same list as [Bundle.keys()]. *)
Theorem bundle_values_are_keys (self : Bundle.t V) :
  Bundle.values self = Bundle.keys self.
Proof.
  unfold Bundle.values, Bundle.keys, Bundle.items.
  change (self.*1) with (map (fun kv : string * V => kv.1) self).
  induction self as [|x l IH]; [done|].
  cbn [py_sorted foldr map]. rewrite insert_by_fst. f_equal. exact IH.
Qed.
End BundleFacts.

(** ** Group ids *)

Section IndexDictFacts.
Context {K : Type} `{EqDecision K}.
Implicit Types d : IndexDict.t K.

Lemma indexdict_update_fresh d kvs :
  (forall k, k ∈ kvs.*1 -> k ∉ d.*1) -> NoDup kvs.*1 ->
  IndexDict.update d kvs = d ++ kvs.
Proof.
  revert d. induction kvs as [|[k v] kvs IH]; intros d Hfresh Hnd.
  - simpl. by rewrite app_nil_r.
  - cbn [IndexDict.update]. rewrite fmap_cons in Hnd. apply NoDup_cons in Hnd as [Hk Hnd].
    assert (Hkd : k ∉ d.*1) by (apply Hfresh; rewrite fmap_cons; left).
    rewrite (find_key_None d k Hkd).
    rewrite IH; [by rewrite <- app_assoc| |done].
    intros k' Hk'. rewrite fmap_app. intros [Hin|Hin]%elem_of_app.
    + revert Hin. apply Hfresh. rewrite fmap_cons. by right.
    + simpl in Hin. apply list_elem_of_singleton in Hin. by subst.
Qed.

(** What [add] does to the dict: the keys that are new, without
    repetition, are appended with the next ids. *)
Lemma add_keys_appends d ks :
  exists new,
    IndexDict.add_keys d ks
    = d ++ zip new (map (fun i => zlen d + Z.of_nat i) (seq 0 (length new)))
    /\ NoDup new
    /\ (forall k, k ∈ new <-> k ∈ ks /\ k ∉ d.*1).
Proof.
  unfold IndexDict.add_keys, IndexDict.keys. cbv zeta.
  set (new := list_difference (py_set ks) (list_intersection d.*1 (py_set ks))).
  assert (Hnd : NoDup new).
  { apply NoDup_list_difference. apply NoDup_remove_dups. }
  assert (Hnew : forall k, k ∈ new <-> k ∈ ks /\ k ∉ d.*1).
  { intros k. unfold new, py_set.
    rewrite list_elem_of_difference, list_elem_of_intersection, elem_of_remove_dups.
    tauto. }
  exists new. split_and!; try done.
  unfold zlen at 2. rewrite Nat2Z.id.
  set (ids := map _ (seq 0 (length new))).
  assert (Hlen : length ids = length new) by (unfold ids; by rewrite length_map, length_seq).
  apply indexdict_update_fresh.
  - intros k Hk. rewrite fst_zip in Hk by lia. by apply Hnew.
  - rewrite fst_zip by lia. done.
Qed.

(** The ids stay [0 .. len-1] in insertion order and no key occurs
    twice. *)
Lemma add_keys_dense d ks :
  NoDup d.*1 /\ d.*2 = map Z.of_nat (seq 0 (length d)) ->
  NoDup (IndexDict.add_keys d ks).*1
  /\ (IndexDict.add_keys d ks).*2
     = map Z.of_nat (seq 0 (length (IndexDict.add_keys d ks))).
Proof.
  intros [Hnd Hids]. destruct (add_keys_appends d ks) as (new & -> & Hnew & Hin).
  set (ids := map _ (seq 0 (length new))).
  assert (Hlen : length ids = length new) by (unfold ids; by rewrite length_map, length_seq).
  assert (Hids' : ids = map (fun i => Z.of_nat (length d) + Z.of_nat i) (seq 0 (length new)))
    by done.
  clearbody ids. split.
  - rewrite fmap_app, fst_zip by (by rewrite Hlen). apply NoDup_app. split; [done|]. split; [|done].
    intros k Hk Hk'. apply Hin in Hk' as [_ Hk']. done.
  - rewrite fmap_app, snd_zip by (by rewrite Hlen). rewrite Hids, length_app, length_zip, Hlen.
    rewrite Nat.min_id, seq_app, map_app. f_equal.
    rewrite Hids'. clear. generalize (length new). intros n.
    replace (0 + length d)%nat with (length d + 0)%nat by lia.
    rewrite <- (fmap_add_seq (length d) 0 n).
    rewrite <- list_fmap_compose. apply list_fmap_ext. intros i x _. simpl. lia.
Qed.

Lemma getitem_Ok d k v :
  NoDup d.*1 -> IndexDict.getitem d k = Ok v <-> (k, v) ∈ d.
Proof.
  intros Hnd. unfold IndexDict.getitem. split.
  - destruct (list_find _ d) as [[i [k' v']]|] eqn:Hf; [|done].
    intros [= ->]. apply list_find_Some in Hf as (Hi & Hk & _). simpl in Hk. subst k'.
    by eapply list_elem_of_lookup_2.
  - intros Hin. destruct (list_find _ d) as [[i [k' v']]|] eqn:Hf.
    + apply list_find_Some in Hf as (Hi & Hk & _). simpl in Hk. subst k'.
      apply list_elem_of_lookup in Hin as [j Hj].
      assert (Hij : i = j).
      { eapply NoDup_lookup; [exact Hnd| |].
        - by rewrite list_lookup_fmap, Hi.
        - by rewrite list_lookup_fmap, Hj. }
      subst j. rewrite Hi in Hj. by injection Hj as ->.
    + apply list_find_None in Hf. rewrite Forall_forall in Hf. by specialize (Hf _ Hin).
Qed.

(** X17. However the group registry was filled, by any calls of [add]
    with single keys or lists of keys, it holds no key twice, its ids
    are [0, 1, 2, ...] in the order of its entries, and two different
    keys never share an id. *)
Theorem indexdict_ids_dense (adds : list (arg K)) :
  let d := foldl IndexDict.add IndexDict.init adds in
  NoDup d.*1
  /\ d.*2 = map Z.of_nat (seq 0 (length d))
  /\ forall k1 k2 v,
       IndexDict.getitem d k1 = Ok v -> IndexDict.getitem d k2 = Ok v -> k1 = k2.
Proof.
  cbv zeta.
  assert (Hd : NoDup (foldl IndexDict.add IndexDict.init adds).*1
               /\ (foldl IndexDict.add IndexDict.init adds).*2
                  = map Z.of_nat (seq 0 (length (foldl IndexDict.add IndexDict.init adds)))).
  { induction adds as [|a adds IH] using rev_ind.
    - simpl. split; [constructor|done].
    - rewrite foldl_app. cbn [foldl]. destruct a as [k|ks]; by apply add_keys_dense. }
  destruct Hd as [Hnd Hids]. split_and!; try done.
  set (d := foldl IndexDict.add IndexDict.init adds) in *.
  intros k1 k2 v H1%getitem_Ok H2%getitem_Ok; try done.
  apply list_elem_of_lookup in H1 as [i Hi]. apply list_elem_of_lookup in H2 as [j Hj].
  assert (Hvi : d.*2 !! i = Some v) by (by rewrite list_lookup_fmap, Hi).
  assert (Hvj : d.*2 !! j = Some v) by (by rewrite list_lookup_fmap, Hj).
  rewrite Hids in Hvi, Hvj.
  apply list_lookup_fmap_Some in Hvi as (i' & -> & Hi').
  apply list_lookup_fmap_Some in Hvj as (j' & Hijv & Hj').
  apply lookup_seq in Hi' as [-> _]. apply lookup_seq in Hj' as [-> _].
  assert (i = j) by lia. subst j. rewrite Hi in Hj. by injection Hj as ->.
Qed.

Lemma getitem_app_l d d' k v :
  IndexDict.getitem d k = Ok v -> IndexDict.getitem (d ++ d') k = Ok v.
Proof.
  unfold IndexDict.getitem.
  destruct (list_find _ d) as [[i [k' v']]|] eqn:Hf; [|done].
  intros [= ->]. by rewrite (list_find_app_l _ _ _ _ _ Hf).
Qed.

Lemma getitem_elem d k :
  k ∈ d.*1 -> exists v, IndexDict.getitem d k = Ok v.
Proof.
  intros ([k' v] & Hk & Hin)%list_elem_of_fmap. simpl in Hk. subst k'.
  unfold IndexDict.getitem.
  destruct (list_find (fun kv : K * Z => kv.1 = k) d) as [[i [k' v']]|] eqn:Hf; [eauto|].
  apply list_find_None in Hf. rewrite Forall_forall in Hf. by specialize (Hf _ Hin).
Qed.

Lemma idx_keys_after_add d ks ks' :
  (forall k, k ∈ ks' -> k ∈ ks) ->
  exists r, IndexDict.idx_keys (IndexDict.add_keys d ks) ks' = Ok r.
Proof.
  intros Hsub. unfold IndexDict.idx_keys. apply omapM_ok. apply Forall_forall.
  intros k Hk. apply getitem_elem.
  destruct (add_keys_appends d ks) as (new & -> & Hnd & Hin).
  rewrite fmap_app, fst_zip by (by rewrite length_map, length_seq).
  apply elem_of_app. destruct (decide (k ∈ d.*1)); [by left|right].
  apply Hin. split; [by apply Hsub|done].
Qed.

Lemma idx_after_add (d : IndexDict.t K) (a : arg K) :
  exists r, IndexDict.idx (IndexDict.add d a) a = Ok r.
Proof.
  destruct a as [k|ks]; simpl.
  - destruct (idx_keys_after_add d [k] [k]) as [r Hr]; [done|].
    rewrite Hr. simpl. pose proof (omapM_length _ _ _ Hr) as Hlen.
    destruct r as [|g r]; [done|eauto].
  - destruct (idx_keys_after_add d ks ks) as [r Hr]; [done|].
    rewrite Hr. simpl. eauto.
Qed.

(** X18. After [add(keys)] the call [idx(keys)] returns, for one key as
    for a list of keys, and [add] leaves the id of every key that was
    present as it was. *)
Theorem indexdict_add_then_idx (d : IndexDict.t K) (a : arg K) :
  (exists r, IndexDict.idx (IndexDict.add d a) a = Ok r)
  /\ forall k v, IndexDict.getitem d k = Ok v ->
       IndexDict.getitem (IndexDict.add d a) k = Ok v.
Proof.
  split.
  - apply idx_after_add.
  - intros k v Hk.
    assert (Hgen : forall ks, IndexDict.getitem (IndexDict.add_keys d ks) k = Ok v).
    { intros ks. destruct (add_keys_appends d ks) as (new & -> & _).
      by apply getitem_app_l. }
    destruct a; apply Hgen.
Qed.
End IndexDictFacts.

(** ** The current index: labels under [add], [get] and [remove] *)

Section KeepsRun.
Context {St Sub : Type} (R : St -> St -> Prop).

Lemma keeps_zoom_run {A} (proj : St -> Sub) (upd : Sub -> St -> St) (m : M Sub A) :
  (forall s, R s (upd (m (proj s)).2 s)) -> keeps R (zoom proj upd m).
Proof. intros Hu s. unfold zoom. specialize (Hu s). by destruct (m (proj s)) as [r x]. Qed.
End KeepsRun.

Lemma omapM_raises {A B} (f : A -> outcome B) (l : list A) (x : A) (e0 : exn) :
  (forall y e, f y = Raise e -> e = e0) ->
  x ∈ l -> f x = Raise e0 -> omapM f l = Raise e0.
Proof.
  intros Hall Hin Hx. induction l as [|y l IH]; [by apply elem_of_nil in Hin|].
  simpl. destruct (f y) as [b|e] eqn:E.
  - apply elem_of_cons in Hin as [->|Hin]; [congruence|]. simpl. by rewrite IH.
  - simpl. by rewrite (Hall y e E).
Qed.

Lemma filter_ext_elem {A} (P Q : A -> Prop) `{!forall x, Decision (P x)}
    `{!forall x, Decision (Q x)} (l : list A) :
  (forall x, x ∈ l -> P x <-> Q x) -> filter P l = filter Q l.
Proof.
  induction l as [|x l IH]; intros Hall; [done|].
  rewrite !filter_cons. rewrite IH by (intros y Hy; apply Hall; by right).
  destruct (decide (P x)) as [HP|HP], (decide (Q x)) as [HQ|HQ]; try done.
  - exfalso. apply HQ. apply Hall; [left|done].
  - exfalso. apply HP. apply Hall; [left|done].
Qed.

Section CurrentIndex.
Context {L K T : Type} `{EqDecision L} `{EqDecision K} `{Numeric T}.
Implicit Types self s : TorchVectorIndex.t L K T.

#[local] Abbreviation labels_of s := (OrderedSet.items (TorchVectorIndex.labels s)).
#[local] Abbreviation set_of s := (OrderedSet._set (TorchVectorIndex.labels s)).

Lemma index_absent (o : OrderedSet.t L) l :
  l ∉ OrderedSet.items o -> OrderedSet.index o l = Raise ValueError.
Proof.
  intros Hl. unfold OrderedSet.index.
  destruct (list_find _ _) as [[i y]|] eqn:Hf; [|done].
  apply list_find_Some in Hf as (Hi & -> & _). exfalso. apply Hl.
  by eapply list_elem_of_lookup_2.
Qed.

Lemma index_raises (o : OrderedSet.t L) l e :
  OrderedSet.index o l = Raise e -> e = ValueError.
Proof. unfold OrderedSet.index. destruct (list_find _ _) as [[i y]|]; by intros [=]. Qed.

(** X19. [get] of a label the index does not hold raises the ValueError
    of [list.index]; the check for the index -1 that follows in the
    source is never reached. *)
Theorem get_missing_label_raises self (labs : list L) (l : L) :
  l ∈ labs ->
  TorchVectorIndex.contains self l = false ->
  TorchVectorIndex.get self labs = Raise ValueError.
Proof.
  intros Hin Hc. unfold TorchVectorIndex.contains, OrderedSet.contains in Hc.
  apply bool_decide_eq_false in Hc. unfold TorchVectorIndex.get.
  rewrite (omapM_raises _ labs l ValueError); [done| |done|by apply index_absent].
  intros y e. apply index_raises.
Qed.

Lemma expand_labels n p s :
  TorchVectorIndex.labels (TorchVectorIndex.expand n p s).2 = TorchVectorIndex.labels s.
Proof.
  unfold TorchVectorIndex.expand, bind, lift, ret, gets, when, modify.
  destruct p.
  - destruct (next_power_of_2 n) as [y|e]; simpl; [|done].
    by destruct (_ <? y).
  - simpl. by destruct (_ <? n).
Qed.

Lemma located_labels (labs sub : list L) :
  (TorchVectorIndex.located labs sub).*2 = filter (fun l => l ∈ sub) labs.
Proof.
  unfold TorchVectorIndex.located, enumerate.
  assert (Hgen : forall n,
    (filter (fun ix : Z * L => ix.2 ∈ sub) (imap (fun i x => (Z.of_nat (n + i), x)) labs)).*2
    = filter (fun l => l ∈ sub) labs).
  { induction labs as [|x labs IH]; intros n; [done|].
    cbn [imap]. rewrite !filter_cons. cbn [snd].
    specialize (IH (S n)).
    assert (Hext : imap ((fun i x => (Z.of_nat (n + i), x)) ∘ S) labs
                   = imap (fun i x => (Z.of_nat (S n + i), x)) labs).
    { apply imap_ext. intros i y _. simpl. f_equal. lia. }
    rewrite Hext. destruct (decide (x ∈ sub)); [rewrite fmap_cons|]; by rewrite IH. }
  apply (Hgen 0%nat).
Qed.

(** The labels of [labs] that [add] takes for new: those the set part
    of the label store does not hold. *)
Lemma novel_labels self (labs : list L) :
  filter (fun l => l ∈ list_difference (py_set labs)
                        (OrderedSet.intersection (TorchVectorIndex.labels self) (py_set labs)))
         labs
  = filter (fun l => l ∉ set_of self) labs.
Proof.
  apply filter_ext_elem. intros l Hl.
  unfold OrderedSet.intersection, py_set.
  rewrite list_elem_of_difference, list_elem_of_intersection, elem_of_remove_dups.
  tauto.
Qed.
#[local] Instance labels_prefix_preorder :
  PreOrder (fun s s' : TorchVectorIndex.t L K T => labels_of s `prefix_of` labels_of s').
Proof.
  split; [by intros s|]. intros s1 s2 s3 H12 H23. by etrans.
Qed.

Lemma expand_keeps_labels n p :
  keeps (fun s s' : TorchVectorIndex.t L K T => labels_of s `prefix_of` labels_of s')
        (TorchVectorIndex.expand n p).
Proof. intros s. by rewrite expand_labels. Qed.

Lemma extend_items (o : OrderedSet.t L) ks :
  OrderedSet.items (OrderedSet.extend ks o).2 = OrderedSet.items o
  \/ OrderedSet.items (OrderedSet.extend ks o).2 = OrderedSet.items o ++ ks.
Proof.
  unfold OrderedSet.extend. destruct (negb _); simpl; [by left|by right].
Qed.

Lemma extend_ok (o : OrderedSet.t L) ks u x :
  OrderedSet.extend ks o = (Ok u, x) ->
  OrderedSet.items x = OrderedSet.items o ++ ks.
Proof.
  unfold OrderedSet.extend. destruct (negb _); [done|]. by intros [= _ <-].
Qed.

Lemma located_none (labs : list L) : (TorchVectorIndex.located labs []).*2 = [].
Proof.
  rewrite located_labels. apply filter_none. apply Forall_forall.
  intros l _ Hl. by apply elem_of_nil in Hl.
Qed.

Lemma add_keeps_labels labs vecs grps strict :
  keeps (fun s s' : TorchVectorIndex.t L K T => labels_of s `prefix_of` labels_of s')
        (TorchVectorIndex.add labs vecs grps strict).
Proof.
  unfold TorchVectorIndex.add.
  repeat first
    [ apply expand_keeps_labels
    | apply keeps_bind; [typeclasses eauto| |intros ?]
    | apply keeps_when; [typeclasses eauto|]
    | apply keeps_gets; typeclasses eauto
    | apply keeps_assert; typeclasses eauto
    | apply keeps_read; typeclasses eauto
    | apply keeps_lift; typeclasses eauto
    | apply keeps_raise; typeclasses eauto
    | apply keeps_modify; intros ?; reflexivity
    | apply keeps_zoom_run; intros ?; cbn [TorchVectorIndex.labels TorchVectorIndex.set_labels];
      match goal with
      | |- context [OrderedSet.extend ?ks ?o] =>
          destruct (extend_items o ks) as [->| ->]; [done|by apply prefix_app_r]
      end
    | match goal with |- keeps _ (if ?b then _ else _) => destruct b end ].
Qed.

(** X20. [add] never removes or reorders labels, whether it returns or
    raises: the label list before is a prefix of the label list after.
    When [add] returns, the list has grown by the labels of the call
    that the set part of the label store did not hold, in the order of
    the call. *)
Theorem add_appends_labels self (labs : list L) vecs grps strict :
  labels_of self `prefix_of` labels_of (TorchVectorIndex.add labs vecs grps strict self).2
  /\ forall s', TorchVectorIndex.add labs vecs grps strict self = (Ok (), s') ->
       labels_of s' = labels_of self ++ filter (fun l => l ∉ set_of self) labs.
Proof.
  split; [apply add_keeps_labels|].
  intros s' Hadd. rewrite <- novel_labels, <- located_labels.
  unfold TorchVectorIndex.add in Hadd. minv Hadd.
  all: try match goal with
       | Hz : zoom _ _ (OrderedSet.extend _) _ = (Ok _, _) |- _ =>
           apply zoom_ok in Hz as (x & Hx & ->)
       end.
  all: try match goal with
       | He : TorchVectorIndex.expand ?n ?p ?st = (Ok _, ?s1) |- _ =>
           let Hl := fresh "Hl" in
           pose proof (expand_labels n p st) as Hl; rewrite He in Hl; simpl in Hl
       end.
  all: try match goal with
       | Hx : OrderedSet.extend ?ks ?o = (Ok _, ?x) |- _ =>
           apply extend_ok in Hx; cbn [TorchVectorIndex.labels TorchVectorIndex.set_labels
             TorchVectorIndex.set_values TorchVectorIndex.set_groups];
           by rewrite Hx, Hl
       end.
  all: match goal with
       | Hn : (0 <? zlen (list_difference ?a ?b)) = false |- _ =>
           let Hnil := fresh "Hnil" in
           assert (Hnil : list_difference a b = [])
             by (destruct (list_difference a b);
                 [done|unfold zlen in Hn; simpl in Hn; apply Z.ltb_ge in Hn; lia]);
           rewrite Hnil, located_none, app_nil_r
       end.
  all: done.
Qed.
#[local] Instance same_labels_preorder :
  PreOrder (fun s s' : TorchVectorIndex.t L K T =>
              TorchVectorIndex.labels s' = TorchVectorIndex.labels s).
Proof. split; [by intros s|]. intros s1 s2 s3 H12 H23. congruence. Qed.

Lemma index_present (o : OrderedSet.t L) l :
  l ∈ OrderedSet.items o ->
  exists i : nat, OrderedSet.index o l = Ok (Z.of_nat i) /\ OrderedSet.items o !! i = Some l.
Proof.
  intros Hl. unfold OrderedSet.index.
  destruct (list_find _ _) as [[i y]|] eqn:Hf.
  - apply list_find_Some in Hf as (Hi & -> & _). eauto.
  - apply list_find_None in Hf. rewrite Forall_forall in Hf. by specialize (Hf l Hl).
Qed.

Lemma pop_present (o : OrderedSet.t L) (i : nat) l :
  OrderedSet.items o !! i = Some l ->
  OrderedSet.pop (Z.of_nat i) o
  = (Ok l, {| OrderedSet.items := delete i (OrderedSet.items o);
              OrderedSet._set := OrderedSet._set o |}).
Proof.
  intros Hi. pose proof (lookup_lt_Some _ _ _ Hi) as Hlt.
  unfold OrderedSet.pop, OrderedSet.len, zlen. cbv zeta.
  assert (E1 : (Z.of_nat i <? 0) = false) by (apply Z.ltb_ge; lia).
  assert (E2 : (Z.of_nat (length (OrderedSet.items o)) <=? Z.of_nat i) = false)
    by (apply Z.leb_gt; lia).
  rewrite E1. cbn [orb]. rewrite E1, E2. cbn [orb]. by rewrite Nat2Z.id, Hi.
Qed.

Lemma delete_NoDup_not_elem (l : list L) (i : nat) x :
  NoDup l -> l !! i = Some x -> x ∉ delete i l.
Proof.
  intros Hnd Hi Hin. apply list_elem_of_lookup in Hin as [j Hj].
  destruct (decide (j < i)%nat) as [Hlt|Hge].
  - rewrite list_lookup_delete_lt in Hj by done.
    pose proof (NoDup_lookup _ _ _ _ Hnd Hi Hj). lia.
  - rewrite list_lookup_delete_ge in Hj by lia.
    pose proof (NoDup_lookup _ _ _ _ Hnd Hi Hj). lia.
Qed.

(** One round of the loop of [remove] on a label that is gone: the
    lookup raises and nothing changes. *)
Lemma remove_round_absent size (ts : list L) l s :
  Forall (fun t => t = l) ts -> l ∉ labels_of s ->
  TorchVectorIndex.labels
    (for_each ts (fun lab =>
       (idx <- read (fun s => OrderedSet.index (TorchVectorIndex.labels s) lab) ;;
        zoom TorchVectorIndex.labels TorchVectorIndex.set_labels (OrderedSet.pop idx) ;;
        row <- read (fun s => t_get (QuantizedEmbedding.raw (TorchVectorIndex.values s)) size) ;;
        v <- read (fun s => QuantizedEmbedding.set_raw (TorchVectorIndex.values s) idx row) ;;
        modify (TorchVectorIndex.set_values v) ;;
        g <- read (fun s => t_get (TorchVectorIndex.groups s) size) ;;
        gs <- read (fun s => t_set (TorchVectorIndex.groups s) idx g) ;;
        modify (TorchVectorIndex.set_groups gs))) s).2
  = TorchVectorIndex.labels s.
Proof.
  intros Hts Hl. destruct Hts as [|t ts -> _]; [done|].
  cbn [for_each]. unfold bind at 1. unfold bind at 1. unfold read at 1.
  by rewrite (index_absent _ l Hl).
Qed.

(** What [remove([l])] leaves of the labels: [l] is gone from the list
    and stays in the set part. *)
Lemma remove_pops_label self l :
  NoDup (labels_of self) -> l ∈ labels_of self -> l ∈ set_of self ->
  (l ∉ labels_of (TorchVectorIndex.remove [l] self).2)
  /\ (l ∈ set_of (TorchVectorIndex.remove [l] self).2).
Proof.
  intros Hnd Hin Hset. unfold TorchVectorIndex.remove.
  rewrite bind_gets, bind_gets.
  set (size := TorchVectorIndex.size self).
  assert (Hts : Forall (fun t => t = l)
                  (OrderedSet.intersection (TorchVectorIndex.labels self) [l])).
  { apply Forall_forall. intros t [_ Ht]%list_elem_of_intersection.
    by apply list_elem_of_singleton in Ht. }
  assert (Hne : l ∈ OrderedSet.intersection (TorchVectorIndex.labels self) [l]).
  { apply list_elem_of_intersection. split; [done|left]. }
  destruct (OrderedSet.intersection (TorchVectorIndex.labels self) [l]) as [|t ts];
    [by apply elem_of_nil in Hne|].
  apply Forall_cons in Hts as [-> Hts]. clear Hne.
  destruct (index_present _ l Hin) as (i & Hidx & Hi).
  set (popped := {| OrderedSet.items := delete i (labels_of self);
                    OrderedSet._set := set_of self |}).
  set (s1 := TorchVectorIndex.set_labels popped self).
  assert (Hgone : l ∉ (labels_of s1)) by (simpl; by apply delete_NoDup_not_elem).
  assert (Hkept : l ∈ (set_of s1)) by done.
  cbn [for_each]. rewrite bind_assoc.
  erewrite bind_read; [|exact Hidx]. rewrite bind_assoc.
  erewrite bind_zoom; [|exact (pop_present _ _ _ Hi)]. fold popped. fold s1.
  match goal with
  | |- context [bind ?m ?k s1] =>
      enough (Hlab : TorchVectorIndex.labels (bind m k s1).2 = popped)
        by (rewrite Hlab; by split)
  end.
  match goal with
  | |- context [bind ?m ?k s1] =>
      assert (Hk : keeps (fun s s' : TorchVectorIndex.t L K T =>
                     TorchVectorIndex.labels s' = TorchVectorIndex.labels s) m)
  end.
  { repeat first
      [ apply keeps_bind; [typeclasses eauto| |intros ?]
      | apply keeps_read; typeclasses eauto
      | apply keeps_modify; intros ?; reflexivity ]. }
  match goal with
  | |- context [bind ?m ?k s1] =>
      specialize (Hk s1); unfold bind at 1; destruct (m s1) as [[u|e] s2] eqn:Hm
  end.
  - simpl in Hk. cbn [snd].
    by rewrite (remove_round_absent size ts l s2 Hts) by (by rewrite Hk).
  - simpl in Hk. cbn [snd]. by rewrite Hk.
Qed.

Lemma located_single (l : L) (sub : list L) :
  l ∈ sub -> TorchVectorIndex.located [l] sub = [(0, l)].
Proof.
  intros Hl. unfold TorchVectorIndex.located, enumerate. simpl.
  rewrite filter_cons, filter_nil. simpl. by rewrite decide_True.
Qed.

(** X21. A label that was removed cannot be added again.  [remove]
    takes the label out of the list and leaves it in the set part of
    the label store, so a later [add] of the label takes it for
    present, looks for its place in the list and raises: StrictAddError
    in strict mode, ValueError otherwise (AssertionError when the vector
    has the wrong dimension). *)
Theorem removed_label_cannot_be_added self (l : L) (vec : list T) grps strict :
  NoDup (labels_of self) -> l ∈ labels_of self -> l ∈ set_of self ->
  let after := (TorchVectorIndex.remove [l] self).2 in
  TorchVectorIndex.contains after l = false
  /\ exists e,
      (TorchVectorIndex.add1 l vec grps strict after).1 = Raise e
      /\ (zlen vec = QuantizedEmbedding.dims (TorchVectorIndex.values after) ->
          e = if strict then StrictAddError else ValueError).
Proof.
  intros Hnd Hin Hset after.
  destruct (remove_pops_label self l Hnd Hin Hset) as [Hgone Hkept]. fold after in Hgone, Hkept.
  split.
  { unfold TorchVectorIndex.contains, OrderedSet.contains. by apply bool_decide_eq_false. }
  assert (Hex : l ∈ OrderedSet.intersection (TorchVectorIndex.labels after) (py_set [l])).
  { apply list_elem_of_intersection. split; [done|]. unfold py_set.
    apply elem_of_remove_dups. left. }
  unfold TorchVectorIndex.add1, TorchVectorIndex.add. cbv zeta.
  rewrite bind_gets. cbn [rows cols].
  change (zlen [vec] =? zlen [l]) with true. rewrite bind_assert by done.
  destruct (zlen vec =? QuantizedEmbedding.dims (TorchVectorIndex.values after)) eqn:Ed.
  2:{ exists AssertionError. split; [done|]. intros Hd. apply Z.eqb_neq in Ed. done. }
  rewrite bind_assert by done. rewrite bind_gets.
  rewrite (zlen_pos_of_elem _ l Hex).
  destruct strict; cbn [andb]; [by exists StrictAddError|].
  exists ValueError. split; [|done].
  rewrite bind_modify.
  destruct (idx_after_add (TorchVectorIndex.grpids after) grps) as [r Hr].
  rewrite (bind_read _ _ _ r) by exact Hr.
  rewrite when_true. rewrite bind_assoc.
  unfold bind at 1. unfold bind at 1. unfold read at 1.
  rewrite (located_single l _ Hex). cbn [omapM fst snd].
  cbn [TorchVectorIndex.labels TorchVectorIndex.set_grpids].
  by rewrite (index_absent _ l Hgone).
Qed.
End CurrentIndex.

Lemma get_missing_label_raises_witness :
  TorchVectorIndex.get idx_xyz ["x"; "q"]%string = Raise ValueError.
Proof.
  apply (get_missing_label_raises idx_xyz ["x"; "q"]%string "q"%string).
  - apply (bool_decide_unpack _). vm_compute. exact I.
  - reflexivity.
Defined.

Lemma add_appends_labels_witness :
  OrderedSet.items (TorchVectorIndex.labels idx_xy)
    `prefix_of` OrderedSet.items (TorchVectorIndex.labels
                  (TorchVectorIndex.add ["y"; "z"]%string (Tensor2 2 [[2; 2]; [1; 1]])
                     (One None) false idx_xy).2)
  /\ forall s',
       TorchVectorIndex.add ["y"; "z"]%string (Tensor2 2 [[2; 2]; [1; 1]])
         (One None) false idx_xy = (Ok (), s') ->
       OrderedSet.items (TorchVectorIndex.labels s')
       = OrderedSet.items (TorchVectorIndex.labels idx_xy)
         ++ filter (fun l => l ∉ OrderedSet._set (TorchVectorIndex.labels idx_xy))
              ["y"; "z"]%string.
Proof.
  exact (add_appends_labels idx_xy ["y"; "z"]%string (Tensor2 2 [[2; 2]; [1; 1]])
           (One None) false).
Defined.

Lemma removed_label_cannot_be_added_witness :
  TorchVectorIndex.contains (TorchVectorIndex.remove ["x"]%string idx_xyz).2 "x"%string = false
  /\ exists e,
      (TorchVectorIndex.add1 "x"%string [5; 5] (One None) false
         (TorchVectorIndex.remove ["x"]%string idx_xyz).2).1 = Raise e
      /\ (zlen [5; 5]
          = QuantizedEmbedding.dims
              (TorchVectorIndex.values (TorchVectorIndex.remove ["x"]%string idx_xyz).2) ->
          e = if false then StrictAddError else ValueError).
Proof.
  apply (removed_label_cannot_be_added idx_xyz "x"%string [5; 5] (One None) false).
  - apply (bool_decide_unpack _). vm_compute. exact I.
  - apply (bool_decide_unpack _). vm_compute. exact I.
  - apply (bool_decide_unpack _). vm_compute. exact I.
Defined.

(** ** The earlier index: [remove], [add] and [save] *)

Lemma remove_dups_length_le {A} `{EqDecision A} (l : list A) :
  (length (remove_dups l) <= length l)%nat.
Proof.
  induction l as [|x l IH]; simpl; [done|].
  destruct (decide_rel elem_of x l); simpl; lia.
Qed.

Lemma remove_dups_length_lt {A} `{EqDecision A} (l : list A) :
  ~ NoDup l -> (length (remove_dups l) < length l)%nat.
Proof.
  induction l as [|x l IH]; intros Hnd.
  - exfalso. apply Hnd. constructor.
  - simpl. pose proof (remove_dups_length_le l) as Hle.
    destruct (decide_rel elem_of x l) as [Hin|Hout]; simpl; [lia|].
    assert (Hl : ~ NoDup l) by (intros Hl; apply Hnd; by constructor).
    specialize (IH Hl). lia.
Qed.

Lemma remove_dups_NoDup_eq {A} `{EqDecision A} (l : list A) :
  NoDup l -> remove_dups l = l.
Proof.
  induction 1 as [|x l Hx Hnd IH]; simpl; [done|].
  destruct (decide_rel elem_of x l); [done|]. by rewrite IH.
Qed.

Lemma list_difference_nothing {A} `{EqDecision A} (l : list A) : list_difference l [] = l.
Proof.
  induction l as [|x l IH]; [done|]. simpl.
  destruct (decide_rel elem_of x []) as [Hx|_]; [by apply elem_of_nil in Hx|].
  by rewrite IH.
Qed.

Lemma enumerate_fst {A} (l : list A) :
  (enumerate l).*1 = map Z.of_nat (seq 0 (length l)).
Proof.
  unfold enumerate.
  assert (Hgen : forall n, (imap (fun i x => (Z.of_nat (n + i), x)) l).*1
                           = map Z.of_nat (seq n (length l))).
  { induction l as [|x l IH]; intros n; [done|].
    cbn [imap fmap list_fmap length seq map]. f_equal; [simpl; f_equal; lia|].
    rewrite <- (IH (S n)). f_equal. apply imap_ext. intros i y _. simpl. f_equal. lia. }
  apply (Hgen 0%nat).
Qed.

Lemma enumerate_snd {A} (l : list A) : (enumerate l).*2 = l.
Proof.
  unfold enumerate.
  assert (Hgen : forall n, (imap (fun i x => (Z.of_nat (n + i), x)) l).*2 = l).
  { induction l as [|x l IH]; intros n; [done|].
    cbn [imap fmap list_fmap]. f_equal.
    rewrite <- (IH (S n)) at 2. f_equal. apply imap_ext. intros i y _. simpl. f_equal. lia. }
  apply (Hgen 0%nat).
Qed.

Lemma t_gather_all {A} (t : list A) :
  t_gather t (map Z.of_nat (seq 0 (length t))) = Ok t.
Proof.
  unfold t_gather, t_get. apply omapM_lookup; [by rewrite length_map, length_seq|].
  intros i x y Hx Hy. apply list_lookup_fmap_Some in Hx as (j & -> & Hj).
  apply lookup_seq in Hj as [-> _]. simpl. by apply py_index_eval.
Qed.

Section LegacyUse.
Context {L T : Type} `{EqDecision L} `{Numeric T}.
Implicit Types s : LegacyIndex.t L T.

Lemma legacy_index_present (l : list L) x :
  x ∈ l -> exists i : nat, LegacyIndex.index l x = Ok (Z.of_nat i) /\ l !! i = Some x.
Proof.
  intros Hl. unfold LegacyIndex.index.
  destruct (list_find _ _) as [[i y]|] eqn:Hf.
  - apply list_find_Some in Hf as (Hi & -> & _). eauto.
  - apply list_find_None in Hf. rewrite Forall_forall in Hf. by specialize (Hf x Hl).
Qed.

Lemma py_index_raises {A} (l : list A) i e : py_index l i = Raise e -> e = IndexError.
Proof.
  unfold py_index. cbv zeta. destruct (_ || _); [by intros [=]|].
  destruct (l !! _); by intros [=].
Qed.

Lemma py_setitem_raises {A} (l : list A) i x e :
  py_setitem l i x = Raise e -> e = IndexError.
Proof. unfold py_setitem. cbv zeta. destruct (_ || _); by intros [=]. Qed.

(** X22. In the earlier version [remove] never returns when one of the
    labels is in the index: it takes one label out of the list and
    raises IndexError, at the latest on its last statement. *)
Theorem legacy_remove_raises_always s (labs : list L) (l : L) :
  l ∈ labs -> l ∈ LegacyIndex.labels s ->
  exists s',
    LegacyIndex.remove labs s = (Raise IndexError, s')
    /\ LegacyIndex.size s' = LegacyIndex.size s - 1
    /\ LegacyIndex.max_size s' = LegacyIndex.max_size s.
Proof.
  intros Hl Hin. unfold LegacyIndex.remove. rewrite bind_gets.
  assert (Hne : l ∈ list_intersection (py_set labs) (LegacyIndex.labels s)).
  { apply list_elem_of_intersection. split; [|done]. unfold py_set.
    by apply elem_of_remove_dups. }
  assert (Hts : Forall (fun t => t ∈ LegacyIndex.labels s)
                  (list_intersection (py_set labs) (LegacyIndex.labels s))).
  { apply Forall_forall. by intros t [_ Ht]%list_elem_of_intersection. }
  destruct (list_intersection (py_set labs) (LegacyIndex.labels s)) as [|t ts];
    [by apply elem_of_nil in Hne|].
  apply Forall_cons in Hts as [Ht _]. clear Hne.
  destruct (legacy_index_present _ t Ht) as (i & Hidx & Hi).
  cbn [for_each]. rewrite bind_assoc. erewrite bind_read; [|exact Hidx].
  rewrite bind_assoc, bind_modify, bind_assoc, bind_gets.
  set (s1 := LegacyIndex.set_labels (delete (Z.to_nat (Z.of_nat i)) (LegacyIndex.labels s)) s).
  assert (Hsize : LegacyIndex.size s1 = LegacyIndex.size s - 1).
  { unfold s1, LegacyIndex.size, zlen. simpl. rewrite Nat2Z.id.
    rewrite length_delete by eauto. apply lookup_lt_Some in Hi. lia. }
  unfold bind, read, modify, raise.
  destruct (t_get (LegacyIndex.values s1) (LegacyIndex.size s1)) as [row|e] eqn:Hrow.
  - destruct (t_set (LegacyIndex.values s1) (Z.of_nat i) row) as [v|e] eqn:Hset.
    + eexists. split; [reflexivity|]. by split.
    + apply py_setitem_raises in Hset as ->. eexists. split; [reflexivity|]. by split.
  - apply py_index_raises in Hrow as ->. eexists. split; [reflexivity|]. by split.
Qed.
Lemma legacy_located_all (labs sub : list L) :
  (forall l, l ∈ labs -> l ∈ sub) -> LegacyIndex.located labs sub = enumerate labs.
Proof.
  intros Hall. unfold LegacyIndex.located. apply filter_all. apply Forall_forall.
  intros [i l] Hin. simpl. apply Hall.
  rewrite <- (enumerate_snd labs). apply list_elem_of_fmap. by exists (i, l).
Qed.

Lemma legacy_expand_eval n1 s :
  0 < n1 -> LegacyIndex.expand n1 s = (Ok (), legacy_grown n1 s).
Proof.
  intros Hn. unfold LegacyIndex.expand, next_power_of_2, legacy_grown.
  assert (E : (n1 <=? 0) = false) by (apply Z.leb_gt; lia).
  rewrite E. unfold bind, lift, gets, when, modify, ret.
  by destruct (LegacyIndex.max_size s <? 2 ^ Z.log2_up n1).
Qed.

Lemma t_resize_grow {A} (fill : A) (t : list A) n :
  zlen t <= n -> t_resize fill t n = t ++ replicate (Z.to_nat n - length t) fill.
Proof. intros Hn. unfold t_resize. rewrite take_ge by (unfold zlen in Hn; lia). done. Qed.

Lemma legacy_grown_facts n1 s :
  0 < n1 -> alloc_inv s ->
  LegacyIndex.labels (legacy_grown n1 s) = LegacyIndex.labels s
  /\ LegacyIndex.dims (legacy_grown n1 s) = LegacyIndex.dims s
  /\ n1 <= LegacyIndex.max_size (legacy_grown n1 s)
  /\ LegacyIndex.max_size s <= LegacyIndex.max_size (legacy_grown n1 s)
  /\ zlen (LegacyIndex.values (legacy_grown n1 s)) = LegacyIndex.max_size (legacy_grown n1 s)
  /\ zlen (LegacyIndex.groups (legacy_grown n1 s)) = LegacyIndex.max_size (legacy_grown n1 s)
  /\ LegacyIndex.values s `prefix_of` LegacyIndex.values (legacy_grown n1 s)
  /\ LegacyIndex.groups s `prefix_of` LegacyIndex.groups (legacy_grown n1 s).
Proof.
  intros Hn (Hsz & Hv & Hg).
  assert (Hp : n1 <= 2 ^ Z.log2_up n1).
  { destruct (decide (n1 = 1)) as [->|Hne]; [done|]. apply Z.log2_up_spec. lia. }
  unfold legacy_grown.
  destruct (LegacyIndex.max_size s <? 2 ^ Z.log2_up n1) eqn:E.
  - apply Z.ltb_lt in E. cbn [LegacyIndex.set_alloc LegacyIndex.labels LegacyIndex.dims
      LegacyIndex.max_size LegacyIndex.values LegacyIndex.groups].
    rewrite !t_resize_length by lia. rewrite !t_resize_grow by lia.
    split_and!; try done; try lia; by apply prefix_app_r.
  - apply Z.ltb_ge in E. split_and!; try done; lia.
Qed.

Lemma prefix_take {A} (l1 l2 : list A) (n : nat) :
  l1 `prefix_of` l2 -> (n <= length l1)%nat -> take n l2 = take n l1.
Proof. intros [k ->] Hn. by rewrite take_app_le. Qed.

(** X23. [add] with labels that are all new but not all different:
    the repeated label is counted once for the rows to write and twice
    for the labels to append, so the label list grows by all of them
    and the assignment of the rows raises RuntimeError.  The index is
    left with labels that have no row. *)
Theorem legacy_add_repeated_label s (labs : list L) vecs g strict :
  alloc_inv s ->
  zlen (rows vecs) = zlen labs -> cols vecs = LegacyIndex.dims s ->
  (forall l, l ∈ labs -> l ∉ LegacyIndex.labels s) ->
  ~ NoDup labs ->
  exists s',
    LegacyIndex.add labs vecs g strict s = (Raise RuntimeError, s')
    /\ LegacyIndex.labels s' = LegacyIndex.labels s ++ labs.
Proof.
  intros Hinv Hnv Hdv Hfresh Hdup.
  assert (Hex : list_intersection (py_set labs) (LegacyIndex.labels s) = []).
  { destruct (list_intersection _ _) as [|x xs] eqn:E; [done|]. exfalso.
    assert (Hx : x ∈ list_intersection (py_set labs) (LegacyIndex.labels s))
      by (rewrite E; left).
    apply list_elem_of_intersection in Hx as [Hx1 Hx2].
    unfold py_set in Hx1. rewrite elem_of_remove_dups in Hx1.
    exact (Hfresh x Hx1 Hx2). }
  assert (Hlen : (length (py_set labs) < length labs)%nat)
    by (by apply remove_dups_length_lt).
  assert (Hpos : (0 < length (py_set labs))%nat).
  { destruct labs as [|x labs]; [exfalso; apply Hdup; constructor|].
    destruct (py_set (x :: labs)) as [|y ys] eqn:E; [|simpl; lia].
    assert (Hx : x ∈ py_set (x :: labs)) by (apply elem_of_remove_dups; left).
    rewrite E in Hx. by apply elem_of_nil in Hx. }
  unfold LegacyIndex.add. cbv zeta.
  rewrite bind_gets, bind_assert by (by apply Z.eqb_eq).
  rewrite bind_assert by (by apply Z.eqb_eq).
  rewrite bind_gets, Hex. change (0 <? zlen []) with false.
  rewrite andb_false_r, bind_when_false.
  rewrite list_difference_nothing.
  assert (Hn : (0 <? zlen (py_set labs)) = true) by (apply Z.ltb_lt; unfold zlen; lia).
  rewrite Hn, when_true.
  rewrite legacy_located_all by (intros l Hl; by apply elem_of_remove_dups).
  rewrite enumerate_fst, enumerate_snd.
  rewrite bind_gets.
  set (n1 := LegacyIndex.size s + zlen (py_set labs)).
  assert (Hn1 : 0 < n1) by (unfold n1, LegacyIndex.size, zlen; lia).
  erewrite bind_eval; [|by apply legacy_expand_eval].
  destruct (legacy_grown_facts n1 s Hn1 Hinv) as (Hl & Hd & Hcap & _ & Hv & _).
  rewrite bind_modify.
  assert (Hrows : t_gather (rows vecs) (map Z.of_nat (seq 0 (length labs))) = Ok (rows vecs)).
  { replace (length labs) with (length (rows vecs)) by (unfold zlen in Hnv; lia).
    apply t_gather_all. }
  erewrite bind_lift; [|exact Hrows].
  unfold bind at 1. unfold read at 1.
  cbn [LegacyIndex.values LegacyIndex.set_labels].
  unfold t_set_slice. cbv zeta. rewrite Hv.
  assert (Hsz : 0 <= LegacyIndex.size s) by (unfold LegacyIndex.size, zlen; lia).
  rewrite (Z.min_l (LegacyIndex.size s)), (Z.min_l n1), (Z.max_r _ n1) by (unfold n1 in *; lia).
  assert (Hw : (n1 - LegacyIndex.size s =? zlen (rows vecs)) = false).
  { apply Z.eqb_neq. unfold n1, zlen in *. lia. }
  rewrite Hw. eexists. split; [reflexivity|]. cbn [LegacyIndex.labels]. by rewrite Hl.
Qed.
Lemma take_splice {A} (t src : list A) (lo hi : nat) :
  (lo <= length t)%nat -> length src = (hi - lo)%nat -> (lo <= hi)%nat ->
  take hi (take lo t ++ src ++ drop hi t) = take lo t ++ src.
Proof.
  intros Hlo Hsrc Hle. rewrite app_assoc.
  rewrite take_app_le by (rewrite length_app, length_take; lia).
  apply take_ge. rewrite length_app, length_take. lia.
Qed.

Lemma length_splice {A} (t src : list A) (lo hi : nat) :
  (hi <= length t)%nat -> length src = (hi - lo)%nat -> (lo <= hi)%nat ->
  length (take lo t ++ src ++ drop hi t) = length t.
Proof.
  intros Hhi Hsrc Hle. rewrite !length_app, length_take, length_drop. lia.
Qed.

(** X24. [add] with labels that are new and all different, and
    [save]: the call returns, and what [save()] gives afterwards is
    what it gave before with the labels, the rows and the group tags
    of the call appended, in the order of the call.  The capacity
    invariant is kept, so that calls can follow one another. *)
Theorem legacy_add_then_save s (labs : list L) vecs g strict :
  alloc_inv s ->
  zlen (rows vecs) = zlen labs -> cols vecs = LegacyIndex.dims s ->
  (forall l, l ∈ labs -> l ∉ LegacyIndex.labels s) ->
  NoDup labs ->
  (forall gl, g = LegacyIndex.GTensor gl -> zlen gl = zlen labs) ->
  exists s',
    LegacyIndex.add labs vecs g strict s = (Ok (), s')
    /\ alloc_inv s'
    /\ legacy_save s'
       = Saved (LegacyIndex.labels s ++ labs)
               (saved_values (legacy_save s) ++ rows vecs)
               (saved_groups (legacy_save s)
                  ++ match g with
                     | LegacyIndex.GInt x => replicate (length labs) x
                     | LegacyIndex.GTensor gl => gl
                     end).
Proof.
  intros Hinv Hnv Hdv Hfresh Hnd Hg.
  assert (Hex : list_intersection (py_set labs) (LegacyIndex.labels s) = []).
  { destruct (list_intersection _ _) as [|x xs] eqn:E; [done|]. exfalso.
    assert (Hx : x ∈ list_intersection (py_set labs) (LegacyIndex.labels s))
      by (rewrite E; left).
    apply list_elem_of_intersection in Hx as [Hx1 Hx2].
    unfold py_set in Hx1. rewrite elem_of_remove_dups in Hx1.
    exact (Hfresh x Hx1 Hx2). }
  assert (Hset : py_set labs = labs) by (by apply remove_dups_NoDup_eq).
  set (grps := match g with
               | LegacyIndex.GInt x => replicate (Z.to_nat (zlen labs)) x
               | LegacyIndex.GTensor gl => gl
               end).
  assert (Hgl : length grps = length labs).
  { unfold grps. destruct g as [x|gl].
    - rewrite length_replicate. unfold zlen. lia.
    - specialize (Hg gl eq_refl). unfold zlen in Hg. lia. }
  assert (Hgrps : match g with
                  | LegacyIndex.GInt x => replicate (length labs) x
                  | LegacyIndex.GTensor gl => gl
                  end = grps).
  { unfold grps. destruct g; [|done]. unfold zlen. by rewrite Nat2Z.id. }
  rewrite Hgrps.
  pose proof Hinv as (Hsz & Hv0 & Hg0).
  assert (Hsz0 : 0 <= LegacyIndex.size s) by (unfold LegacyIndex.size, zlen; lia).
  unfold LegacyIndex.add. cbv zeta.
  rewrite bind_gets, bind_assert by (by apply Z.eqb_eq).
  rewrite bind_assert by (by apply Z.eqb_eq).
  rewrite bind_gets, Hex. change (0 <? zlen []) with false.
  rewrite andb_false_r, bind_when_false.
  rewrite list_difference_nothing, Hset. fold grps.
  destruct (decide (labs = [])) as [Hnil|Hne].
  { rewrite Hnil in *. change (0 <? zlen []) with false. exists s.
    split; [done|]. split; [done|].
    assert (Hr : rows vecs = [])
      by (apply length_zero_iff_nil; unfold zlen in Hnv; simpl in Hnv; lia).
    assert (Hgn : grps = []) by (by apply length_zero_iff_nil).
    rewrite Hr, Hgn, !app_nil_r. done. }
  assert (Hpos : (0 < length labs)%nat) by (destruct labs; [done|simpl; lia]).
  assert (Hn : (0 <? zlen labs) = true) by (apply Z.ltb_lt; unfold zlen; lia).
  rewrite Hn, when_true.
  rewrite legacy_located_all by done.
  rewrite enumerate_fst, enumerate_snd.
  rewrite bind_gets.
  set (n1 := LegacyIndex.size s + zlen labs).
  assert (Hn1 : 0 < n1) by (unfold n1, zlen; lia).
  erewrite bind_eval; [|by apply legacy_expand_eval].
  destruct (legacy_grown_facts n1 s Hn1 Hinv) as (Hl & Hd & Hcap & Hcap0 & Hv & Hgz & Hpv & Hpg).
  set (s1 := legacy_grown n1 s) in *.
  rewrite bind_modify.
  assert (Hrows : t_gather (rows vecs) (map Z.of_nat (seq 0 (length labs))) = Ok (rows vecs)).
  { replace (length labs) with (length (rows vecs)) by (unfold zlen in Hnv; lia).
    apply t_gather_all. }
  erewrite bind_lift; [|exact Hrows].
  erewrite bind_read.
  2:{ cbn [LegacyIndex.values LegacyIndex.set_labels].
      apply t_set_slice_eval; unfold n1 in *; lia. }
  rewrite bind_modify.
  assert (Hgsrc : t_gather grps (map Z.of_nat (seq 0 (length labs))) = Ok grps).
  { rewrite <- Hgl. apply t_gather_all. }
  erewrite bind_lift; [|exact Hgsrc].
  erewrite bind_read.
  2:{ cbn [LegacyIndex.groups LegacyIndex.set_labels LegacyIndex.set_values].
      apply t_set_slice_eval; unfold n1, zlen in *; lia. }
  eexists. split; [reflexivity|].
  assert (Hn0 : Z.to_nat (LegacyIndex.size s) = length (LegacyIndex.labels s))
    by (unfold LegacyIndex.size, zlen; lia).
  assert (Hn1' : Z.to_nat n1 = (length (LegacyIndex.labels s) + length labs)%nat)
    by (unfold n1, LegacyIndex.size, zlen; lia).
  assert (Hrl : length (rows vecs) = length labs) by (unfold zlen in Hnv; lia).
  assert (Hvl : length (LegacyIndex.values s1) = Z.to_nat (LegacyIndex.max_size s1))
    by (unfold zlen in Hv; lia).
  assert (Hgl1 : length (LegacyIndex.groups s1) = Z.to_nat (LegacyIndex.max_size s1))
    by (unfold zlen in Hgz; lia).
  split.
  - unfold alloc_inv.
    cbn [LegacyIndex.values LegacyIndex.groups LegacyIndex.max_size
         LegacyIndex.set_labels LegacyIndex.set_values LegacyIndex.set_groups].
    rewrite Hn0, Hn1'. unfold zlen at 1 2. rewrite !length_splice by lia.
    unfold LegacyIndex.size, zlen.
    cbn [LegacyIndex.labels LegacyIndex.set_labels LegacyIndex.set_values
         LegacyIndex.set_groups].
    rewrite Hl, length_app.
    unfold n1, LegacyIndex.size, zlen in Hcap. lia.
  - unfold legacy_save, LegacyIndex.size.
    cbn [LegacyIndex.labels LegacyIndex.values LegacyIndex.groups
         LegacyIndex.set_labels LegacyIndex.set_values LegacyIndex.set_groups
         saved_values saved_groups].
    rewrite Hl. fold (LegacyIndex.size s).
    assert (Hzl : zlen (LegacyIndex.labels s ++ labs) = n1).
    { unfold n1, LegacyIndex.size, zlen. rewrite length_app. lia. }
    rewrite Hzl, Hn0, Hn1'.
    rewrite !py_slice_prefix.
    2-5: unfold zlen; rewrite ?length_splice by lia;
         unfold n1, LegacyIndex.size, zlen in *; lia.
    rewrite Hn0, Hn1'.
    rewrite !take_splice by lia.
    rewrite (prefix_take _ _ _ Hpv), (prefix_take _ _ _ Hpg) by (unfold zlen in *; lia).
    done.
Qed.
End LegacyUse.

(** The constructor establishes the capacity invariant. *)
Lemma init_alloc_inv {L T} `{Numeric T} (d m : Z) (s : LegacyIndex.t L T) :
  LegacyIndex.init d m = Ok s -> alloc_inv s.
Proof.
  unfold LegacyIndex.init. destruct (m <=? 0) eqn:E; [done|].
  destruct (negb _); [done|]. intros [= <-]. apply Z.leb_gt in E.
  unfold alloc_inv, LegacyIndex.size, zlen. simpl. rewrite !length_replicate. lia.
Qed.

Lemma legacy0_alloc : alloc_inv legacy0.
Proof. by apply (init_alloc_inv 2 16). Qed.

Lemma legacy3_alloc : alloc_inv legacy3.
Proof. unfold alloc_inv. vm_compute. split_and!; [discriminate|reflexivity|reflexivity]. Qed.

Lemma legacy_remove_raises_always_witness :
  exists s',
    LegacyIndex.remove ["x"]%string legacy3 = (Raise IndexError, s')
    /\ LegacyIndex.size s' = LegacyIndex.size legacy3 - 1
    /\ LegacyIndex.max_size s' = LegacyIndex.max_size legacy3.
Proof.
  apply (legacy_remove_raises_always legacy3 ["x"]%string "x"%string).
  - apply (bool_decide_unpack _). vm_compute. exact I.
  - apply (bool_decide_unpack _). vm_compute. exact I.
Defined.

Lemma legacy_add_repeated_label_witness :
  exists s',
    LegacyIndex.add ["x"; "x"]%string (Tensor2 2 [[1; 0]; [0; 1]]) (LegacyIndex.GInt (-1))
      false legacy0 = (Raise RuntimeError, s')
    /\ LegacyIndex.labels s' = LegacyIndex.labels legacy0 ++ ["x"; "x"]%string.
Proof.
  apply (legacy_add_repeated_label legacy0 ["x"; "x"]%string (Tensor2 2 [[1; 0]; [0; 1]])
           (LegacyIndex.GInt (-1)) false).
  - exact legacy0_alloc.
  - reflexivity.
  - reflexivity.
  - apply Forall_forall. apply (bool_decide_unpack _). vm_compute. exact I.
  - apply (bool_decide_unpack _). vm_compute. exact I.
Defined.

Lemma legacy_add_then_save_witness :
  exists s',
    LegacyIndex.add ["u"; "v"]%string (Tensor2 2 [[2; 3]; [4; 5]]) (LegacyIndex.GInt 7)
      false legacy3 = (Ok (), s')
    /\ alloc_inv s'
    /\ legacy_save s'
       = Saved (LegacyIndex.labels legacy3 ++ ["u"; "v"]%string)
               (saved_values (legacy_save legacy3) ++ rows (Tensor2 2 [[2; 3]; [4; 5]]))
               (saved_groups (legacy_save legacy3)
                  ++ match LegacyIndex.GInt 7 with
                     | LegacyIndex.GInt x => replicate (length ["u"; "v"]%string) x
                     | LegacyIndex.GTensor gl => gl
                     end).
Proof.
  apply (legacy_add_then_save legacy3 ["u"; "v"]%string (Tensor2 2 [[2; 3]; [4; 5]])
           (LegacyIndex.GInt 7) false).
  - exact legacy3_alloc.
  - reflexivity.
  - reflexivity.
  - apply Forall_forall. apply (bool_decide_unpack _). vm_compute. exact I.
  - apply (bool_decide_unpack _). vm_compute. exact I.
  - intros gl [=].
Defined.
